(** * Concurrency limiter: FIFO gate and priority gate

    A shallow embedding of the two Go packages of the repository,
    [limiter] (the FIFO gate) and [priority] (the priority gate), and the
    properties of their bookkeeping.

    Each method of a gate runs its critical section under the gate's
    mutex, so a method is embedded as one state transformer on the gate,
    the wait entries and the channels.  A transformer ends in one of
    three ways: it returns, it blocks for ever (a send nobody receives, a
    mutex nobody unlocks), or it panics. *)

From Stdlib Require Import ZArith List Lia Bool Sorting.Sorted Sorting.Permutation.
From stdpp Require Import base list.
Import ListNotations.
Local Open Scope Z_scope.

(** ** Go's [int]: 64-bit two's complement, wrapping on overflow *)

Module Go.

Definition int_min : Z := - 2 ^ 63.
Definition int_max : Z := 2 ^ 63 - 1.

Definition wrap (z : Z) : Z := (z - int_min) mod 2 ^ 64 + int_min.

Definition add (x y : Z) : Z := wrap (x + y).
Definition sub (x y : Z) : Z := wrap (x - y).
Definition mul (x y : Z) : Z := wrap (x * y).

Definition is_int (z : Z) : Prop := int_min <= z <= int_max.

End Go.

(** ** Outcomes and the state monad of a method call *)

Inductive outcome (S A : Type) : Type :=
| Returns (a : A) (s : S)   (* the call returned [a], leaving state [s] *)
| Blocked (s : S)        (* the goroutine is suspended at state [s] *)
| Panic (s : S).         (* a run-time panic was raised at state [s] *)

Arguments Returns {S A} a s.
Arguments Blocked {S A} s.
Arguments Panic {S A} s.

Definition M (S A : Type) : Type := S -> outcome S A.

Definition ret {S A} (a : A) : M S A := fun s => Returns a s.

Definition bind {S A B} (m : M S A) (k : A -> M S B) : M S B :=
  fun s =>
    match m s with
    | Returns a s' => k a s'
    | Blocked s' => Blocked s'
    | Panic s' => Panic s'
    end.

Notation "x <- m ;; k" := (bind m (fun x => k))
  (at level 100, m at next level, right associativity).
Notation "m ;; k" := (bind m (fun _ => k))
  (at level 100, right associativity).

Definition get {S} : M S S := fun s => Returns s s.
Definition modify {S} (f : S -> S) : M S unit := fun s => Returns tt (f s).

(** [defer d body]: Go's [defer].  The deferred call [d] runs when the
    body returns and also while a panic of the body unwinds; it does not
    run when the body never returns. *)
Definition defer {S A} (d : S -> S) (body : M S A) : M S A :=
  fun s =>
    match body s with
    | Returns a s' => Returns a (d s')
    | Blocked s' => Blocked s'
    | Panic s' => Panic (d s')
    end.

(** The state a call ends in, whatever the outcome. *)
Definition final {S A} (o : outcome S A) : S :=
  match o with
  | Returns _ s => s
  | Blocked s => s
  | Panic s => s
  end.

Definition returned {S A} (o : outcome S A) : bool :=
  match o with
  | Returns _ _ => true
  | _ => false
  end.

(** [safe Q o]: the call did not panic, and if it returned, [Q] holds of
    the state it left. *)
Definition safe {S A} (Q : S -> Prop) (o : outcome S A) : Prop :=
  match o with
  | Returns _ s => Q s
  | Blocked _ => True
  | Panic _ => False
  end.

(** [on_return Q o]: if the call returned, [Q] holds of the state and of
    the value. *)
Definition on_return {S A} (Q : A -> S -> Prop) (o : outcome S A) : Prop :=
  match o with
  | Returns a s => Q a s
  | _ => True
  end.

(** ** Package time: durations and tickers

    A [time.Duration] is an [int64] count of nanoseconds; the product
    [time.Duration(n) * time.Millisecond] wraps as every [int64] product
    does. *)

Module time.

Definition Millisecond : Z := 1000000.

Definition milliseconds (n : Z) : Z := Go.mul n Millisecond.

(** [time.NewTicker(d)] panics when [d] is not positive. *)
Definition NewTicker {S} (d : Z) : M S unit :=
  fun s => if d <=? 0 then Panic s else Returns tt s.

End time.

(** ** Unbuffered channels of type [chan struct{}]

    A channel is named by its allocation index.  Every channel of the
    two gates is made for one wait entry and has one receiver, the
    goroutine that queued the entry; [rcv] records where that goroutine
    stands with respect to its [select]. *)

Module Chan.

Definition chan : Type := nat.

Inductive receiver : Type :=
| Listening   (* in its select (or about to enter it): ready to receive *)
| Received    (* took the case [<-ch]: a sent value was delivered to it *)
| Left.       (* took another case of the select: it receives no more *)

Record cell : Type := mkCell { closed : bool; rcv : receiver }.

(** [delivered] is the trace of completed sends, oldest first. *)
Record chans : Type := mkChans { cells : list cell; delivered : list chan }.

Definition empty : chans := mkChans [] [].

(** [make(chan struct{})]: a fresh open channel. *)
Definition make : M chans chan :=
  fun h => Returns (length (cells h))
                (mkChans (cells h ++ [mkCell false Listening]) (delivered h)).

(** [ch <- struct{}{}]: panics on a closed channel; completes when the
    receiver is ready, which then has the value; blocks otherwise (also
    on a channel that does not exist, as on a nil channel). *)
Definition send (ch : chan) : M chans unit :=
  fun h =>
    match cells h !! ch with
    | None => Blocked h
    | Some c =>
        if closed c then Panic h
        else match rcv c with
             | Listening =>
                 Returns tt (mkChans (<[ch := mkCell false Received]> (cells h))
                                  (delivered h ++ [ch]))
             | _ => Blocked h
             end
    end.

(** [close(ch)]: panics on a closed (or nil) channel. *)
Definition close (ch : chan) : M chans unit :=
  fun h =>
    match cells h !! ch with
    | None => Panic h
    | Some c =>
        if closed c then Panic h
        else Returns tt (mkChans (<[ch := mkCell true (rcv c)]> (cells h))
                              (delivered h))
    end.

(** The case [<-ch] of a select: ready once a value was delivered or the
    channel is closed. *)
Definition await (ch : chan) : M chans unit :=
  fun h =>
    match cells h !! ch with
    | None => Blocked h
    | Some c =>
        match rcv c with
        | Received => Returns tt h
        | _ => if closed c then Returns tt h else Blocked h
        end
    end.

(** The select of the receiver commits to a case other than [<-ch]. *)
Definition leave (ch : chan) : M chans unit :=
  fun h =>
    match cells h !! ch with
    | None => Returns tt h
    | Some c => Returns tt (mkChans (<[ch := mkCell (closed c) Left]> (cells h))
                                 (delivered h))
    end.

(** The receiver comes round its loop to a select that has the case
    [<-ch] again. *)
Definition enter (ch : chan) : M chans unit :=
  fun h =>
    match cells h !! ch with
    | None => Returns tt h
    | Some c => Returns tt (mkChans (<[ch := mkCell (closed c) Listening]> (cells h))
                                    (delivered h))
    end.

(** The signal of a wait entry has fired once its channel is closed:
    both the grant and the forced removal end with [close]. *)
Definition fired (h : chans) (ch : chan) : bool :=
  match cells h !! ch with
  | Some c => closed c
  | None => false
  end.

Definition receiver_of (h : chans) (ch : chan) : option receiver :=
  rcv <$> cells h !! ch.

(** Firing the signal of a granted entry: the send, then the close. *)
Definition fire (ch : chan) : M chans unit := send ch ;; close ch.

(** The channel [ch] has been made and is not closed. *)
Definition open_at (cs : list cell) (ch : chan) : Prop :=
  exists c, cs !! ch = Some c /\ closed c = false.

End Chan.

(** The cases of the [select] statements of both gates. *)
Inductive select_case : Type :=
| CaseDone                  (* <-ch, <-w.Done *)
| CaseTimer                 (* <-time.After(..), <-timer.C *)
| CaseCtx                   (* <-ctx.Done() *)
| CaseTicker (ctx_done : bool).
    (* <-ticker.C, with whether ctx.Done() is ready at that moment *)

(** ** Package limiter: the FIFO gate *)

Module limiter.
Import Chan.

Record waiter : Type := mkWaiter { done : chan }.

Record Limiter : Type := mkLimiter {
  count : Z;
  limit : Z;
  mu : bool;                  (* sync.Mutex: true while held *)
  waitList : list waiter;     (* list.List, front first *)
  timeout : option Z          (* *int, nil as None *)
}.

(** A gate together with the channels of its wait entries. *)
Record world : Type := mkWorld { gate : Limiter; heap : chans }.

Definition Option : Type := Limiter -> Limiter.

Definition New (limit : Z) (options : list Option) : Limiter :=
  fold_left (fun l o => o l) options (mkLimiter 0 limit false [] None).

Definition WithTimeout (timeout : Z) : Option :=
  fun l => mkLimiter (count l) (limit l) (mu l) (waitList l) (Some timeout).

Definition start (l : Limiter) : world := mkWorld l Chan.empty.

Definition set_count (c : Z) (w : world) : world :=
  let l := gate w in
  mkWorld (mkLimiter c (limit l) (mu l) (waitList l) (timeout l)) (heap w).

Definition set_mu (b : bool) (w : world) : world :=
  let l := gate w in
  mkWorld (mkLimiter (count l) (limit l) b (waitList l) (timeout l)) (heap w).

Definition set_waitList (q : list waiter) (w : world) : world :=
  let l := gate w in
  mkWorld (mkLimiter (count l) (limit l) (mu l) q (timeout l)) (heap w).

(** Run a channel operation on the channels of the world. *)
Definition on_heap {A} (m : M chans A) : M world A :=
  fun w =>
    match m (heap w) with
    | Returns a h => Returns a (mkWorld (gate w) h)
    | Blocked h => Blocked (mkWorld (gate w) h)
    | Panic h => Panic (mkWorld (gate w) h)
    end.

(** [l.mu.Lock()] blocks while the mutex is held. *)
Definition Lock : M world unit :=
  fun w => if mu (gate w) then Blocked w else Returns tt (set_mu true w).

Definition Unlock : M world unit := modify (set_mu false).

(** The loop of [removeWaiter]: the wait list without its first entry
    whose channel is [ch], if there is one. *)
Fixpoint remove_first (ch : chan) (q : list waiter) : option (list waiter) :=
  match q with
  | [] => None
  | w :: q' =>
      if Nat.eqb (done w) ch then Some q'
      else match remove_first ch q' with
           | Some r => Some (w :: r)
           | None => None
           end
  end.

Definition removeWaiter (ch : chan) : M world unit :=
  Lock ;;
  (w <- get ;;
   match remove_first ch (waitList (gate w)) with
   | Some q =>
       on_heap (close ch) ;;
       modify (set_waitList q) ;;
       w' <- get ;;
       modify (set_count (Go.add (count (gate w')) 1))
   | None => ret tt
   end) ;;
  Unlock.

(** [proceed]: the Go result [(true, nil)] is [None] and [(false, ch)]
    is [Some ch]. *)
Definition proceed : M world (option chan) :=
  Lock ;;
  defer (set_mu false)
    (w <- get ;;
     if count (gate w) <? limit (gate w) then
       modify (set_count (Go.add (count (gate w)) 1)) ;;
       ret None
     else
       ch <- on_heap make ;;
       w' <- get ;;
       modify (set_waitList (waitList (gate w') ++ [mkWaiter ch])) ;;
       ret (Some ch)).

Definition Finish : M world unit :=
  Lock ;;
  defer (set_mu false)
    (w <- get ;;
     modify (set_count (Go.sub (count (gate w)) 1)) ;;
     w' <- get ;;
     match waitList (gate w') with
     | [] => ret tt
     | first :: rest =>
         modify (set_waitList rest) ;;
         on_heap (send (done first)) ;;
         on_heap (close (done first))
     end).

(** The two selects of [Wait], resolved by the case [c] that fires.  A
    case the select does not have never fires: the goroutine stays
    suspended. *)
Definition Wait_select (c : select_case) (ch : chan) : M world unit :=
  w <- get ;;
  match timeout (gate w) with
  | Some _ =>
      match c with
      | CaseDone => on_heap (await ch)
      | CaseTimer => on_heap (leave ch) ;; removeWaiter ch
      | CaseCtx => on_heap (leave ch)
      | CaseTicker _ => Blocked
      end
  | None =>
      match c with
      | CaseDone => on_heap (await ch)
      | CaseCtx => on_heap (leave ch) ;; removeWaiter ch
      | _ => Blocked
      end
  end.

Definition Wait (c : select_case) : M world unit :=
  r <- proceed ;;
  match r with
  | None => ret tt
  | Some ch => Wait_select c ch
  end.

Definition waitListSize : M world nat :=
  Lock ;;
  defer (set_mu false) (w <- get ;; ret (length (waitList (gate w)))).

(** *** Sequences of calls

    A sequence of acquire and release calls without cancellation or
    timeout: an acquire runs [proceed] and, when queued, stays in its
    select until the signal comes; a release runs [Finish]. *)

Inductive call : Type := Acquire | Release.

Fixpoint run (cs : list call) : M world (list (option chan)) :=
  match cs with
  | [] => ret []
  | Acquire :: cs' => r <- proceed ;; rs <- run cs' ;; ret (r :: rs)
  | Release :: cs' => Finish ;; run cs'
  end.

Definition fast_paths (rs : list (option chan)) : nat :=
  length (List.filter (fun r => match r with None => true | Some _ => false end) rs).

Definition releases (cs : list call) : nat :=
  length (List.filter (fun c => match c with Release => true | Acquire => false end) cs).

(** The callers inside the gate after the calls [cs]: those admitted on
    the fast path or by a delivered signal, less those that released. *)
Definition inside (cs : list call) (rs : list (option chan)) (w : world) : Z :=
  Z.of_nat (fast_paths rs) + Z.of_nat (length (delivered (heap w)))
  - Z.of_nat (releases cs).

Fixpoint acquire_n (n : nat) : M world (list (option chan)) :=
  match n with
  | O => ret []
  | S n' => r <- proceed ;; rs <- acquire_n n' ;; ret (r :: rs)
  end.

(** *** Schedules

    What the goroutines that share a gate do, one step after the other:
    a caller arrives and runs [proceed]; the select of the caller that
    waits on [ch] takes the case [c]; a caller runs [Finish].  A step
    that blocks parks its goroutine where it is and the others go on. *)

Inductive action : Type :=
| Arrives
| Resolves (c : select_case) (ch : chan)
| Releases.

Definition act (a : action) : M world unit :=
  match a with
  | Arrives => proceed ;; ret tt
  | Resolves c ch => Wait_select c ch
  | Releases => Finish
  end.

Fixpoint exec (acts : list action) : M world unit :=
  fun w =>
    match acts with
    | [] => Returns tt w
    | a :: acts' =>
        match act a w with
        | Returns _ w' => exec acts' w'
        | Blocked w' => exec acts' w'
        | Panic w' => Panic w'
        end
    end.

Fixpoint release_n (n : nat) : M world unit :=
  match n with
  | O => ret tt
  | S n' => Finish ;; release_n n'
  end.

Definition queued (w : world) : list chan := map done (waitList (gate w)).

(** Well-formed states of the FIFO gate: the channels of the wait list
    are distinct, and a channel is in the wait list exactly when it has
    been made and is not closed. *)
Definition wf (w : world) : Prop :=
  NoDup (queued w)
  /\ forall ch, In ch (queued w) <-> open_at (cells (heap w)) ch.

(** Well-formed states between calls when nobody is cancelled or timed
    out: the mutex is free and every queued caller is in its select. *)
Definition calm (w : world) : Prop :=
  wf w
  /\ mu (gate w) = false
  /\ forall ch, In ch (queued w) ->
       cells (heap w) !! ch = Some (mkCell false Listening).

End limiter.

(** ** Package queue: the priority wait queue *)

Module queue.
Import Chan.

(** A [*queue.Item] is the index of the item among the allocated items. *)
Definition handle : Type := nat.

(** Modelled from the spec: the type [queue.Item] is not among the
    sources; the gate reads and writes its fields [Priority] and [Done].
    [sequence] is the entry's arrival order, the tie-break of the
    ordering key ("monotonically increasing arrival order, used only as
    a tie-break; immutable"). *)
Record Item : Type := mkItem { Priority : Z; Done : chan; sequence : nat }.

(** Modelled from the spec: the type [queue.PriorityQueue] is not among
    the sources.  The queue holds the pending entries and the next
    arrival sequence number. *)
Record PriorityQueue : Type := mkQueue { entries : list handle; arrivals : nat }.

Definition empty : PriorityQueue := mkQueue [] 0.

(** Modelled from the spec: the ordering key of the queue, "higher
    priority first; ties broken by lower sequence first (earlier arrival
    wins)". *)
Definition before (a b : Item) : bool :=
  (Priority b <? Priority a)
  || ((Priority a =? Priority b) && (sequence a <? sequence b)%nat).

Definition before_at (items : list Item) (a b : handle) : bool :=
  match items !! a, items !! b with
  | Some x, Some y => before x y
  | _, _ => false
  end.

(** Modelled from the spec: [Len], "current size". *)
Definition Len (q : PriorityQueue) : nat := length (entries q).

(** Modelled from the spec: [Push] ([insert]) adds the entry and stamps
    it with the next arrival sequence number. *)
Definition Push (h : handle) (q : PriorityQueue) (items : list Item)
  : PriorityQueue * list Item :=
  (mkQueue (entries q ++ [h]) (S (arrivals q)),
   match items !! h with
   | Some it => <[h := mkItem (Priority it) (Done it) (arrivals q)]> items
   | None => items
   end).

(** The highest-ordered entry of a list of entries. *)
Fixpoint best (items : list Item) (es : list handle) : option handle :=
  match es with
  | [] => None
  | h :: es' =>
      match best items es' with
      | None => Some h
      | Some b => if before_at items b h then Some b else Some h
      end
  end.

Fixpoint remove_entry (h : handle) (es : list handle) : list handle :=
  match es with
  | [] => []
  | e :: es' => if Nat.eqb e h then es' else e :: remove_entry h es'
  end.

(** Modelled from the spec: [Pop] ([pop_best]) "removes and returns the
    highest-ordered entry, or indicates empty". *)
Definition Pop (q : PriorityQueue) (items : list Item)
  : option (handle * PriorityQueue) :=
  match best items (entries q) with
  | Some b => Some (b, mkQueue (remove_entry b (entries q)) (arrivals q))
  | None => None
  end.

Definition queued (h : handle) (q : PriorityQueue) : bool :=
  existsb (Nat.eqb h) (entries q).

(** Modelled from the spec: [Update] ([promote]) "updates an entry's
    priority in place"; "promotion takes effect only if the entry is
    still queued (graceful no-op otherwise)". *)
Definition Update (h : handle) (priority : Z) (q : PriorityQueue)
                  (items : list Item) : list Item :=
  if queued h q then
    match items !! h with
    | Some it => <[h := mkItem priority (Done it) (sequence it)]> items
    | None => items
    end
  else items.

(** Modelled from the spec: [heap.Remove] at [GetIndex] of the entry
    ([remove]) "removes an arbitrary still-present entry"; "a no-op /
    reported as not found if the handle was already removed". *)
Definition Remove (h : handle) (q : PriorityQueue) : PriorityQueue :=
  mkQueue (remove_entry h (entries q)) (arrivals q).

(** The entries in the order in which [n] calls of [Pop] return them. *)
Fixpoint drain_order (items : list Item) (n : nat) (es : list handle)
  : list handle :=
  match n with
  | O => []
  | S n' =>
      match best items es with
      | None => []
      | Some b => b :: drain_order items n' (remove_entry b es)
      end
  end.

End queue.

(** ** Package priority: the priority gate *)

Module priority.
Import Chan.

Definition PriorityValue : Type := Z.

Definition Low : PriorityValue := 1.
Definition Medium : PriorityValue := 2.
Definition MediumHigh : PriorityValue := 3.
Definition High : PriorityValue := 4.

Record PriorityLimiter : Type := mkLimiter {
  count : Z;
  limit : Z;
  mu : bool;
  waitList : queue.PriorityQueue;
  dynamicPeriod : option Z;
  timeout : option Z
}.

(** A gate, the items its callers allocated, and their channels. *)
Record world : Type := mkWorld {
  gate : PriorityLimiter;
  items : list queue.Item;
  heap : chans
}.

Definition Option : Type := PriorityLimiter -> PriorityLimiter.

Definition NewLimiter (limit : Z) (options : list Option) : PriorityLimiter :=
  fold_left (fun nl o => o nl) options
            (mkLimiter 0 limit false queue.empty None None).

Definition WithDynamicPriority (dynamicPeriod : Z) : Option :=
  fun p => mkLimiter (count p) (limit p) (mu p) (waitList p)
                     (Some dynamicPeriod) (timeout p).

Definition WithTimeout (timeout : Z) : Option :=
  fun p => mkLimiter (count p) (limit p) (mu p) (waitList p)
                     (dynamicPeriod p) (Some timeout).

Definition start (p : PriorityLimiter) : world := mkWorld p [] Chan.empty.

Definition set_count (c : Z) (w : world) : world :=
  let p := gate w in
  mkWorld (mkLimiter c (limit p) (mu p) (waitList p) (dynamicPeriod p) (timeout p))
          (items w) (heap w).

Definition set_mu (b : bool) (w : world) : world :=
  let p := gate w in
  mkWorld (mkLimiter (count p) (limit p) b (waitList p) (dynamicPeriod p) (timeout p))
          (items w) (heap w).

Definition set_queue (q : queue.PriorityQueue) (its : list queue.Item)
                     (w : world) : world :=
  let p := gate w in
  mkWorld (mkLimiter (count p) (limit p) (mu p) q (dynamicPeriod p) (timeout p))
          its (heap w).

Definition on_heap {A} (m : M chans A) : M world A :=
  fun w =>
    match m (heap w) with
    | Returns a h => Returns a (mkWorld (gate w) (items w) h)
    | Blocked h => Blocked (mkWorld (gate w) (items w) h)
    | Panic h => Panic (mkWorld (gate w) (items w) h)
    end.

Definition Lock : M world unit :=
  fun w => if mu (gate w) then Blocked w else Returns tt (set_mu true w).

Definition Unlock : M world unit := modify (set_mu false).

(** Reading a field through [w *queue.Item]; a pointer to no item
    panics as a nil pointer does. *)
Definition item (h : queue.handle) : M world queue.Item :=
  fun w =>
    match items w !! h with
    | Some it => Returns it w
    | None => Panic w
    end.

Definition removeWaiter (h : queue.handle) : M world unit :=
  Lock ;;
  modify (fun w => set_queue (queue.Remove h (waitList (gate w))) (items w) w) ;;
  w <- get ;;
  modify (set_count (Go.add (count (gate w)) 1)) ;;
  it <- item h ;;
  on_heap (close (queue.Done it)) ;;
  Unlock.

(** [proceed]: the Go result [(true, nil)] is [None] and [(false, w)] is
    [Some w]. *)
Definition proceed (priority : PriorityValue) : M world (option queue.handle) :=
  Lock ;;
  defer (set_mu false)
    (w <- get ;;
     if count (gate w) <? limit (gate w) then
       modify (set_count (Go.add (count (gate w)) 1)) ;;
       ret None
     else
       ch <- on_heap make ;;
       w' <- get ;;
       let h := length (items w') in
       let its := items w' ++ [queue.mkItem priority ch 0] in
       let '(q, its') := queue.Push h (waitList (gate w')) its in
       modify (set_queue q its') ;;
       ret (Some h)).

Definition Finish : M world unit :=
  Lock ;;
  defer (set_mu false)
    (w <- get ;;
     modify (set_count (Go.sub (count (gate w)) 1)) ;;
     w' <- get ;;
     if Nat.eqb (queue.Len (waitList (gate w'))) 0 then ret tt
     else
       match queue.Pop (waitList (gate w')) (items w') with
       | None => Panic
       | Some (ele, q) =>
           modify (set_queue q (items w')) ;;
           it <- item ele ;;
           on_heap (send (queue.Done it)) ;;
           on_heap (close (queue.Done it))
       end).

(** The body of the case [<-ticker.C] after the re-check, in both loops. *)
Definition promote (h : queue.handle) : M world unit :=
  Lock ;;
  (it <- item h ;;
   if queue.Priority it <? High then
     let currentPriority := queue.Priority it in
     modify (fun w =>
       set_queue (waitList (gate w))
                 (queue.Update h (Go.add currentPriority 1)
                               (waitList (gate w)) (items w)) w)
   else ret tt) ;;
  Unlock.

Definition abandon (h : queue.handle) : M world unit :=
  it <- item h ;; on_heap (leave (queue.Done it)).

Definition signalled (h : queue.handle) : M world unit :=
  it <- item h ;; on_heap (await (queue.Done it)).

Definition resume (h : queue.handle) : M world unit :=
  it <- item h ;; on_heap (enter (queue.Done it)).

(** The loops take the cases that fire, in order; when none is left the
    goroutine is still suspended in its select.  Taking a case other
    than [<-w.Done] takes the goroutine out of its select: it is back in
    it only when it has come round the loop. *)
Fixpoint dynamicPriorityAndTimeout_loop (cs : list select_case)
                                        (h : queue.handle) : M world unit :=
  match cs with
  | [] => Blocked
  | CaseDone :: _ => signalled h
  | CaseCtx :: _ => abandon h ;; removeWaiter h
  | CaseTimer :: _ => abandon h ;; removeWaiter h
  | CaseTicker ctx_done :: cs' =>
      abandon h ;;
      (if ctx_done then removeWaiter h
       else (promote h ;; resume h ;; dynamicPriorityAndTimeout_loop cs' h))
  end.

(** The ticker and the timer are made before the loop; [*p.dynamicPeriod]
    and [*p.timeout] panic on a nil pointer, [time.NewTicker] on a
    period that is not positive. *)
Definition dynamicPriorityAndTimeout (cs : list select_case) (h : queue.handle)
  : M world unit :=
  w <- get ;;
  match dynamicPeriod (gate w) with
  | None => Panic
  | Some d =>
      time.NewTicker (time.milliseconds d) ;;
      match timeout (gate w) with
      | None => Panic
      | Some _ => dynamicPriorityAndTimeout_loop cs h
      end
  end.

Fixpoint handleDynamicPriority_loop (cs : list select_case)
                                    (h : queue.handle) : M world unit :=
  match cs with
  | [] => Blocked
  | CaseDone :: _ => signalled h
  | CaseTicker _ :: cs' =>
      abandon h ;; promote h ;; resume h ;; handleDynamicPriority_loop cs' h
  | CaseCtx :: _ => abandon h ;; removeWaiter h
  | CaseTimer :: _ => Blocked
  end.

Definition handleDynamicPriority (cs : list select_case) (h : queue.handle)
  : M world unit :=
  w <- get ;;
  match dynamicPeriod (gate w) with
  | None => Panic
  | Some d =>
      time.NewTicker (time.milliseconds d) ;;
      handleDynamicPriority_loop cs h
  end.

Definition handleTimeout (cs : list select_case) (h : queue.handle)
  : M world unit :=
  match cs with
  | CaseDone :: _ => signalled h
  | CaseTimer :: _ => abandon h ;; removeWaiter h
  | CaseCtx :: _ => abandon h ;; removeWaiter h
  | _ => Blocked
  end.

Definition Wait (cs : list select_case) (priority : PriorityValue)
  : M world unit :=
  r <- proceed priority ;;
  match r with
  | None => ret tt
  | Some h =>
      w <- get ;;
      match dynamicPeriod (gate w), timeout (gate w) with
      | None, None =>
          match cs with
          | CaseDone :: _ => signalled h
          | CaseCtx :: _ => abandon h ;; removeWaiter h
          | _ => Blocked
          end
      | Some _, Some _ => dynamicPriorityAndTimeout cs h
      | None, Some _ => handleTimeout cs h
      | Some _, None => handleDynamicPriority cs h
      end
  end.

(** What [Wait] does for a caller that [proceed] has queued under the
    handle [h]: the select, or the loop, that the options of the gate
    choose. *)
Definition waits (cs : list select_case) (h : queue.handle) : M world unit :=
  w <- get ;;
  match dynamicPeriod (gate w), timeout (gate w) with
  | None, None =>
      match cs with
      | CaseDone :: _ => signalled h
      | CaseCtx :: _ => abandon h ;; removeWaiter h
      | _ => Blocked
      end
  | Some _, Some _ => dynamicPriorityAndTimeout cs h
  | None, Some _ => handleTimeout cs h
  | Some _, None => handleDynamicPriority cs h
  end.

Definition waitListSize : M world nat :=
  Lock ;;
  defer (set_mu false) (w <- get ;; ret (queue.Len (waitList (gate w)))).

(** *** Sequences of calls *)

Inductive call : Type := Acquire (priority : PriorityValue) | Release.

Fixpoint run (cs : list call) : M world (list (option queue.handle)) :=
  match cs with
  | [] => ret []
  | Acquire p :: cs' => r <- proceed p ;; rs <- run cs' ;; ret (r :: rs)
  | Release :: cs' => Finish ;; run cs'
  end.

Definition fast_paths (rs : list (option queue.handle)) : nat :=
  length (List.filter (fun r => match r with None => true | Some _ => false end) rs).

Definition releases (cs : list call) : nat :=
  length (List.filter (fun c => match c with Release => true | Acquire _ => false end) cs).

Definition inside (cs : list call) (rs : list (option queue.handle))
                  (w : world) : Z :=
  Z.of_nat (fast_paths rs) + Z.of_nat (length (delivered (heap w)))
  - Z.of_nat (releases cs).

Fixpoint acquire_n (n : nat) (p : PriorityValue)
  : M world (list (option queue.handle)) :=
  match n with
  | O => ret []
  | S n' => r <- proceed p ;; rs <- acquire_n n' p ;; ret (r :: rs)
  end.

(** Callers arriving with the priorities [ps], in that order. *)
Fixpoint enqueue (ps : list PriorityValue) : M world unit :=
  match ps with
  | [] => ret tt
  | p :: ps' => proceed p ;; enqueue ps'
  end.

Fixpoint release (n : nat) : M world unit :=
  match n with
  | O => ret tt
  | S n' => Finish ;; release n'
  end.

(** The [k]-th caller queued at a gate that had no wait entry before:
    its item, its channel and its arrival sequence are all the [k]-th. *)
Definition arrival (k : nat) (p : PriorityValue) : queue.Item :=
  queue.mkItem p k k.

(** The order of admission the priorities [ps] of the queued callers
    prescribe: higher priority first, earlier arrival first among equal
    priorities. *)
Definition admitted_before (ps : list PriorityValue) (i j : nat) : Prop :=
  match ps !! i, ps !! j with
  | Some p, Some q => q < p \/ (p = q /\ (i < j)%nat)
  | _, _ => False
  end.

(** The gate of limit 1 with one caller inside and the callers with the
    priorities [qs] queued behind it, none of them granted or gone. *)
Definition queued_behind (qs : list PriorityValue) : world :=
  mkWorld
    (mkLimiter 1 1 false (queue.mkQueue (seq 0 (length qs)) (length qs))
               None None)
    (imap arrival qs)
    (mkChans (repeat (mkCell false Listening) (length qs)) []).

(** The same gate while releases empty its queue: the entries [es] are
    still queued, their receivers still in their selects. *)
Definition draining (ps : list PriorityValue) (es : list queue.handle)
                    (w : world) : Prop :=
  mu (gate w) = false
  /\ queue.entries (waitList (gate w)) = es
  /\ items w = imap arrival ps
  /\ NoDup es
  /\ forall e, In e es ->
       (e < length ps)%nat
       /\ cells (heap w) !! e = Some (mkCell false Listening).

(** States of the priority gate between calls when nobody is cancelled
    or timed out: the mutex is free, the queued entries are distinct
    items with distinct channels, and every queued caller is in its
    select. *)
Definition calm (w : world) : Prop :=
  mu (gate w) = false
  /\ NoDup (queue.entries (waitList (gate w)))
  /\ (forall e, In e (queue.entries (waitList (gate w))) ->
        exists it, items w !! e = Some it
                   /\ cells (heap w) !! queue.Done it
                      = Some (mkCell false Listening))
  /\ (forall e e' it it',
        In e (queue.entries (waitList (gate w))) ->
        In e' (queue.entries (waitList (gate w))) ->
        items w !! e = Some it -> items w !! e' = Some it' ->
        queue.Done it = queue.Done it' -> e = e').

End priority.

(** ** Sample states, reached through the calls of the gates *)

Module sample.
Import Chan.

(** A FIFO gate of limit 1: one caller inside, one queued on channel 0. *)
Definition fifo_queued : limiter.world :=
  final ((limiter.proceed ;; limiter.proceed)
           (limiter.start (limiter.New 1 []))).

(** The same, after the select of the queued caller took the case
    [<-ctx.Done()] and before that caller gets the mutex. *)
Definition fifo_abandoned : limiter.world :=
  final (limiter.on_heap (leave 0%nat) fifo_queued).

(** A FIFO gate of limit 1 with a timeout of 5 ms: one caller inside,
    one queued on channel 0, after the select of the queued caller took
    the case of the timer and before that caller gets the mutex. *)
Definition fifo_timed_out : limiter.world :=
  final ((limiter.proceed ;; limiter.proceed ;; limiter.on_heap (leave 0%nat))
           (limiter.start (limiter.New 1 [limiter.WithTimeout 5]))).

(** A priority gate of limit 1: one caller inside and three queued, at
    the priorities Low, Medium and High in that order of arrival. *)
Definition prio_queued : priority.world :=
  final (priority.enqueue
           [priority.High; priority.Low; priority.Medium; priority.High]
           (priority.start (priority.NewLimiter 1 []))).

(** The same, after the select of the High caller (item 2) left. *)
Definition prio_abandoned : priority.world :=
  final (priority.abandon 2%nat prio_queued).

(** A priority gate with aging: one caller inside, one queued at Low. *)
Definition aging_queued : priority.world :=
  final (priority.enqueue [priority.High; priority.Low]
           (priority.start
              (priority.NewLimiter 1 [priority.WithDynamicPriority 3]))).

(** The same with aging and a timeout. *)
Definition aging_timeout_queued : priority.world :=
  final (priority.enqueue [priority.High; priority.Low]
           (priority.start
              (priority.NewLimiter 1 [priority.WithDynamicPriority 3;
                                      priority.WithTimeout 50]))).

(** Fresh gates of limit 2, and the same after a release nobody owed. *)
Definition fifo_fresh : limiter.world := limiter.start (limiter.New 2 []).
Definition fifo_underflow : limiter.world := final (limiter.Finish fifo_fresh).
Definition prio_fresh : priority.world :=
  priority.start (priority.NewLimiter 2 []).
Definition prio_underflow : priority.world := final (priority.Finish prio_fresh).

(** Gates of limit 1 with one caller inside: aging only, and aging with
    a timeout. *)
Definition aging_full : priority.world :=
  final (priority.proceed priority.High
           (priority.start
              (priority.NewLimiter 1 [priority.WithDynamicPriority 3]))).
Definition aging_timeout_full : priority.world :=
  final (priority.proceed priority.High
           (priority.start
              (priority.NewLimiter 1 [priority.WithDynamicPriority 3;
                                      priority.WithTimeout 50]))).

(** A gate whose aging period is 0 ms: one caller inside, one queued. *)
Definition aging_zero_queued : priority.world :=
  final (priority.enqueue [priority.High; priority.Low]
           (priority.start
              (priority.NewLimiter 1 [priority.WithDynamicPriority 0]))).

End sample.

(** * Properties *)

Import Chan.

(** ** Go's wrapping arithmetic inside the range of [int] *)

Lemma wrap_is_int z : Go.is_int z -> Go.wrap z = z.
Proof.
  unfold Go.is_int, Go.wrap, Go.int_min, Go.int_max. intros H.
  rewrite Z.mod_small; lia.
Qed.

Lemma add_one_exact c : Go.int_min <= c < Go.int_max -> Go.add c 1 = c + 1.
Proof.
  intros H. unfold Go.add. apply wrap_is_int. unfold Go.is_int. lia.
Qed.

Lemma sub_one_exact c : Go.int_min < c <= Go.int_max -> Go.sub c 1 = c - 1.
Proof.
  intros H. unfold Go.sub. apply wrap_is_int. unfold Go.is_int. lia.
Qed.

(** ** The hand-off of a release and the capacity bound *)

(** C1: at a gate of limit 1 the calls acquire, acquire, release, acquire
    leave two callers inside the gate, and the two releases that follow
    leave [count] at -1; this holds for the FIFO gate and for the
    priority gate. *)
Theorem handoff_admits_beyond_limit :
  (let cs := [limiter.Acquire; limiter.Acquire; limiter.Release; limiter.Acquire] in
   exists w,
     limiter.run cs (limiter.start (limiter.New 1 []))
       = Returns [None; Some 0%nat; None] w
     /\ delivered (limiter.heap w) = [0%nat]
     /\ limiter.count (limiter.gate w) = 1
     /\ limiter.inside cs [None; Some 0%nat; None] w = 2
     /\ limiter.limit (limiter.gate w) = 1
     /\ exists w',
          limiter.run [limiter.Release; limiter.Release] w = Returns [] w'
          /\ limiter.count (limiter.gate w') = -1)
  /\
  (let cs := [priority.Acquire priority.High; priority.Acquire priority.Low;
              priority.Release; priority.Acquire priority.Medium] in
   exists w,
     priority.run cs (priority.start (priority.NewLimiter 1 []))
       = Returns [None; Some 0%nat; None] w
     /\ delivered (priority.heap w) = [0%nat]
     /\ priority.count (priority.gate w) = 1
     /\ priority.inside cs [None; Some 0%nat; None] w = 2
     /\ priority.limit (priority.gate w) = 1
     /\ exists w',
          priority.run [priority.Release; priority.Release] w = Returns [] w'
          /\ priority.count (priority.gate w') = -1).
Proof.
  split; cbv zeta.
  - eexists. split; [vm_compute; reflexivity|].
    repeat split. eexists. split; [vm_compute; reflexivity|]. reflexivity.
  - eexists. split; [vm_compute; reflexivity|].
    repeat split. eexists. split; [vm_compute; reflexivity|]. reflexivity.
Qed.

(** ** Removing an entry that is no longer queued *)

Lemma remove_first_absent ch q :
  (forall w, In w q -> limiter.done w <> ch) -> limiter.remove_first ch q = None.
Proof.
  induction q as [|w q IH]; intros H; simpl; [reflexivity|].
  destruct (Nat.eqb_spec (limiter.done w) ch) as [E|_].
  - exfalso. apply (H w); [left; reflexivity | exact E].
  - rewrite IH; [reflexivity|]. intros w' Hw'. apply H. right. exact Hw'.
Qed.

(** In the FIFO gate the scan finds nothing and the call changes nothing. *)
Lemma limiter_removeWaiter_absent (w : limiter.world) ch :
  limiter.mu (limiter.gate w) = false ->
  limiter.remove_first ch (limiter.waitList (limiter.gate w)) = None ->
  limiter.removeWaiter ch w = Returns tt w.
Proof.
  destruct w as [[c l m q t] h]; simpl; intros -> Hq.
  unfold limiter.removeWaiter, limiter.Lock, limiter.Unlock, bind, get, modify, ret.
  simpl. rewrite Hq. reflexivity.
Qed.

(** C2: a removal that comes after a release has popped the entry
    never returns.  At both gates (limit 1, one caller inside, one
    queued), the select of the queued caller takes the cancel case and,
    before that caller gets the mutex, the caller inside releases: the
    release pops the entry and blocks in the send, because the receiver
    has left its select, and keeps the mutex.  The entry is then no
    longer queued and its signal has not fired; the caller's
    [removeWaiter] blocks at the mutex, and so does every later call on
    the gate. *)
Theorem removal_after_release_never_returns :
  (limiter.waitList (limiter.gate sample.fifo_abandoned) = [limiter.mkWaiter 0%nat]
   /\ receiver_of (limiter.heap sample.fifo_abandoned) 0%nat = Some Left
   /\ limiter.mu (limiter.gate sample.fifo_abandoned) = false
   /\ exists wb,
        limiter.Finish sample.fifo_abandoned = Blocked wb
        /\ limiter.waitList (limiter.gate wb) = []
        /\ fired (limiter.heap wb) 0%nat = false
        /\ limiter.removeWaiter 0%nat wb = Blocked wb
        /\ limiter.Finish wb = Blocked wb
        /\ limiter.proceed wb = Blocked wb)
  /\
  (queue.queued 2%nat (priority.waitList (priority.gate sample.prio_abandoned))
   = true
   /\ receiver_of (priority.heap sample.prio_abandoned) 2%nat = Some Left
   /\ priority.mu (priority.gate sample.prio_abandoned) = false
   /\ exists wb,
        priority.Finish sample.prio_abandoned = Blocked wb
        /\ queue.queued 2%nat (priority.waitList (priority.gate wb)) = false
        /\ fired (priority.heap wb) 2%nat = false
        /\ priority.removeWaiter 2%nat wb = Blocked wb
        /\ priority.Finish wb = Blocked wb
        /\ priority.proceed priority.High wb = Blocked wb).
Proof.
  split.
  - do 3 (split; [reflexivity|]). eexists.
    split; [vm_compute; reflexivity|]. repeat split.
  - do 3 (split; [reflexivity|]). eexists.
    split; [vm_compute; reflexivity|]. repeat split.
Qed.

(** ** Cancellation at a FIFO gate with a timeout *)

(** C3: at a FIFO gate with a timeout, the entry of a queued caller that
    is cancelled stays queued with its signal not fired; the release
    that pops it blocks in the send, so the signal never fires, and the
    mutex stays held. *)
Theorem cancelled_entry_signal_never_fires :
  exists w wb,
    (limiter.Wait CaseDone ;; limiter.Wait CaseCtx)
      (limiter.start (limiter.New 1 [limiter.WithTimeout 5])) = Returns tt w
    /\ fired (limiter.heap w) 0%nat = false
    /\ receiver_of (limiter.heap w) 0%nat = Some Left
    /\ limiter.Finish w = Blocked wb
    /\ fired (limiter.heap wb) 0%nat = false
    /\ delivered (limiter.heap wb) = []
    /\ limiter.waitList (limiter.gate wb) = []
    /\ limiter.Finish wb = Blocked wb
    /\ limiter.removeWaiter 0%nat wb = Blocked wb.
Proof.
  do 2 eexists. split; [vm_compute; reflexivity|].
  do 3 (split; [vm_compute; reflexivity|]).
  repeat split.
Qed.

(** C4: a queued caller of the FIFO gate that is cancelled removes its
    entry when the gate has no timeout, and leaves it in the wait list
    when the gate has one; the timeout itself does remove the entry. *)
Theorem cancel_with_timeout_keeps_entry :
  (exists w,
     (limiter.Wait CaseDone ;; limiter.Wait CaseCtx)
       (limiter.start (limiter.New 1 [limiter.WithTimeout 5])) = Returns tt w
     /\ limiter.waitList (limiter.gate w) = [limiter.mkWaiter 0%nat]
     /\ limiter.count (limiter.gate w) = 1)
  /\ (exists w,
     (limiter.Wait CaseDone ;; limiter.Wait CaseCtx)
       (limiter.start (limiter.New 1 [])) = Returns tt w
     /\ limiter.waitList (limiter.gate w) = []
     /\ limiter.count (limiter.gate w) = 2)
  /\ (exists w,
     (limiter.Wait CaseDone ;; limiter.Wait CaseTimer)
       (limiter.start (limiter.New 1 [limiter.WithTimeout 5])) = Returns tt w
     /\ limiter.waitList (limiter.gate w) = []
     /\ limiter.count (limiter.gate w) = 2).
Proof.
  repeat split; eexists; (split; [vm_compute; reflexivity|]); split; reflexivity.
Qed.

(** ** Firing a signal *)

Lemma fire_listening h ch :
  cells h !! ch = Some (mkCell false Listening) ->
  fire ch h = Returns tt (mkChans (<[ch := mkCell true Received]> (cells h))
                                  (delivered h ++ [ch])).
Proof.
  intros H. unfold fire, bind, send, close. rewrite H. simpl.
  rewrite list_lookup_insert_eq by (eapply lookup_lt_Some; exact H).
  simpl. rewrite list_insert_insert_eq. reflexivity.
Qed.

Lemma fire_abandoned h ch c :
  cells h !! ch = Some c -> closed c = false -> rcv c <> Listening ->
  fire ch h = Blocked h.
Proof.
  intros H Hc Hr. unfold fire, bind, send. rewrite H, Hc.
  destruct (rcv c); [congruence | reflexivity | reflexivity].
Qed.

(** ** What a release does, step by step *)

Lemma limiter_Finish_eq (w : limiter.world) :
  limiter.mu (limiter.gate w) = false ->
  limiter.Finish w =
    let w1 := limiter.set_count (Go.sub (limiter.count (limiter.gate w)) 1) w in
    match limiter.waitList (limiter.gate w) with
    | [] => Returns tt w1
    | first :: rest =>
        let g := limiter.gate (limiter.set_waitList rest w1) in
        match fire (limiter.done first) (limiter.heap w) with
        | Returns _ h => Returns tt (limiter.mkWorld g h)
        | Blocked h => Blocked (limiter.set_mu true (limiter.mkWorld g h))
        | Panic h => Panic (limiter.mkWorld g h)
        end
    end.
Proof.
  destruct w as [[c l m q t] h]; simpl; intros ->.
  unfold limiter.Finish, limiter.Lock, defer, bind, get, modify, ret; simpl.
  destruct q as [|first rest]; simpl; [reflexivity|].
  unfold limiter.on_heap, fire, bind; simpl.
  destruct (send (limiter.done first) h) as [[] h1|h1|h1]; simpl; try reflexivity.
  destruct (close (limiter.done first) h1) as [[] h2|h2|h2]; reflexivity.
Qed.

Lemma priority_Finish_eq (w : priority.world) :
  priority.mu (priority.gate w) = false ->
  priority.Finish w =
    let w1 := priority.set_count (Go.sub (priority.count (priority.gate w)) 1) w in
    match queue.Pop (priority.waitList (priority.gate w)) (priority.items w) with
    | None =>
        if Nat.eqb (queue.Len (priority.waitList (priority.gate w))) 0
        then Returns tt w1 else Panic w1
    | Some (ele, q) =>
        let w2 := priority.set_queue q (priority.items w) w1 in
        match priority.items w !! ele with
        | None => Panic w2
        | Some it =>
            match fire (queue.Done it) (priority.heap w) with
            | Returns _ h =>
                Returns tt (priority.mkWorld (priority.gate w2) (priority.items w) h)
            | Blocked h =>
                Blocked (priority.set_mu true
                  (priority.mkWorld (priority.gate w2) (priority.items w) h))
            | Panic h =>
                Panic (priority.mkWorld (priority.gate w2) (priority.items w) h)
            end
        end
    end.
Proof.
  destruct w as [[c l m [es n] d t] its h]; simpl; intros ->.
  unfold priority.Finish, priority.Lock, defer, bind, get, modify, ret; simpl.
  unfold queue.Pop, queue.Len; simpl.
  destruct es as [|e es]; simpl; [reflexivity|].
  destruct (match queue.best its es with
            | Some b => if queue.before_at its b e then Some b else Some e
            | None => Some e
            end) as [b|] eqn:Hb; simpl; [|reflexivity].
  unfold priority.item; simpl.
  destruct (its !! b) as [it|]; simpl; [|reflexivity].
  unfold priority.on_heap, fire, bind; simpl.
  destruct (send (queue.Done it) h) as [[] h1|h1|h1]; simpl; try reflexivity.
  destruct (close (queue.Done it) h1) as [[] h2|h2|h2]; reflexivity.
Qed.

(** ** The ordering of the priority wait queue *)

Lemma before_asym a b : queue.before a b = true -> queue.before b a = false.
Proof.
  unfold queue.before. intros H.
  apply orb_true_iff in H. apply orb_false_iff.
  destruct H as [H | H].
  - apply Z.ltb_lt in H. split; [apply Z.ltb_ge; lia|].
    apply andb_false_iff. left. apply Z.eqb_neq. lia.
  - apply andb_true_iff in H. destruct H as [H1 H2].
    apply Z.eqb_eq in H1. apply Nat.ltb_lt in H2.
    split; [apply Z.ltb_ge; lia|].
    apply andb_false_iff. right. apply Nat.ltb_ge. lia.
Qed.

Lemma before_false a b :
  queue.before a b = false <->
  queue.Priority a < queue.Priority b
  \/ (queue.Priority a = queue.Priority b
      /\ (queue.sequence b <= queue.sequence a)%nat).
Proof.
  unfold queue.before. rewrite orb_false_iff, andb_false_iff.
  rewrite Z.ltb_ge, Z.eqb_neq, Nat.ltb_ge. lia.
Qed.

Lemma before_true a b :
  queue.before a b = true <->
  queue.Priority b < queue.Priority a
  \/ (queue.Priority a = queue.Priority b
      /\ (queue.sequence a < queue.sequence b)%nat).
Proof.
  unfold queue.before. rewrite orb_true_iff, andb_true_iff.
  rewrite Z.ltb_lt, Z.eqb_eq, Nat.ltb_lt. reflexivity.
Qed.

Lemma before_negtrans a b c :
  queue.before a b = false -> queue.before b c = false ->
  queue.before a c = false.
Proof. rewrite !before_false. lia. Qed.

Lemma before_trans a b c :
  queue.before a b = true -> queue.before b c = true ->
  queue.before a c = true.
Proof. rewrite !before_true. lia. Qed.

Lemma best_None its es : queue.best its es = None -> es = [].
Proof.
  destruct es as [|e es]; simpl; [reflexivity|].
  destruct (queue.best its es) as [b|]; [|discriminate].
  destruct (queue.before_at its b e); discriminate.
Qed.

Lemma best_In its es b : queue.best its es = Some b -> In b es.
Proof.
  revert b. induction es as [|e es IH]; simpl; intros b H; [discriminate|].
  destruct (queue.best its es) as [b'|].
  - destruct (queue.before_at its b' e); inversion H; subst.
    + right. apply IH. reflexivity.
    + left. reflexivity.
  - inversion H. left. reflexivity.
Qed.

(** No entry of the queue is ordered before the one [best] selects. *)
Lemma best_max its es b :
  (forall e, In e es -> is_Some (its !! e)) ->
  queue.best its es = Some b ->
  forall e, In e es -> queue.before_at its e b = false.
Proof.
  revert b. induction es as [|h es IH]; simpl; intros b Hv H e He; [contradiction|].
  assert (Hves : forall e, In e es -> is_Some (its !! e)) by (intros; apply Hv; auto).
  destruct (Hv h (or_introl eq_refl)) as [ih Hih].
  destruct (queue.best its es) as [b'|] eqn:Hb'.
  - specialize (IH b' Hves eq_refl).
    destruct (Hves b' (best_In _ _ _ Hb')) as [ib Hib].
    destruct (queue.before_at its b' h) eqn:Hbh; inversion H; subst b.
    + destruct He as [<- | He]; [|apply IH; exact He].
      unfold queue.before_at in *. rewrite Hih, Hib in *.
      apply before_asym. exact Hbh.
    + destruct He as [<- | He].
      * unfold queue.before_at. rewrite Hih.
        rewrite before_false. right. split; [reflexivity | apply Nat.le_refl].
      * specialize (IH e He). destruct (Hves e He) as [ie Hie].
        unfold queue.before_at in *. rewrite Hie, Hib, Hih in *.
        eapply before_negtrans; eassumption.
  - apply best_None in Hb'. subst es. inversion H; subst b.
    destruct He as [<- | []].
    unfold queue.before_at. rewrite Hih.
    rewrite before_false. right. split; [reflexivity | apply Nat.le_refl].
Qed.

(** Removing an entry keeps the others, in their order. *)
Lemma remove_entry_split b es :
  In b es ->
  exists l1 l2, es = l1 ++ b :: l2 /\ queue.remove_entry b es = l1 ++ l2
                /\ ~ In b l1.
Proof.
  induction es as [|e es IH]; simpl; intros H; [contradiction|].
  destruct (Nat.eqb_spec e b) as [-> | Hne].
  - exists [], es. repeat split. intros [].
  - destruct H as [H | H]; [congruence|].
    destruct (IH H) as (l1 & l2 & -> & Hr & Hn).
    exists (e :: l1), l2. simpl. rewrite Hr. repeat split.
    intros [E | E]; [congruence | exact (Hn E)].
Qed.

Lemma remove_entry_absent b es : ~ In b es -> queue.remove_entry b es = es.
Proof.
  induction es as [|e es IH]; simpl; intros H; [reflexivity|].
  destruct (Nat.eqb_spec e b) as [-> | Hne]; [exfalso; apply H; left; reflexivity|].
  rewrite IH; [reflexivity|]. intros E. apply H. right. exact E.
Qed.

(** ** The release *)



(** ** Releasing to a receiver that has left *)

Lemma limiter_locked (w : limiter.world) :
  limiter.mu (limiter.gate w) = true ->
  limiter.Finish w = Blocked w /\ limiter.proceed w = Blocked w
  /\ forall ch, limiter.removeWaiter ch w = Blocked w.
Proof.
  intros H.
  unfold limiter.Finish, limiter.proceed, limiter.removeWaiter, bind, limiter.Lock.
  rewrite H. repeat split.
Qed.

Lemma priority_locked (w : priority.world) :
  priority.mu (priority.gate w) = true ->
  priority.Finish w = Blocked w
  /\ (forall p, priority.proceed p w = Blocked w)
  /\ (forall h, priority.removeWaiter h w = Blocked w)
  /\ (forall h, priority.promote h w = Blocked w).
Proof.
  intros H.
  unfold priority.Finish, priority.proceed, priority.removeWaiter,
    priority.promote, bind, priority.Lock.
  rewrite H. repeat split.
Qed.

(** C5: a release that pops an entry whose receiver has abandoned it
    blocks in the send and keeps the mutex.  At a FIFO gate with a
    timeout (limit 1) a queued caller is cancelled and returns from
    [Wait] with its entry still queued; the release that follows pops
    the entry, blocks, and every later call blocks at the mutex.  At the
    same gate, when the select of the queued caller has taken the case
    of the timer and the release comes before that caller gets the
    mutex, the release blocks and the caller that timed out blocks at
    the mutex: it does not go on.  The same happens at both gates when
    the select of a queued caller has taken the cancel case and the
    release comes before that caller gets the mutex. *)
Theorem release_blocks_on_abandoned_entry :
  (exists w wb,
     (limiter.Wait CaseDone ;; limiter.Wait CaseCtx)
       (limiter.start (limiter.New 1 [limiter.WithTimeout 5])) = Returns tt w
     /\ limiter.waitList (limiter.gate w) = [limiter.mkWaiter 0%nat]
     /\ receiver_of (limiter.heap w) 0%nat = Some Left
     /\ limiter.Finish w = Blocked wb
     /\ limiter.mu (limiter.gate wb) = true
     /\ limiter.proceed wb = Blocked wb
     /\ limiter.Finish wb = Blocked wb)
  /\
  (exists wb,
     limiter.timeout (limiter.gate sample.fifo_timed_out) = Some 5
     /\ limiter.mu (limiter.gate sample.fifo_timed_out) = false
     /\ limiter.waitList (limiter.gate sample.fifo_timed_out)
        = [limiter.mkWaiter 0%nat]
     /\ receiver_of (limiter.heap sample.fifo_timed_out) 0%nat = Some Left
     /\ limiter.Finish sample.fifo_timed_out = Blocked wb
     /\ limiter.mu (limiter.gate wb) = true
     /\ limiter.removeWaiter 0%nat wb = Blocked wb)
  /\
  (limiter.mu (limiter.gate sample.fifo_abandoned) = false
   /\ limiter.waitList (limiter.gate sample.fifo_abandoned) = [limiter.mkWaiter 0%nat]
   /\ receiver_of (limiter.heap sample.fifo_abandoned) 0%nat = Some Left
   /\ returned (limiter.Finish sample.fifo_abandoned) = false
   /\ limiter.mu (limiter.gate (final (limiter.Finish sample.fifo_abandoned))) = true)
  /\
  (priority.mu (priority.gate sample.prio_abandoned) = false
   /\ queue.best (priority.items sample.prio_abandoned)
        (queue.entries (priority.waitList (priority.gate sample.prio_abandoned)))
      = Some 2%nat
   /\ receiver_of (priority.heap sample.prio_abandoned) 2%nat = Some Left
   /\ returned (priority.Finish sample.prio_abandoned) = false
   /\ priority.mu (priority.gate (final (priority.Finish sample.prio_abandoned))) = true).
Proof.
  split; [|split; [|split]].
  - do 2 eexists. split; [vm_compute; reflexivity|].
    do 2 (split; [reflexivity|]). split; [vm_compute; reflexivity|].
    repeat split.
  - eexists. do 4 (split; [reflexivity|]). split; [vm_compute; reflexivity|].
    split; reflexivity.
  - vm_compute. repeat split.
  - vm_compute. repeat split.
Qed.

(** When a release returns and when it blocks: a release that gets the
    mutex and pops an entry with an open channel returns, the mutex free
    again, when the receiver of the entry is in its select; when the
    receiver has left, the release blocks in the send with the mutex
    held, and every later call on the gate blocks. *)
Lemma release_blocks_unless_receiver_listens :
  (forall (w : limiter.world) first rest c,
     limiter.mu (limiter.gate w) = false ->
     limiter.waitList (limiter.gate w) = first :: rest ->
     cells (limiter.heap w) !! limiter.done first = Some c ->
     closed c = false ->
     (rcv c = Listening ->
      exists w', limiter.Finish w = Returns tt w'
                 /\ limiter.mu (limiter.gate w') = false)
     /\ (rcv c <> Listening ->
         exists w', limiter.Finish w = Blocked w'
                    /\ limiter.mu (limiter.gate w') = true
                    /\ limiter.Finish w' = Blocked w'
                    /\ limiter.proceed w' = Blocked w'
                    /\ forall ch, limiter.removeWaiter ch w' = Blocked w'))
  /\
  (forall (w : priority.world) b q it c,
     priority.mu (priority.gate w) = false ->
     queue.Pop (priority.waitList (priority.gate w)) (priority.items w)
       = Some (b, q) ->
     priority.items w !! b = Some it ->
     cells (priority.heap w) !! queue.Done it = Some c ->
     closed c = false ->
     (rcv c = Listening ->
      exists w', priority.Finish w = Returns tt w'
                 /\ priority.mu (priority.gate w') = false)
     /\ (rcv c <> Listening ->
         exists w', priority.Finish w = Blocked w'
                    /\ priority.mu (priority.gate w') = true
                    /\ priority.Finish w' = Blocked w'
                    /\ (forall p, priority.proceed p w' = Blocked w')
                    /\ forall h, priority.removeWaiter h w' = Blocked w')).
Proof.
  split.
  - intros w first rest c Hmu Hq Hc Hopen.
    rewrite (limiter_Finish_eq w Hmu). cbv zeta. rewrite Hq. split.
    + intros Hr. destruct c as [cl r]; simpl in *; subst cl r.
      rewrite (fire_listening _ _ Hc). eexists. split; [reflexivity|].
      destruct w as [[? ? ? ? ?] ?]; simpl in *. exact Hmu.
    + intros Hr. rewrite (fire_abandoned _ _ _ Hc Hopen Hr).
      eexists. split; [reflexivity|].
      split; [reflexivity|]. apply limiter_locked. reflexivity.
  - intros w b q it c Hmu Hpop Hit Hc Hopen.
    rewrite (priority_Finish_eq w Hmu). cbv zeta. rewrite Hpop, Hit. split.
    + intros Hr. destruct c as [cl r]; simpl in *; subst cl r.
      rewrite (fire_listening _ _ Hc). eexists. split; [reflexivity|].
      destruct w as [[? ? ? ? ? ?] ? ?]; simpl in *. exact Hmu.
    + intros Hr. rewrite (fire_abandoned _ _ _ Hc Hopen Hr).
      eexists. split; [reflexivity|].
      split; [reflexivity|].
      destruct (priority_locked
        (priority.set_mu true
          (priority.mkWorld
             (priority.gate
                (priority.set_queue q (priority.items w)
                   (priority.set_count
                      (Go.sub (priority.count (priority.gate w)) 1) w)))
             (priority.items w) (priority.heap w))) eq_refl)
        as (H1 & H2 & H3 & _).
      repeat split; assumption.
Qed.

(** ** What an acquire does under the mutex *)

Lemma limiter_proceed_eq (w : limiter.world) :
  limiter.mu (limiter.gate w) = false ->
  limiter.proceed w =
    let l := limiter.gate w in
    if limiter.count l <? limiter.limit l then
      Returns None (limiter.set_count (Go.add (limiter.count l) 1) w)
    else
      let ch := length (cells (limiter.heap w)) in
      Returns (Some ch)
        (limiter.mkWorld
           (limiter.mkLimiter (limiter.count l) (limiter.limit l) false
              (limiter.waitList l ++ [limiter.mkWaiter ch]) (limiter.timeout l))
           (mkChans (cells (limiter.heap w) ++ [mkCell false Listening])
                    (delivered (limiter.heap w)))).
Proof.
  destruct w as [[c l m q t] h]; simpl; intros ->.
  unfold limiter.proceed, limiter.Lock, defer, bind, get, modify, ret; simpl.
  destruct (c <? l); reflexivity.
Qed.

Lemma priority_proceed_eq (w : priority.world) p :
  priority.mu (priority.gate w) = false ->
  priority.proceed p w =
    let g := priority.gate w in
    if priority.count g <? priority.limit g then
      Returns None (priority.set_count (Go.add (priority.count g) 1) w)
    else
      let ch := length (cells (priority.heap w)) in
      let h := length (priority.items w) in
      let qi := queue.Push h (priority.waitList g)
                  (priority.items w ++ [queue.mkItem p ch 0]) in
      Returns (Some h)
        (priority.mkWorld
           (priority.mkLimiter (priority.count g) (priority.limit g) false
              (fst qi) (priority.dynamicPeriod g) (priority.timeout g))
           (snd qi)
           (mkChans (cells (priority.heap w) ++ [mkCell false Listening])
                    (delivered (priority.heap w)))).
Proof.
  destruct w as [[c l m q d t] its h]; simpl; intros ->.
  unfold priority.proceed, priority.Lock, defer, bind, get, modify, ret; simpl.
  destruct (c <? l); reflexivity.
Qed.

Lemma limiter_acquire_n_fast n : forall (w : limiter.world),
  limiter.mu (limiter.gate w) = false ->
  Go.int_min <= limiter.count (limiter.gate w) ->
  limiter.count (limiter.gate w) + Z.of_nat n <= limiter.limit (limiter.gate w) ->
  limiter.limit (limiter.gate w) <= Go.int_max ->
  limiter.acquire_n n w
    = Returns (repeat None n)
        (limiter.set_count (limiter.count (limiter.gate w) + Z.of_nat n) w).
Proof.
  induction n as [|n IH]; intros w Hmu Hlo Hhi Hlim.
  - simpl. unfold ret. destruct w as [[c l m q t] h]; simpl.
    unfold limiter.set_count; simpl. rewrite Z.add_0_r. reflexivity.
  - cbn [limiter.acquire_n]. unfold bind at 1.
    rewrite (limiter_proceed_eq w Hmu). cbv zeta.
    destruct (Z.ltb_spec (limiter.count (limiter.gate w))
                         (limiter.limit (limiter.gate w))) as [Hlt|Hge]; [|lia].
    rewrite add_one_exact by lia.
    unfold bind at 1. rewrite IH.
    + unfold ret. rewrite Nat2Z.inj_succ. destruct w as [[c l m q t] h].
      unfold limiter.set_count; cbn -[Z.add Z.of_nat].
      replace (c + 1 + Z.of_nat n) with (c + Z.succ (Z.of_nat n)) by lia.
      reflexivity.
    + destruct w as [[c l m q t] h]; exact Hmu.
    + destruct w as [[c l m q t] h]; simpl in *. lia.
    + destruct w as [[c l m q t] h]; simpl in *. lia.
    + destruct w as [[c l m q t] h]; simpl in *. lia.
Qed.

Lemma priority_acquire_n_fast n p : forall (w : priority.world),
  priority.mu (priority.gate w) = false ->
  Go.int_min <= priority.count (priority.gate w) ->
  priority.count (priority.gate w) + Z.of_nat n <= priority.limit (priority.gate w) ->
  priority.limit (priority.gate w) <= Go.int_max ->
  priority.acquire_n n p w
    = Returns (repeat None n)
        (priority.set_count (priority.count (priority.gate w) + Z.of_nat n) w).
Proof.
  induction n as [|n IH]; intros w Hmu Hlo Hhi Hlim.
  - simpl. unfold ret. destruct w as [[c l m q d t] its h]; simpl.
    unfold priority.set_count; simpl. rewrite Z.add_0_r. reflexivity.
  - cbn [priority.acquire_n]. unfold bind at 1.
    rewrite (priority_proceed_eq w p Hmu). cbv zeta.
    destruct (Z.ltb_spec (priority.count (priority.gate w))
                         (priority.limit (priority.gate w))) as [Hlt|Hge]; [|lia].
    rewrite add_one_exact by lia.
    unfold bind at 1. rewrite IH.
    + unfold ret. rewrite Nat2Z.inj_succ. destruct w as [[c l m q d t] its h].
      unfold priority.set_count; cbn -[Z.add Z.of_nat].
      replace (c + 1 + Z.of_nat n) with (c + Z.succ (Z.of_nat n)) by lia.
      reflexivity.
    + destruct w as [[c l m q d t] its h]; exact Hmu.
    + destruct w as [[c l m q d t] its h]; simpl in *. lia.
    + destruct w as [[c l m q d t] its h]; simpl in *. lia.
    + destruct w as [[c l m q d t] its h]; simpl in *. lia.
Qed.

Lemma limiter_removeWaiter_count (w : limiter.world) ch :
  limiter.mu (limiter.gate w) = false ->
  let c := limiter.count (limiter.gate w) in
  let c' := limiter.count (limiter.gate (final (limiter.removeWaiter ch w))) in
  c' = c \/ c' = Go.add c 1.
Proof.
  destruct w as [[c l m q t] h]; simpl; intros ->.
  unfold limiter.removeWaiter, limiter.Lock, limiter.Unlock, bind, get, modify, ret.
  simpl. destruct (limiter.remove_first ch q) as [q'|]; simpl; [|left; reflexivity].
  unfold limiter.on_heap; simpl.
  destruct (close ch h) as [[] h1|h1|h1]; simpl; [right|left|left]; reflexivity.
Qed.

Lemma priority_removeWaiter_count (w : priority.world) h :
  priority.mu (priority.gate w) = false ->
  priority.count (priority.gate (final (priority.removeWaiter h w)))
    = Go.add (priority.count (priority.gate w)) 1.
Proof.
  destruct w as [[c l m q d t] its hp]; simpl; intros ->.
  unfold priority.removeWaiter, priority.Lock, priority.Unlock, bind, get,
    modify, ret, priority.item.
  simpl. destruct (its !! h) as [it|]; simpl; [|reflexivity].
  unfold priority.on_heap; simpl.
  destruct (close (queue.Done it) hp) as [[] h1|h1|h1]; reflexivity.
Qed.

Lemma limiter_Finish_count (w : limiter.world) :
  limiter.mu (limiter.gate w) = false ->
  limiter.count (limiter.gate (final (limiter.Finish w)))
    = Go.sub (limiter.count (limiter.gate w)) 1.
Proof.
  intros Hmu. rewrite (limiter_Finish_eq w Hmu). cbv zeta.
  destruct w as [[c l m q t] h]; simpl.
  destruct q as [|first rest]; [reflexivity|].
  destruct (fire (limiter.done first) h) as [[] h1|h1|h1]; reflexivity.
Qed.

Lemma priority_Finish_count (w : priority.world) :
  priority.mu (priority.gate w) = false ->
  priority.count (priority.gate (final (priority.Finish w)))
    = Go.sub (priority.count (priority.gate w)) 1.
Proof.
  intros Hmu. rewrite (priority_Finish_eq w Hmu). cbv zeta.
  destruct w as [[c l m q d t] its h]; simpl.
  destruct (queue.Pop q its) as [[b q']|].
  - simpl. destruct (its !! b) as [it|]; [|reflexivity].
    destruct (fire (queue.Done it) h) as [[] h1|h1|h1]; reflexivity.
  - destruct (Nat.eqb (queue.Len q) 0); reflexivity.
Qed.

(** ** No lower bound on [count] *)

(** C10: at both gates a release that gets the mutex takes one off
    [count] whatever [count] is; at [count] 0 with an empty wait list it
    leaves [count] at -1, from where [limit + 1] acquirers in a row take
    the fast path; and at a negative [count] a release goes one further
    down, an acquire adds one exactly when [count < limit], and a
    removal adds one or nothing: no call tests [count] against 0 or
    sets it back. *)
Theorem Finish_has_no_lower_bound :
  (forall w : limiter.world,
     limiter.mu (limiter.gate w) = false ->
     let c := limiter.count (limiter.gate w) in
     let l := limiter.limit (limiter.gate w) in
     limiter.count (limiter.gate (final (limiter.Finish w))) = Go.sub c 1
     /\ (c = 0 -> limiter.waitList (limiter.gate w) = [] ->
         limiter.Finish w = Returns tt (limiter.set_count (-1) w))
     /\ (c = -1 -> 0 <= l <= Go.int_max ->
         limiter.acquire_n (Z.to_nat (l + 1)) w
           = Returns (repeat None (Z.to_nat (l + 1))) (limiter.set_count l w))
     /\ (Go.int_min < c < 0 ->
         limiter.count (limiter.gate (final (limiter.Finish w))) = c - 1
         /\ limiter.count (limiter.gate (final (limiter.proceed w)))
            = (if c <? l then c + 1 else c)
         /\ forall ch,
              let c' := limiter.count (limiter.gate (final (limiter.removeWaiter ch w))) in
              c' = c \/ c' = c + 1))
  /\
  (forall w : priority.world,
     priority.mu (priority.gate w) = false ->
     let c := priority.count (priority.gate w) in
     let l := priority.limit (priority.gate w) in
     priority.count (priority.gate (final (priority.Finish w))) = Go.sub c 1
     /\ (c = 0 -> queue.entries (priority.waitList (priority.gate w)) = [] ->
         priority.Finish w = Returns tt (priority.set_count (-1) w))
     /\ (c = -1 -> 0 <= l <= Go.int_max ->
         forall p,
         priority.acquire_n (Z.to_nat (l + 1)) p w
           = Returns (repeat None (Z.to_nat (l + 1))) (priority.set_count l w))
     /\ (Go.int_min < c < 0 ->
         priority.count (priority.gate (final (priority.Finish w))) = c - 1
         /\ (forall p,
              priority.count (priority.gate (final (priority.proceed p w)))
              = (if c <? l then c + 1 else c))
         /\ forall h,
              priority.count (priority.gate (final (priority.removeWaiter h w)))
              = c + 1)).
Proof.
  assert (Hmin : Go.int_min = - 2 ^ 63) by reflexivity.
  assert (Hmax : Go.int_max = 2 ^ 63 - 1) by reflexivity.
  split.
  - intros w Hmu c l. subst c l.
    split; [apply limiter_Finish_count, Hmu|].
    split; [|split].
    + intros Hc Hq. rewrite (limiter_Finish_eq w Hmu). cbv zeta.
      rewrite Hq, Hc. reflexivity.
    + intros Hc Hl.
      rewrite (limiter_acquire_n_fast _ w Hmu) by lia.
      f_equal. f_equal. lia.
    + intros Hc. split; [|split].
      * rewrite (limiter_Finish_count w Hmu). apply sub_one_exact. lia.
      * rewrite (limiter_proceed_eq w Hmu). cbv zeta.
        destruct w as [[c l m q t] h]; simpl in *.
        destruct (c <? l); simpl; [apply add_one_exact; lia | reflexivity].
      * intros ch. cbv zeta.
        destruct (limiter_removeWaiter_count w ch Hmu) as [E | E]; rewrite E.
        -- left. reflexivity.
        -- right. apply add_one_exact. lia.
  - intros w Hmu c l. subst c l.
    split; [apply priority_Finish_count, Hmu|].
    split; [|split].
    + intros Hc Hq. rewrite (priority_Finish_eq w Hmu). cbv zeta.
      unfold queue.Pop, queue.Len. rewrite Hq, Hc. reflexivity.
    + intros Hc Hl p.
      rewrite (priority_acquire_n_fast _ p w Hmu) by lia.
      f_equal. f_equal. lia.
    + intros Hc. split; [|split].
      * rewrite (priority_Finish_count w Hmu). apply sub_one_exact. lia.
      * intros p. rewrite (priority_proceed_eq w p Hmu). cbv zeta.
        destruct w as [[c l m q d t] its h]; simpl in *.
        destruct (c <? l); simpl; [apply add_one_exact; lia | reflexivity].
      * intros h. rewrite (priority_removeWaiter_count w h Hmu).
        apply add_one_exact. lia.
Qed.

Lemma Finish_has_no_lower_bound_witness :
  (limiter.mu (limiter.gate sample.fifo_fresh) = false
   /\ limiter.count (limiter.gate sample.fifo_fresh) = 0
   /\ limiter.waitList (limiter.gate sample.fifo_fresh) = []
   /\ limiter.Finish sample.fifo_fresh
      = Returns tt (limiter.set_count (-1) sample.fifo_fresh))
  /\ (limiter.mu (limiter.gate sample.fifo_underflow) = false
      /\ limiter.count (limiter.gate sample.fifo_underflow) = -1
      /\ 0 <= limiter.limit (limiter.gate sample.fifo_underflow) <= Go.int_max
      /\ limiter.acquire_n 3 sample.fifo_underflow
         = Returns [None; None; None] (limiter.set_count 2 sample.fifo_underflow)
      /\ Go.int_min < limiter.count (limiter.gate sample.fifo_underflow) < 0
      /\ limiter.count (limiter.gate (final (limiter.Finish sample.fifo_underflow)))
         = -2)
  /\ (priority.mu (priority.gate sample.prio_fresh) = false
      /\ priority.count (priority.gate sample.prio_fresh) = 0
      /\ queue.entries (priority.waitList (priority.gate sample.prio_fresh)) = []
      /\ priority.Finish sample.prio_fresh
         = Returns tt (priority.set_count (-1) sample.prio_fresh))
  /\ (priority.mu (priority.gate sample.prio_underflow) = false
      /\ priority.count (priority.gate sample.prio_underflow) = -1
      /\ 0 <= priority.limit (priority.gate sample.prio_underflow) <= Go.int_max
      /\ priority.acquire_n 3 priority.Low sample.prio_underflow
         = Returns [None; None; None] (priority.set_count 2 sample.prio_underflow)
      /\ Go.int_min < priority.count (priority.gate sample.prio_underflow) < 0
      /\ priority.count (priority.gate (final (priority.Finish sample.prio_underflow)))
         = -2).
Proof.
  assert (R : 0 <= 2 <= Go.int_max) by (vm_compute; split; discriminate).
  assert (N : Go.int_min < -1 < 0) by (vm_compute; split; reflexivity).
  split; [|split; [|split]].
  - do 3 (split; [reflexivity|]).
    exact (proj1 (proj2 (proj1 Finish_has_no_lower_bound sample.fifo_fresh eq_refl))
             eq_refl eq_refl).
  - do 2 (split; [reflexivity|]). split; [exact R|].
    split; [|split; [exact N|]].
    + exact (proj1 (proj2 (proj2 (proj1 Finish_has_no_lower_bound
                                    sample.fifo_underflow eq_refl)))
               eq_refl R).
    + exact (proj1 (proj2 (proj2 (proj2 (proj1 Finish_has_no_lower_bound
                                           sample.fifo_underflow eq_refl))) N)).
  - do 3 (split; [reflexivity|]).
    exact (proj1 (proj2 (proj2 Finish_has_no_lower_bound sample.prio_fresh eq_refl))
             eq_refl eq_refl).
  - do 2 (split; [reflexivity|]). split; [exact R|].
    split; [|split; [exact N|]].
    + exact (proj1 (proj2 (proj2 (proj2 Finish_has_no_lower_bound
                                    sample.prio_underflow eq_refl)))
               eq_refl R priority.Low).
    + exact (proj1 (proj2 (proj2 (proj2 (proj2 Finish_has_no_lower_bound
                                           sample.prio_underflow eq_refl))) N)).
Defined.

(** ** Construction *)

Lemma limiter_New_fields options : forall l0,
  Forall (fun o => exists t, o = limiter.WithTimeout t) options ->
  let l := fold_left (fun l o => o l) options l0 in
  limiter.count l = limiter.count l0 /\ limiter.limit l = limiter.limit l0
  /\ limiter.mu l = limiter.mu l0 /\ limiter.waitList l = limiter.waitList l0.
Proof.
  induction options as [|o options IH]; intros l0 H; simpl; [repeat split|].
  inversion H as [|? ? [t ->] H']; subst.
  destruct (IH (limiter.WithTimeout t l0) H') as (E1 & E2 & E3 & E4).
  rewrite E1, E2, E3, E4. repeat split.
Qed.

Lemma priority_NewLimiter_fields options : forall l0,
  Forall (fun o => exists t, o = priority.WithTimeout t
                             \/ o = priority.WithDynamicPriority t) options ->
  let l := fold_left (fun l o => o l) options l0 in
  priority.count l = priority.count l0 /\ priority.limit l = priority.limit l0
  /\ priority.mu l = priority.mu l0 /\ priority.waitList l = priority.waitList l0.
Proof.
  induction options as [|o options IH]; intros l0 H; simpl; [repeat split|].
  inversion H as [|? ? [t [-> | ->]] H']; subst.
  - destruct (IH (priority.WithTimeout t l0) H') as (E1 & E2 & E3 & E4).
    rewrite E1, E2, E3, E4. repeat split.
  - destruct (IH (priority.WithDynamicPriority t l0) H') as (E1 & E2 & E3 & E4).
    rewrite E1, E2, E3, E4. repeat split.
Qed.

(** C9, as the claim states it: with the limits 0 and -1 the
    constructors return gates, and the gates work: a caller is queued
    and the next release admits it. *)
Lemma constructors_accept_nonpositive_limit :
  limiter.New 0 [] = limiter.mkLimiter 0 0 false [] None
  /\ priority.NewLimiter (-1) []
     = priority.mkLimiter 0 (-1) false queue.empty None None
  /\ (exists w,
        (limiter.proceed ;; limiter.Finish) (limiter.start (limiter.New 0 []))
          = Returns tt w
        /\ delivered (limiter.heap w) = [0%nat])
  /\ (exists w,
        (priority.proceed priority.Low ;; priority.Finish)
          (priority.start (priority.NewLimiter (-1) [])) = Returns tt w
        /\ delivered (priority.heap w) = [0%nat]).
Proof.
  split; [reflexivity|]. split; [reflexivity|].
  split; eexists; (split; [vm_compute; reflexivity | reflexivity]).
Qed.

(** C9, amended: the constructors never fail.  For every limit, the
    non-positive ones included, and every list of the package's options
    they return a gate with [count] 0, that limit, a free mutex and an
    empty wait list; with a limit that is not positive the first
    acquirer does not take the fast path, it is queued. *)
Theorem constructors_never_fail :
  (forall limit options,
     Forall (fun o => exists t, o = limiter.WithTimeout t) options ->
     let l := limiter.New limit options in
     limiter.count l = 0 /\ limiter.limit l = limit
     /\ limiter.mu l = false /\ limiter.waitList l = []
     /\ (limit <= 0 ->
         exists w, limiter.proceed (limiter.start l) = Returns (Some 0%nat) w
                   /\ limiter.waitList (limiter.gate w) = [limiter.mkWaiter 0%nat]
                   /\ limiter.count (limiter.gate w) = 0))
  /\
  (forall limit options,
     Forall (fun o => exists t, o = priority.WithTimeout t
                                \/ o = priority.WithDynamicPriority t) options ->
     let l := priority.NewLimiter limit options in
     priority.count l = 0 /\ priority.limit l = limit
     /\ priority.mu l = false /\ priority.waitList l = queue.empty
     /\ (limit <= 0 ->
         forall p,
         exists w, priority.proceed p (priority.start l) = Returns (Some 0%nat) w
                   /\ queue.entries (priority.waitList (priority.gate w)) = [0%nat]
                   /\ priority.count (priority.gate w) = 0)).
Proof.
  split.
  - intros limit options H l.
    destruct (limiter_New_fields options (limiter.mkLimiter 0 limit false [] None) H)
      as (E1 & E2 & E3 & E4).
    fold (limiter.New limit options) in E1, E2, E3, E4. fold l in E1, E2, E3, E4.
    simpl in E1, E2, E3, E4.
    do 4 (split; [assumption|]).
    intros Hle.
    rewrite limiter_proceed_eq by exact E3. cbv zeta. simpl.
    rewrite E1, E2, E4.
    destruct (Z.ltb_spec 0 limit) as [Hlt|_]; [lia|].
    eexists. split; [reflexivity|]. split; reflexivity.
  - intros limit options H l.
    destruct (priority_NewLimiter_fields options
                (priority.mkLimiter 0 limit false queue.empty None None) H)
      as (E1 & E2 & E3 & E4).
    fold (priority.NewLimiter limit options) in E1, E2, E3, E4.
    fold l in E1, E2, E3, E4. simpl in E1, E2, E3, E4.
    do 4 (split; [assumption|]).
    intros Hle p.
    rewrite priority_proceed_eq by exact E3. cbv zeta. simpl.
    rewrite E1, E2, E4.
    destruct (Z.ltb_spec 0 limit) as [Hlt|_]; [lia|].
    eexists. split; [reflexivity|]. split; reflexivity.
Qed.

Lemma constructors_never_fail_witness :
  (Forall (fun o => exists t, o = limiter.WithTimeout t) [limiter.WithTimeout 5]
   /\ -3 <= 0
   /\ limiter.limit (limiter.New (-3) [limiter.WithTimeout 5]) = -3
   /\ exists w,
        limiter.proceed (limiter.start (limiter.New (-3) [limiter.WithTimeout 5]))
          = Returns (Some 0%nat) w
        /\ limiter.waitList (limiter.gate w) = [limiter.mkWaiter 0%nat]
        /\ limiter.count (limiter.gate w) = 0)
  /\
  (Forall (fun o => exists t, o = priority.WithTimeout t
                              \/ o = priority.WithDynamicPriority t)
          [priority.WithDynamicPriority 3]
   /\ 0 <= 0
   /\ priority.limit (priority.NewLimiter 0 [priority.WithDynamicPriority 3]) = 0
   /\ exists w,
        priority.proceed priority.Low
          (priority.start (priority.NewLimiter 0 [priority.WithDynamicPriority 3]))
          = Returns (Some 0%nat) w
        /\ queue.entries (priority.waitList (priority.gate w)) = [0%nat]
        /\ priority.count (priority.gate w) = 0).
Proof.
  assert (F1 : Forall (fun o => exists t, o = limiter.WithTimeout t)
                      [limiter.WithTimeout 5]).
  { constructor; [exists 5; reflexivity | constructor]. }
  assert (F2 : Forall (fun o => exists t, o = priority.WithTimeout t
                                          \/ o = priority.WithDynamicPriority t)
                      [priority.WithDynamicPriority 3]).
  { constructor; [exists 3; right; reflexivity | constructor]. }
  assert (L1 : -3 <= 0) by discriminate.
  assert (L2 : 0 <= 0) by discriminate.
  split.
  - split; [exact F1|]. split; [exact L1|].
    pose proof (proj1 constructors_never_fail (-3) [limiter.WithTimeout 5] F1) as T.
    cbv zeta in T. destruct T as (_ & T2 & _ & _ & T5).
    split; [exact T2 | exact (T5 L1)].
  - split; [exact F2|]. split; [exact L2|].
    pose proof (proj2 constructors_never_fail 0 [priority.WithDynamicPriority 3] F2) as T.
    cbv zeta in T. destruct T as (_ & T2 & _ & _ & T5).
    split; [exact T2 | exact (T5 L2 priority.Low)].
Defined.

(** ** Aging *)

(** The tick of the aging loops, once it has the mutex. *)
Lemma priority_promote_eq (w : priority.world) h :
  priority.mu (priority.gate w) = false ->
  priority.promote h w =
    match priority.items w !! h with
    | None => Panic (priority.set_mu true w)
    | Some it =>
        if queue.Priority it <? priority.High then
          Returns tt
            (priority.set_queue (priority.waitList (priority.gate w))
               (queue.Update h (Go.add (queue.Priority it) 1)
                  (priority.waitList (priority.gate w)) (priority.items w)) w)
        else Returns tt w
    end.
Proof.
  destruct w as [[c l m q d t] its hp]; simpl; intros ->.
  unfold priority.promote, priority.Lock, priority.Unlock, bind, get, modify,
    ret, priority.item.
  simpl. destruct (its !! h) as [it|]; simpl; [|reflexivity].
  destruct (queue.Priority it <? priority.High); reflexivity.
Qed.

(** C8: at a gate with aging only (period 3 ms, limit 1, one caller
    inside), a queued Low caller whose select takes the ticker case
    when the cancel token has already fired is promoted all the same,
    from Low to Medium: the loop with aging only goes from the tick
    straight to the promotion.  At the same gate with a timeout as well,
    the same tick re-checks the cancel token, removes the entry and
    leaves its priority alone. *)
Theorem aging_only_tick_promotes_cancelled_entry :
  priority.dynamicPeriod (priority.gate sample.aging_full) = Some 3
  /\ priority.timeout (priority.gate sample.aging_full) = None
  /\ priority.items
       (final (priority.Wait [CaseTicker true] priority.Low sample.aging_full))
     !! 0%nat
     = Some (queue.mkItem priority.Medium 0%nat 0%nat)
  /\ queue.queued 0%nat
       (priority.waitList
          (priority.gate
             (final (priority.Wait [CaseTicker true] priority.Low
                       sample.aging_full))))
     = true
  /\ priority.items
       (final (priority.Wait [CaseTicker true] priority.Low
                 sample.aging_timeout_full))
     !! 0%nat
     = Some (queue.mkItem priority.Low 0%nat 0%nat)
  /\ queue.queued 0%nat
       (priority.waitList
          (priority.gate
             (final (priority.Wait [CaseTicker true] priority.Low
                       sample.aging_timeout_full))))
     = false.
Proof.
  split; [reflexivity|]. split; [reflexivity|].
  split; [vm_compute; reflexivity|]. split; [vm_compute; reflexivity|].
  split; vm_compute; reflexivity.
Qed.

(** ** The order of admission at the priority gate *)

Lemma proceed_queued_behind qs p :
  priority.proceed p (priority.queued_behind qs)
    = Returns (Some (length qs)) (priority.queued_behind (qs ++ [p])).
Proof.
  rewrite priority_proceed_eq by reflexivity. cbv zeta.
  unfold priority.queued_behind.
  cbn [priority.gate priority.count priority.limit priority.items
       priority.heap priority.waitList priority.dynamicPeriod priority.timeout
       cells delivered].
  replace (1 <? 1) with false by reflexivity.
  unfold queue.Push. cbn [queue.entries queue.arrivals fst snd].
  rewrite list_lookup_middle by reflexivity.
  cbn [queue.Priority queue.Done].
  rewrite insert_app_r_alt by apply Nat.le_refl.
  rewrite Nat.sub_diag. cbn [list_insert insert].
  rewrite length_imap, repeat_length, length_app, imap_app. cbn [length imap].
  rewrite Nat.add_1_r, seq_S, Nat.add_0_r. cbn [repeat Nat.add].
  rewrite repeat_cons. reflexivity.
Qed.

Lemma enqueue_queued_behind ps : forall qs,
  priority.enqueue ps (priority.queued_behind qs)
    = Returns tt (priority.queued_behind (qs ++ ps)).
Proof.
  induction ps as [|p ps IH]; intros qs.
  - rewrite app_nil_r. reflexivity.
  - cbn [priority.enqueue]. unfold bind at 1.
    rewrite proceed_queued_behind, IH, <- app_assoc. reflexivity.
Qed.

Lemma queued_behind_draining ps :
  priority.draining ps (seq 0 (length ps)) (priority.queued_behind ps).
Proof.
  unfold priority.draining, priority.queued_behind.
  cbn [priority.gate priority.mu priority.waitList queue.entries
       priority.items priority.heap cells].
  split; [reflexivity|]. split; [reflexivity|]. split; [reflexivity|].
  split; [apply NoDup_seq|].
  intros e He. apply in_seq in He.
  assert (Hlt : (e < length ps)%nat) by lia.
  split; [exact Hlt|].
  destruct (lookup_lt_is_Some_2 (repeat (mkCell false Listening) (length ps)) e)
    as [c Hc]; [rewrite repeat_length; exact Hlt|].
  assert (E : c = mkCell false Listening).
  { apply list_elem_of_lookup_2, list_elem_of_In, repeat_spec in Hc. exact Hc. }
  subst c. exact Hc.
Qed.

Lemma In_remove_entry b e es :
  NoDup es -> (In e (queue.remove_entry b es) <-> In e es /\ e <> b).
Proof.
  induction es as [|x es IH]; intros Hnd; simpl; [tauto|].
  inversion Hnd as [|? ? Hx Hnd']; subst.
  destruct (Nat.eqb_spec x b) as [-> | Hne].
  - split.
    + intros H. split; [right; exact H|]. intros ->.
      apply Hx, list_elem_of_In, H.
    + intros [[E | H] Hn]; [congruence | exact H].
  - simpl. rewrite (IH Hnd'). split.
    + intros [<- | [H Hn]]; [split; [left; reflexivity | exact Hne] | tauto].
    + intros [[<- | H] Hn]; [left; reflexivity | right; tauto].
Qed.

Lemma NoDup_remove_entry b es : NoDup es -> NoDup (queue.remove_entry b es).
Proof.
  induction es as [|x es IH]; intros Hnd; simpl; [constructor|].
  inversion Hnd as [|? ? Hx Hnd']; subst.
  destruct (Nat.eqb x b); [exact Hnd'|].
  constructor; [|apply IH, Hnd'].
  intros H. apply list_elem_of_In, (In_remove_entry b x es Hnd') in H.
  apply Hx, list_elem_of_In, H.
Qed.

Lemma length_remove_entry b es :
  In b es -> length es = S (length (queue.remove_entry b es)).
Proof.
  induction es as [|x es IH]; simpl; intros H; [contradiction|].
  destruct (Nat.eqb_spec x b) as [-> | Hne]; [reflexivity|].
  destruct H as [H | H]; [congruence|]. simpl. rewrite <- IH; auto.
Qed.

Lemma length_remove_entry_S b es n :
  In b es -> length es = S n -> length (queue.remove_entry b es) = n.
Proof.
  intros Hin Hlen. rewrite (length_remove_entry b es Hin) in Hlen. congruence.
Qed.

(** One release at the draining gate grants the best entry. *)
Lemma Finish_draining ps es (w : priority.world) b :
  priority.draining ps es w ->
  queue.best (priority.items w) es = Some b ->
  exists w',
    priority.Finish w = Returns tt w'
    /\ priority.draining ps (queue.remove_entry b es) w'
    /\ delivered (priority.heap w') = delivered (priority.heap w) ++ [b].
Proof.
  intros (Hmu & Hes & Hits & Hnd & Hcells) Hb.
  pose proof (best_In _ _ _ Hb) as Hin.
  destruct (Hcells b Hin) as [Hlt Hc].
  assert (Hit : exists p, priority.items w !! b = Some (priority.arrival b p)).
  { rewrite Hits, list_lookup_imap.
    destruct (lookup_lt_is_Some_2 ps b Hlt) as [p Hp]. rewrite Hp. eauto. }
  destruct Hit as [p Hit].
  rewrite (priority_Finish_eq w Hmu). cbv zeta.
  unfold queue.Pop. rewrite Hes, Hb, Hit. cbn [priority.arrival queue.Done].
  rewrite (fire_listening _ _ Hc).
  eexists. split; [reflexivity|].
  destruct w as [[c l m [es0 n] d t] its h]; simpl in *. subst es0 m.
  split; [|reflexivity].
  unfold priority.draining; simpl.
  split; [reflexivity|]. split; [reflexivity|]. split; [exact Hits|].
  split; [apply NoDup_remove_entry, Hnd|].
  intros e He. apply (In_remove_entry b e es Hnd) in He. destruct He as [He Hne].
  destruct (Hcells e He) as [Hl Hce]. split; [exact Hl|].
  rewrite list_lookup_insert_ne by congruence. exact Hce.
Qed.

Lemma release_draining ps n : forall es (w : priority.world),
  priority.draining ps es w ->
  length es = n ->
  exists w',
    priority.release n w = Returns tt w'
    /\ priority.items w' = priority.items w
    /\ delivered (priority.heap w')
       = delivered (priority.heap w) ++ queue.drain_order (priority.items w) n es.
Proof.
  induction n as [|n IH]; intros es w Hd Hlen.
  - exists w. simpl. rewrite app_nil_r. repeat split.
  - destruct (queue.best (priority.items w) es) as [b|] eqn:Hb.
    + destruct (Finish_draining ps es w b Hd Hb) as (w1 & E1 & Hd1 & Hdel1).
      pose proof (best_In _ _ _ Hb) as Hin.
      assert (Hlen1 : length (queue.remove_entry b es) = n)
        by exact (length_remove_entry_S b es n Hin Hlen).
      destruct (IH _ w1 Hd1 Hlen1) as (w2 & E2 & Hits2 & Hdel2).
      assert (Hits1 : priority.items w1 = priority.items w).
      { destruct Hd as (_ & _ & H & _). destruct Hd1 as (_ & _ & H1 & _).
        congruence. }
      exists w2. cbn [priority.release queue.drain_order]. unfold bind at 1.
      rewrite E1, E2, Hb. split; [reflexivity|].
      split; [congruence|].
      rewrite Hdel2, Hdel1, Hits1, <- app_assoc. reflexivity.
    + apply best_None in Hb. subst es. discriminate.
Qed.

(** The order of draining is a permutation of the entries, and sorted by
    the order of admission. *)
Lemma drain_order_perm its n : forall es,
  length es = n -> Permutation (queue.drain_order its n es) es.
Proof.
  induction n as [|n IH]; intros es Hlen.
  - destruct es; [constructor | discriminate].
  - cbn [queue.drain_order].
    destruct (queue.best its es) as [b|] eqn:Hb.
    + pose proof (best_In _ _ _ Hb) as Hin.
      destruct (remove_entry_split b es Hin) as (l1 & l2 & Hes & Hrem & _).
      rewrite IH by exact (length_remove_entry_S b es n Hin Hlen).
      rewrite Hrem, Hes. apply Permutation_middle.
    + apply best_None in Hb. subst es. discriminate.
Qed.

Lemma best_admitted_before ps es b :
  NoDup es -> (forall e, In e es -> (e < length ps)%nat) ->
  queue.best (imap priority.arrival ps) es = Some b ->
  forall e, In e es -> e <> b -> priority.admitted_before ps b e.
Proof.
  intros Hnd Hlt Hb e He Hne.
  assert (Hv : forall e, In e es -> is_Some (imap priority.arrival ps !! e)).
  { intros x Hx. rewrite list_lookup_imap.
    destruct (lookup_lt_is_Some_2 ps x (Hlt x Hx)) as [p Hp].
    rewrite Hp. eexists. reflexivity. }
  pose proof (best_max _ _ _ Hv Hb e He) as Hm.
  pose proof (best_In _ _ _ Hb) as Hin.
  unfold queue.before_at in Hm. rewrite !list_lookup_imap in Hm.
  destruct (lookup_lt_is_Some_2 ps e (Hlt e He)) as [pe Hpe].
  destruct (lookup_lt_is_Some_2 ps b (Hlt b Hin)) as [pb Hpb].
  rewrite Hpe, Hpb in Hm. simpl in Hm.
  apply before_false in Hm. simpl in Hm.
  unfold priority.admitted_before, priority.PriorityValue in *.
  rewrite Hpb, Hpe. lia.
Qed.

Lemma drain_order_sorted ps n : forall es,
  NoDup es -> (forall e, In e es -> (e < length ps)%nat) ->
  length es = n ->
  StronglySorted (priority.admitted_before ps)
    (queue.drain_order (imap priority.arrival ps) n es).
Proof.
  induction n as [|n IH]; intros es Hnd Hlt Hlen; [constructor|].
  cbn [queue.drain_order].
  destruct (queue.best (imap priority.arrival ps) es) as [b|] eqn:Hb;
    [|constructor].
  pose proof (best_In _ _ _ Hb) as Hin.
  assert (Hlen' : length (queue.remove_entry b es) = n)
    by exact (length_remove_entry_S b es n Hin Hlen).
  constructor.
  - apply IH; [apply NoDup_remove_entry, Hnd | | exact Hlen'].
    intros e He. apply (In_remove_entry b e es Hnd) in He. apply Hlt, He.
  - apply List.Forall_forall. intros e He.
    apply (Permutation_in _ (drain_order_perm _ n _ Hlen')) in He.
    apply (In_remove_entry b e es Hnd) in He. destruct He as [He Hne].
    eapply best_admitted_before; eassumption.
Qed.

(** C6: at a priority gate of limit 1 with one caller inside, let
    callers with the priorities [ps] queue up in that order and let the
    gate be released as many times.  Every queued caller is granted
    once, and the grants come in the order of admission: a caller of
    higher priority before one of lower priority, and of two callers of
    the same priority the one that arrived first.  (The [k]-th queued
    caller waits on channel [k].)  Low, Medium, High are admitted High,
    Medium, Low, and two callers at Medium in their order of arrival. *)
Theorem priority_admission_order :
  (forall ps : list priority.PriorityValue,
     exists w,
       (priority.proceed priority.High ;; priority.enqueue ps ;;
        priority.release (length ps))
         (priority.start (priority.NewLimiter 1 [])) = Returns tt w
       /\ priority.items w = imap priority.arrival ps
       /\ Permutation (delivered (priority.heap w)) (seq 0 (length ps))
       /\ StronglySorted (priority.admitted_before ps)
                         (delivered (priority.heap w)))
  /\ (exists w,
       (priority.proceed priority.High ;;
        priority.enqueue [priority.Low; priority.Medium; priority.High] ;;
        priority.release 3)
         (priority.start (priority.NewLimiter 1 [])) = Returns tt w
       /\ delivered (priority.heap w) = [2; 1; 0]%nat)
  /\ (exists w,
       (priority.proceed priority.High ;;
        priority.enqueue [priority.Medium; priority.Low; priority.Medium] ;;
        priority.release 3)
         (priority.start (priority.NewLimiter 1 [])) = Returns tt w
       /\ delivered (priority.heap w) = [0; 2; 1]%nat).
Proof.
  split; [|split].
  - intros ps.
    assert (E0 : priority.proceed priority.High
                   (priority.start (priority.NewLimiter 1 []))
                 = Returns None (priority.queued_behind [])) by reflexivity.
    destruct (release_draining ps (length ps) (seq 0 (length ps))
                (priority.queued_behind ps) (queued_behind_draining ps)
                (length_seq _ _))
      as (w & E & Hits & Hdel).
    exists w. split.
    + unfold bind. rewrite E0.
      rewrite (enqueue_queued_behind ps []). exact E.
    + cbn [priority.queued_behind priority.items priority.heap delivered app]
        in Hits, Hdel.
      split; [exact Hits|]. rewrite Hdel. split.
      * apply drain_order_perm, length_seq.
      * apply drain_order_sorted; [apply NoDup_seq | | apply length_seq].
        intros e He. apply in_seq in He. lia.
  - eexists. split; [vm_compute; reflexivity | reflexivity].
  - eexists. split; [vm_compute; reflexivity | reflexivity].
Qed.

(** * Further properties *)

(** ** The FIFO gate: well-formed states *)

Lemma safe_bind {S A B} (P Q : S -> Prop) (m : M S A) (k : A -> M S B) s :
  safe P (m s) -> (forall a s', P s' -> safe Q (k a s')) -> safe Q (bind m k s).
Proof.
  unfold bind. destruct (m s) as [a s'|s'|s']; simpl; intros H Hk;
    [apply Hk, H | exact I | exact H].
Qed.

Lemma remove_first_Some ch q q' :
  limiter.remove_first ch q = Some q' ->
  exists l1 x l2, q = l1 ++ x :: l2 /\ limiter.done x = ch /\ q' = l1 ++ l2
                  /\ ~ In ch (map limiter.done l1).
Proof.
  revert q'. induction q as [|w q IH]; simpl; intros q' H; [discriminate|].
  destruct (Nat.eqb_spec (limiter.done w) ch) as [E | Hne].
  - inversion H; subst. exists [], w, q'. repeat split. intros [].
  - destruct (limiter.remove_first ch q) as [r|]; [|discriminate].
    inversion H; subst.
    destruct (IH r eq_refl) as (l1 & x & l2 & -> & Hx & -> & Hn).
    exists (w :: l1), x, l2. repeat split; [exact Hx|].
    simpl. intros [E | E]; [congruence | exact (Hn E)].
Qed.

Lemma remove_first_In ch q :
  In ch (map limiter.done q) -> exists q', limiter.remove_first ch q = Some q'.
Proof.
  induction q as [|w q IH]; simpl; intros H; [contradiction|].
  destruct (Nat.eqb_spec (limiter.done w) ch) as [E | Hne]; [eauto|].
  destruct H as [H | H]; [congruence|].
  destruct (IH H) as [q' ->]. eauto.
Qed.

Lemma remove_first_None ch q :
  limiter.remove_first ch q = None -> ~ In ch (map limiter.done q).
Proof.
  intros H Hin. destruct (remove_first_In ch q Hin) as [q' E]. congruence.
Qed.

Lemma limiter_removeWaiter_eq (w : limiter.world) ch :
  limiter.mu (limiter.gate w) = false ->
  limiter.removeWaiter ch w =
    let l := limiter.gate w in
    match limiter.remove_first ch (limiter.waitList l) with
    | None => Returns tt w
    | Some q =>
        match close ch (limiter.heap w) with
        | Returns _ h =>
            Returns tt
              (limiter.mkWorld
                 (limiter.mkLimiter (Go.add (limiter.count l) 1) (limiter.limit l)
                    false q (limiter.timeout l)) h)
        | Blocked h => Blocked (limiter.mkWorld (limiter.gate (limiter.set_mu true w)) h)
        | Panic h => Panic (limiter.mkWorld (limiter.gate (limiter.set_mu true w)) h)
        end
    end.
Proof.
  destruct w as [[c l m q t] h]; simpl; intros ->.
  unfold limiter.removeWaiter, limiter.Lock, limiter.Unlock, bind, get, modify, ret.
  simpl. destruct (limiter.remove_first ch q) as [q'|]; simpl; [|reflexivity].
  unfold limiter.on_heap; simpl.
  destruct (close ch h) as [[] h1|h1|h1]; reflexivity.
Qed.

Lemma NoDup_app_middle {A} (l1 l2 : list A) x :
  NoDup (l1 ++ x :: l2) -> NoDup (l1 ++ l2) /\ ~ In x (l1 ++ l2).
Proof.
  intros H. apply NoDup_app in H. destruct H as (H1 & H12 & H2).
  apply NoDup_cons in H2. destruct H2 as [Hx H2]. split.
  - apply NoDup_app. split; [exact H1|]. split; [|exact H2].
    intros y Hy Hy2. apply (H12 y Hy). right. exact Hy2.
  - intros Hin. apply in_app_or in Hin. destruct Hin as [Hin | Hin].
    + apply (H12 x); [apply list_elem_of_In, Hin | left].
    + apply Hx, list_elem_of_In, Hin.
Qed.

Lemma open_at_lt cs ch : open_at cs ch -> (ch < length cs)%nat.
Proof. intros (c & Hc & _). eapply lookup_lt_Some. exact Hc. Qed.

Lemma open_at_insert_ne cs ch ch' c :
  ch <> ch' -> (open_at (<[ch := c]> cs) ch' <-> open_at cs ch').
Proof.
  intros Hne. unfold open_at. rewrite list_lookup_insert_ne by exact Hne.
  reflexivity.
Qed.

Lemma open_at_insert_eq cs ch c :
  (ch < length cs)%nat -> (open_at (<[ch := c]> cs) ch <-> closed c = false).
Proof.
  intros Hlt. unfold open_at. rewrite list_lookup_insert_eq by exact Hlt. split.
  - intros (c' & E & Hc). inversion E; subst. exact Hc.
  - intros Hc. exists c. split; [reflexivity | exact Hc].
Qed.

Lemma open_at_snoc cs ch c :
  open_at (cs ++ [c]) ch
  <-> open_at cs ch \/ (ch = length cs /\ closed c = false).
Proof.
  unfold open_at. split.
  - intros (c' & E & Hc).
    destruct (Nat.lt_ge_cases ch (length cs)) as [Hlt | Hge].
    + rewrite lookup_app_l in E by exact Hlt. left. eauto.
    + rewrite lookup_app_r in E by exact Hge.
      destruct (ch - length cs)%nat as [|k] eqn:Hk; simpl in E; [|discriminate].
      inversion E; subst. right. split; [lia | exact Hc].
  - intros [(c' & E & Hc) | [-> Hc]].
    + exists c'. split; [|exact Hc].
      rewrite lookup_app_l by (eapply lookup_lt_Some; exact E). exact E.
    + exists c. split; [|exact Hc]. apply list_lookup_middle. reflexivity.
Qed.

(** An acquire that gets the mutex returns and keeps the state
    well-formed. *)
Lemma wf_proceed (w : limiter.world) :
  limiter.wf w -> limiter.mu (limiter.gate w) = false ->
  exists r w', limiter.proceed w = Returns r w'
               /\ limiter.wf w' /\ limiter.mu (limiter.gate w') = false.
Proof.
  intros [Hnd Hiff] Hmu. rewrite (limiter_proceed_eq w Hmu). cbv zeta.
  destruct w as [[c l m q t] [cs dl]]; unfold limiter.wf, limiter.queued in *;
    simpl in *.
  destruct (c <? l); do 2 eexists; (split; [reflexivity|]); simpl.
  - split; [split; assumption | exact Hmu].
  - split; [|reflexivity]. rewrite map_app. simpl. split.
    + apply NoDup_app. split; [exact Hnd|]. split; [|apply NoDup_singleton].
      intros x Hx Hx'. apply list_elem_of_In in Hx. apply Hiff, open_at_lt in Hx.
      apply list_elem_of_In in Hx'. destruct Hx' as [<- | []]. lia.
    + intros ch. rewrite in_app_iff, open_at_snoc, Hiff. simpl.
      split; (intros [H | H]; [left; exact H | right]).
      * destruct H as [<- | []]. split; reflexivity.
      * left. symmetry. apply H.
Qed.

(** A release that gets the mutex never panics; it returns, keeping the
    state well-formed, or blocks in the send with the mutex held. *)
Lemma wf_Finish (w : limiter.world) :
  limiter.wf w -> limiter.mu (limiter.gate w) = false ->
  match limiter.Finish w with
  | Returns _ w' => limiter.wf w' /\ limiter.mu (limiter.gate w') = false
  | Blocked w' => limiter.mu (limiter.gate w') = true
  | Panic _ => False
  end.
Proof.
  intros [Hnd Hiff] Hmu. rewrite (limiter_Finish_eq w Hmu). cbv zeta.
  destruct w as [[c l m q t] [cs dl]]; unfold limiter.wf, limiter.queued in *;
    simpl in *.
  destruct q as [|first rest]; simpl.
  - split; [split; assumption | exact Hmu].
  - simpl in Hnd, Hiff. apply NoDup_cons in Hnd. destruct Hnd as [Hfirst Hnd].
    destruct (proj1 (Hiff (limiter.done first)) (or_introl eq_refl))
      as (c0 & Hc0 & Hopen).
    destruct c0 as [cl r]; simpl in Hopen; subst cl.
    destruct r.
    + rewrite (fire_listening (mkChans cs dl) _ Hc0). simpl. split; [|exact Hmu].
      split; [exact Hnd|]. intros ch.
      destruct (Nat.eq_dec (limiter.done first) ch) as [<- | Hne].
      * rewrite open_at_insert_eq by (eapply lookup_lt_Some; exact Hc0).
        simpl. split; [|discriminate].
        intros H. exfalso. apply Hfirst, list_elem_of_In, H.
      * rewrite open_at_insert_ne by exact Hne. rewrite <- Hiff.
        split; [intros H; right; exact H | intros [H | H]; [congruence | exact H]].
    + rewrite (fire_abandoned (mkChans cs dl) _ _ Hc0 eq_refl);
        [reflexivity | discriminate].
    + rewrite (fire_abandoned (mkChans cs dl) _ _ Hc0 eq_refl);
        [reflexivity | discriminate].
Qed.

(** A removal that gets the mutex returns and keeps the state
    well-formed: it never closes a closed channel. *)
Lemma wf_removeWaiter (w : limiter.world) ch :
  limiter.wf w -> limiter.mu (limiter.gate w) = false ->
  exists w', limiter.removeWaiter ch w = Returns tt w'
             /\ limiter.wf w' /\ limiter.mu (limiter.gate w') = false.
Proof.
  intros [Hnd Hiff] Hmu. rewrite (limiter_removeWaiter_eq w ch Hmu). cbv zeta.
  destruct w as [[c l m q t] [cs dl]]; unfold limiter.wf, limiter.queued in *;
    simpl in *.
  destruct (limiter.remove_first ch q) as [q'|] eqn:Hrm.
  - destruct (remove_first_Some _ _ _ Hrm) as (l1 & x & l2 & -> & Hx & -> & Hn1).
    rewrite map_app in Hnd, Hiff. simpl in Hnd, Hiff. rewrite Hx in Hnd, Hiff.
    destruct (NoDup_app_middle _ _ _ Hnd) as [Hnd' Hnot].
    destruct (proj1 (Hiff ch) (in_elt ch _ _)) as (c0 & Hc0 & Hopen).
    unfold close. simpl. rewrite Hc0, Hopen.
    eexists. split; [reflexivity|]. simpl. split; [|reflexivity].
    rewrite map_app. split; [exact Hnd'|]. intros ch'.
    destruct (Nat.eq_dec ch ch') as [<- | Hne].
    + rewrite open_at_insert_eq by (eapply lookup_lt_Some; exact Hc0). simpl.
      split; [intros H; contradiction | discriminate].
    + rewrite open_at_insert_ne by exact Hne. rewrite <- Hiff.
      rewrite !in_app_iff. simpl. split; [tauto|].
      intros [H | [H | H]]; [tauto | congruence | tauto].
  - eexists. split; [reflexivity|]. split; [split; assumption | exact Hmu].
Qed.

(** Leaving the select changes neither the gate nor which channels are
    open. *)
Lemma wf_leave (w : limiter.world) ch :
  exists w', limiter.on_heap (leave ch) w = Returns tt w'
             /\ limiter.gate w' = limiter.gate w
             /\ (limiter.wf w -> limiter.wf w').
Proof.
  destruct w as [g [cs dl]]. unfold limiter.on_heap, leave; simpl.
  destruct (cs !! ch) as [c0|] eqn:Hc0; eexists; (split; [reflexivity|]);
    (split; [reflexivity|]); [|tauto].
  unfold limiter.wf, limiter.queued; simpl. intros [Hnd Hiff].
  split; [exact Hnd|]. intros ch'. rewrite Hiff.
  destruct (Nat.eq_dec ch ch') as [<- | Hne].
  - rewrite open_at_insert_eq by (eapply lookup_lt_Some; exact Hc0). simpl.
    unfold open_at. rewrite Hc0. split.
    + intros (c' & E & H). inversion E; subst. exact H.
    + intros H. eauto.
  - rewrite open_at_insert_ne by exact Hne. reflexivity.
Qed.

Lemma limiter_await_same (w : limiter.world) ch :
  limiter.on_heap (await ch) w = Returns tt w
  \/ limiter.on_heap (await ch) w = Blocked w.
Proof.
  destruct w as [g [cs dl]]. unfold limiter.on_heap, await; simpl.
  destruct (cs !! ch) as [c|]; [|right; reflexivity].
  destruct (rcv c); [destruct (closed c)| |destruct (closed c)]; auto.
Qed.

Lemma Wait_select_locked (w : limiter.world) c ch :
  limiter.mu (limiter.gate w) = true ->
  match limiter.Wait_select c ch w with
  | Returns _ w' => limiter.gate w' = limiter.gate w
  | Blocked w' => limiter.gate w' = limiter.gate w
  | Panic _ => False
  end.
Proof.
  intros Hmu. unfold limiter.Wait_select, bind at 1, get.
  assert (Hawait : match limiter.on_heap (await ch) w with
                   | Returns _ w' => limiter.gate w' = limiter.gate w
                   | Blocked w' => limiter.gate w' = limiter.gate w
                   | Panic _ => False
                   end).
  { destruct (limiter_await_same w ch) as [-> | ->]; reflexivity. }
  assert (Hleave : match limiter.on_heap (leave ch) w with
                   | Returns _ w' => limiter.gate w' = limiter.gate w
                   | Blocked w' => limiter.gate w' = limiter.gate w
                   | Panic _ => False
                   end).
  { destruct (wf_leave w ch) as (w' & -> & Hg & _). exact Hg. }
  assert (Hboth : match (limiter.on_heap (leave ch) ;; limiter.removeWaiter ch) w with
                  | Returns _ w' => limiter.gate w' = limiter.gate w
                  | Blocked w' => limiter.gate w' = limiter.gate w
                  | Panic _ => False
                  end).
  { unfold bind. destruct (wf_leave w ch) as (w' & -> & Hg & _).
    assert (Hmu' : limiter.mu (limiter.gate w') = true) by (rewrite Hg; exact Hmu).
    destruct (limiter_locked w' Hmu') as (_ & _ & ->). exact Hg. }
  destruct (limiter.timeout (limiter.gate w)); destruct c;
    try assumption; reflexivity.
Qed.

Lemma act_keeps_wf a (w : limiter.world) :
  limiter.wf w \/ limiter.mu (limiter.gate w) = true ->
  match limiter.act a w with
  | Returns _ w' => limiter.wf w' \/ limiter.mu (limiter.gate w') = true
  | Blocked w' => limiter.wf w' \/ limiter.mu (limiter.gate w') = true
  | Panic _ => False
  end.
Proof.
  intros Hinv.
  destruct (limiter.mu (limiter.gate w)) eqn:Hmu.
  - (* the mutex is held for good: every step blocks or leaves the gate alone *)
    destruct a as [|c ch|]; cbn [limiter.act].
    + unfold bind. destruct (limiter_locked w Hmu) as (_ & -> & _). auto.
    + pose proof (Wait_select_locked w c ch Hmu) as H.
      destruct (limiter.Wait_select c ch w) as [[] w'|w'|w'];
        [right; rewrite H; exact Hmu | right; rewrite H; exact Hmu | exact H].
    + destruct (limiter_locked w Hmu) as (-> & _). auto.
  - destruct Hinv as [Hwf | Hc]; [|discriminate].
    destruct a as [|c ch|]; cbn [limiter.act].
    + unfold bind. destruct (wf_proceed w Hwf Hmu) as (r & w' & -> & Hwf' & _).
      left. exact Hwf'.
    + unfold limiter.Wait_select, bind at 1, get.
      assert (Hawait : match limiter.on_heap (await ch) w with
                | Returns _ w' => limiter.wf w' \/ limiter.mu (limiter.gate w') = true
                | Blocked w' => limiter.wf w' \/ limiter.mu (limiter.gate w') = true
                | Panic _ => False
                end).
      { destruct (limiter_await_same w ch) as [-> | ->]; left; exact Hwf. }
      assert (Hleave : match limiter.on_heap (leave ch) w with
                | Returns _ w' => limiter.wf w' \/ limiter.mu (limiter.gate w') = true
                | Blocked w' => limiter.wf w' \/ limiter.mu (limiter.gate w') = true
                | Panic _ => False
                end).
      { destruct (wf_leave w ch) as (w' & -> & _ & H). left. exact (H Hwf). }
      assert (Hboth : match (limiter.on_heap (leave ch) ;; limiter.removeWaiter ch) w with
                | Returns _ w' => limiter.wf w' \/ limiter.mu (limiter.gate w') = true
                | Blocked w' => limiter.wf w' \/ limiter.mu (limiter.gate w') = true
                | Panic _ => False
                end).
      { unfold bind. destruct (wf_leave w ch) as (w' & -> & Hg & H).
        assert (Hmu' : limiter.mu (limiter.gate w') = false)
          by (rewrite Hg; exact Hmu).
        destruct (wf_removeWaiter w' ch (H Hwf) Hmu') as (w2 & -> & Hwf2 & _).
        left. exact Hwf2. }
      destruct (limiter.timeout (limiter.gate w)); destruct c;
        try assumption; left; exact Hwf.
    + pose proof (wf_Finish w Hwf Hmu) as H.
      destruct (limiter.Finish w) as [[] w'|w'|w'];
        [left; apply H | right; exact H | exact H].
Qed.

Lemma wf_start l :
  limiter.waitList l = [] -> limiter.wf (limiter.start l).
Proof.
  intros Hq. unfold limiter.wf, limiter.queued, limiter.start; simpl.
  rewrite Hq. split; [constructor|]. intros ch. simpl. split; [intros []|].
  intros (c & E & _). discriminate.
Qed.

(** X1: the FIFO gate never panics.  From a well-formed state (the
    queued channels are distinct and are exactly the open ones), and so
    from every fresh gate, whatever the goroutines do in whatever order
    (arrive, release, or have the select of any waiter take any of its
    cases) no step closes a closed channel or sends on one, and the
    state stays well-formed unless a release is stuck with the mutex. *)
Theorem fifo_gate_never_panics :
  (forall acts (w : limiter.world),
     limiter.wf w ->
     safe (fun w' => limiter.wf w' \/ limiter.mu (limiter.gate w') = true)
          (limiter.exec acts w))
  /\ (forall limit options,
        Forall (fun o => exists t, o = limiter.WithTimeout t) options ->
        limiter.wf (limiter.start (limiter.New limit options))).
Proof.
  split.
  - intros acts w Hwf.
    assert (H : limiter.wf w \/ limiter.mu (limiter.gate w) = true)
      by (left; exact Hwf).
    clear Hwf. revert w H.
    induction acts as [|a acts IH]; intros w H; cbn [limiter.exec]; [exact H|].
    pose proof (act_keeps_wf a w H) as Ha.
    destruct (limiter.act a w) as [[] w'|w'|w']; [apply IH, Ha | apply IH, Ha|].
    exact Ha.
  - intros limit options H. apply wf_start.
    destruct (limiter_New_fields options (limiter.mkLimiter 0 limit false [] None) H)
      as (_ & _ & _ & E). exact E.
Qed.

Lemma fifo_gate_never_panics_witness :
  limiter.wf (limiter.start (limiter.New 1 [limiter.WithTimeout 5]))
  /\ safe (fun w' => limiter.wf w' \/ limiter.mu (limiter.gate w') = true)
       (limiter.exec
          [limiter.Arrives; limiter.Arrives; limiter.Arrives;
           limiter.Resolves CaseCtx 0%nat; limiter.Resolves CaseTimer 1%nat;
           limiter.Releases; limiter.Resolves CaseTimer 0%nat; limiter.Arrives]
          (limiter.start (limiter.New 1 [limiter.WithTimeout 5]))).
Proof.
  assert (F : Forall (fun o => exists t, o = limiter.WithTimeout t)
                     [limiter.WithTimeout 5]).
  { constructor; [exists 5; reflexivity | constructor]. }
  pose proof (proj2 fifo_gate_never_panics 1 [limiter.WithTimeout 5] F) as W.
  split; [exact W|].
  exact (proj1 fifo_gate_never_panics _ _ W).
Defined.

(** ** The FIFO gate without cancellation *)

Lemma calm_proceed (w : limiter.world) :
  limiter.calm w ->
  exists r w',
    limiter.proceed w = Returns r w' /\ limiter.calm w'
    /\ limiter.limit (limiter.gate w') = limiter.limit (limiter.gate w)
    /\ delivered (limiter.heap w') = delivered (limiter.heap w)
    /\ if limiter.count (limiter.gate w) <? limiter.limit (limiter.gate w) then
         r = None
         /\ limiter.count (limiter.gate w') = Go.add (limiter.count (limiter.gate w)) 1
         /\ limiter.waitList (limiter.gate w') = limiter.waitList (limiter.gate w)
         /\ cells (limiter.heap w') = cells (limiter.heap w)
       else
         r = Some (length (cells (limiter.heap w)))
         /\ limiter.count (limiter.gate w') = limiter.count (limiter.gate w)
         /\ limiter.waitList (limiter.gate w')
            = limiter.waitList (limiter.gate w)
              ++ [limiter.mkWaiter (length (cells (limiter.heap w)))]
         /\ length (cells (limiter.heap w')) = S (length (cells (limiter.heap w))).
Proof.
  intros (Hwf & Hmu & Hl).
  destruct (wf_proceed w Hwf Hmu) as (r & w' & E & Hwf' & Hmu').
  exists r, w'. split; [exact E|].
  rewrite (limiter_proceed_eq w Hmu) in E. cbv zeta in E.
  destruct w as [[c l m q t] [cs dl]]; unfold limiter.calm, limiter.queued in *;
    simpl in *.
  destruct (c <? l); inversion E; subst; clear E.
  - split; [split; [exact Hwf'|]; split; [reflexivity | exact Hl]|].
    split; [reflexivity|]. split; [reflexivity|].
    split; [reflexivity|]. split; [reflexivity|]. split; reflexivity.
  - split; [split; [exact Hwf'|]; split; [reflexivity|]|].
    + unfold limiter.queued. simpl. intros ch Hin.
      rewrite map_app in Hin. apply in_app_or in Hin. destruct Hin as [Hin | Hin].
      * specialize (Hl ch Hin).
        rewrite lookup_app_l by (eapply lookup_lt_Some; exact Hl). exact Hl.
      * destruct Hin as [<- | []]. simpl. apply list_lookup_middle. reflexivity.
    + split; [reflexivity|]. split; [reflexivity|].
      split; [reflexivity|]. split; [reflexivity|]. split; [reflexivity|].
      simpl. rewrite length_app. simpl. lia.
Qed.

Lemma calm_Finish (w : limiter.world) :
  limiter.calm w ->
  exists w',
    limiter.Finish w = Returns tt w' /\ limiter.calm w'
    /\ limiter.limit (limiter.gate w') = limiter.limit (limiter.gate w)
    /\ limiter.count (limiter.gate w') = Go.sub (limiter.count (limiter.gate w)) 1
    /\ length (cells (limiter.heap w')) = length (cells (limiter.heap w))
    /\ limiter.waitList (limiter.gate w') = tl (limiter.waitList (limiter.gate w))
    /\ delivered (limiter.heap w')
       = delivered (limiter.heap w)
         ++ map limiter.done (firstn 1 (limiter.waitList (limiter.gate w))).
Proof.
  intros (Hwf & Hmu & Hl).
  pose proof (wf_Finish w Hwf Hmu) as H.
  rewrite (limiter_Finish_eq w Hmu) in *. cbv zeta in *.
  destruct w as [[c l m q t] [cs dl]]; unfold limiter.calm, limiter.queued in *;
    simpl in *.
  destruct q as [|first rest]; simpl in *.
  - eexists. split; [reflexivity|]. simpl. rewrite app_nil_r.
    split; [split; [apply H|]; split; [exact Hmu | exact Hl]|].
    split; [reflexivity|]. split; [reflexivity|].
    split; [reflexivity|]. split; reflexivity.
  - pose proof (Hl _ (or_introl eq_refl)) as Hc0.
    rewrite (fire_listening (mkChans cs dl) _ Hc0) in *. simpl in *.
    eexists. split; [reflexivity|]. simpl.
    split; [split; [apply H|]; split; [exact Hmu|]|].
    + unfold limiter.queued. simpl. intros ch Hin.
      destruct Hwf as [Hnd _]. simpl in Hnd. apply NoDup_cons in Hnd.
      destruct Hnd as [Hfirst _].
      rewrite list_lookup_insert_ne.
      * apply Hl. right. exact Hin.
      * intros E. subst ch. apply Hfirst, list_elem_of_In, Hin.
    + split; [reflexivity|]. split; [reflexivity|].
      split; [apply length_insert|]. split; reflexivity.
Qed.

Lemma Wait_select_done (w : limiter.world) ch :
  limiter.Wait_select CaseDone ch w = limiter.on_heap (await ch) w.
Proof.
  unfold limiter.Wait_select, bind, get.
  destruct (limiter.timeout (limiter.gate w)); reflexivity.
Qed.

Lemma await_listening (w : limiter.world) ch :
  cells (limiter.heap w) !! ch = Some (mkCell false Listening) ->
  limiter.on_heap (await ch) w = Blocked w.
Proof.
  intros H. destruct w as [g [cs dl]]. unfold limiter.on_heap, await. simpl in *.
  rewrite H. reflexivity.
Qed.

Lemma await_received (w : limiter.world) ch :
  cells (limiter.heap w) !! ch = Some (mkCell true Received) ->
  limiter.on_heap (await ch) w = Returns tt w.
Proof.
  intros H. destruct w as [g [cs dl]]. unfold limiter.on_heap, await. simpl in *.
  rewrite H. reflexivity.
Qed.

Lemma fifo_proceed_step (w : limiter.world) r w' :
  limiter.mu (limiter.gate w) = false ->
  limiter.proceed w = Returns r w' ->
  delivered (limiter.heap w') = delivered (limiter.heap w)
  /\ (forall ch c, cells (limiter.heap w) !! ch = Some c ->
                   cells (limiter.heap w') !! ch = Some c)
  /\ (forall ch, In ch (limiter.queued w') ->
                 In ch (limiter.queued w) \/ r = Some ch).
Proof.
  intros Hmu E. rewrite (limiter_proceed_eq w Hmu) in E. cbv zeta in E.
  destruct w as [[c l m q t] [cs dl]]; unfold limiter.queued in *; simpl in *.
  destruct (c <? l); inversion E; subst; clear E; simpl.
  - split; [reflexivity|]. split; [intros ch x H; exact H|].
    intros ch H. left. exact H.
  - split; [reflexivity|]. split.
    + intros ch x H. rewrite lookup_app_l by (eapply lookup_lt_Some; exact H).
      exact H.
    + intros ch H. rewrite map_app in H. apply in_app_or in H.
      destruct H as [H | [<- | []]]; [left; exact H | right; reflexivity].
Qed.

Lemma fifo_Finish_step (w : limiter.world) w' :
  limiter.calm w ->
  limiter.Finish w = Returns tt w' ->
  (forall ch c, cells (limiter.heap w) !! ch = Some c -> closed c = true ->
                cells (limiter.heap w') !! ch = Some c)
  /\ (forall ch, In ch (limiter.queued w') -> In ch (limiter.queued w))
  /\ exists new,
       delivered (limiter.heap w') = delivered (limiter.heap w) ++ new
       /\ forall ch, In ch new ->
            In ch (limiter.queued w)
            /\ cells (limiter.heap w') !! ch = Some (mkCell true Received).
Proof.
  intros (Hwf & Hmu & Hl) E.
  rewrite (limiter_Finish_eq w Hmu) in E. cbv zeta in E.
  destruct w as [[c l m q t] [cs dl]]; unfold limiter.queued in *; simpl in *.
  destruct q as [|first rest]; simpl in *.
  - inversion E; subst; clear E; simpl.
    split; [intros ch x H _; exact H|]. split; [intros ch []|].
    exists []. split; [symmetry; apply app_nil_r | intros ch []].
  - pose proof (Hl _ (or_introl eq_refl)) as Hc0.
    rewrite (fire_listening (mkChans cs dl) _ Hc0) in E. simpl in E.
    inversion E; subst; clear E; simpl. split; [|split].
    + intros ch x H Hx. rewrite list_lookup_insert_ne; [exact H|].
      intros Heq. subst ch. pose proof (eq_trans (eq_sym H) Hc0) as Hx0.
      inversion Hx0; subst x. discriminate Hx.
    + intros ch H. right. exact H.
    + exists [limiter.done first]. split; [reflexivity|].
      intros ch [<- | []]. split; [left; reflexivity|].
      apply list_lookup_insert_eq. eapply lookup_lt_Some. exact Hc0.
Qed.

(** The calls [cs] return from a calm state, in a calm state. *)
Lemma fifo_run_returns :
  forall cs (w : limiter.world),
    limiter.calm w ->
    limiter.count (limiter.gate w) <= limiter.limit (limiter.gate w) ->
    limiter.limit (limiter.gate w) <= Go.int_max ->
    Go.int_min + Z.of_nat (length cs) <= limiter.count (limiter.gate w) ->
    exists rs w',
      limiter.run cs w = Returns rs w'
      /\ limiter.calm w'
      /\ limiter.count (limiter.gate w') <= limiter.limit (limiter.gate w')
      /\ limiter.count (limiter.gate w) - Z.of_nat (limiter.releases cs)
         <= limiter.count (limiter.gate w').
Proof.
  induction cs as [|c cs IH]; intros w Hcalm Hle Hmax Hmin.
  - exists [], w. split; [reflexivity|]. split; [exact Hcalm|].
    split; [exact Hle|]. unfold limiter.releases. simpl. lia.
  - assert (Hlen : Z.of_nat (length (c :: cs)) = Z.of_nat (length cs) + 1)
      by (simpl length; lia).
    rewrite Hlen in Hmin. destruct c; cbn [limiter.run]; unfold bind at 1.
    + destruct (calm_proceed w Hcalm) as (r & w1 & -> & Hcalm1 & Hlim1 & _ & Hif).
      assert (Hc1 : limiter.count (limiter.gate w1) <= limiter.limit (limiter.gate w1)
                    /\ limiter.count (limiter.gate w)
                       <= limiter.count (limiter.gate w1)).
      { rewrite Hlim1.
        destruct (Z.ltb_spec (limiter.count (limiter.gate w))
                             (limiter.limit (limiter.gate w))) as [Hlt | Hge].
        - destruct Hif as (_ & -> & _). rewrite add_one_exact by lia. lia.
        - destruct Hif as (_ & -> & _). lia. }
      destruct (IH w1 Hcalm1) as (rs & w' & E & Hcalm' & Hle' & Hlow');
        [lia | lia | lia |].
      unfold bind at 1. rewrite E. exists (r :: rs), w'.
      split; [reflexivity|]. split; [exact Hcalm'|]. split; [exact Hle'|].
      unfold limiter.releases in *. simpl. lia.
    + destruct (calm_Finish w Hcalm) as (w1 & -> & Hcalm1 & Hlim1 & Hc1 & _).
      rewrite sub_one_exact in Hc1 by lia.
      destruct (IH w1 Hcalm1) as (rs & w' & E & Hcalm' & Hle' & Hlow');
        [lia | lia | lia |].
      rewrite E. exists rs, w'.
      split; [reflexivity|]. split; [exact Hcalm'|]. split; [exact Hle'|].
      unfold limiter.releases in *. simpl length.
      rewrite Nat2Z.inj_succ. lia.
Qed.

(** The signals the calls [cs] deliver go to callers that were queued
    or that the calls queue, and a channel that is closed stays as it
    is. *)
Lemma fifo_run_signals :
  forall cs (w : limiter.world) rs w',
    limiter.calm w ->
    limiter.run cs w = Returns rs w' ->
    (forall ch c, cells (limiter.heap w) !! ch = Some c -> closed c = true ->
                  cells (limiter.heap w') !! ch = Some c)
    /\ exists new,
         delivered (limiter.heap w') = delivered (limiter.heap w) ++ new
         /\ forall ch, In ch new ->
              (In ch (limiter.queued w) \/ In (Some ch) rs)
              /\ cells (limiter.heap w') !! ch = Some (mkCell true Received).
Proof.
  induction cs as [|c cs IH]; intros w rs w' Hcalm E.
  - inversion E; subst; clear E. split; [intros ch x H _; exact H|].
    exists []. split; [symmetry; apply app_nil_r | intros ch []].
  - destruct c; cbn [limiter.run] in E; unfold bind at 1 in E.
    + destruct (calm_proceed w Hcalm) as (r & w1 & E1 & Hcalm1 & _).
      rewrite E1 in E. unfold bind at 1 in E.
      destruct (limiter.run cs w1) as [rs1 w2|w2|w2] eqn:E2; try discriminate E.
      unfold ret in E. inversion E; subst; clear E.
      destruct (fifo_proceed_step w r w1 (proj1 (proj2 Hcalm)) E1)
        as (Hd1 & Hk1 & Hq1).
      destruct (IH w1 rs1 w' Hcalm1 E2) as (Hk2 & new & Hd2 & Hnew).
      split; [intros ch x H Hx; apply Hk2; [apply Hk1, H | exact Hx]|].
      exists new. split; [rewrite Hd2, Hd1; reflexivity|].
      intros ch Hin. destruct (Hnew ch Hin) as (Hor & Hcell).
      split; [|exact Hcell].
      destruct Hor as [Hq | Hr]; [|right; right; exact Hr].
      destruct (Hq1 ch Hq) as [Hq0 | ->]; [left; exact Hq0 | right; left; reflexivity].
    + destruct (calm_Finish w Hcalm) as (w1 & E1 & Hcalm1 & _).
      rewrite E1 in E.
      destruct (fifo_Finish_step w w1 Hcalm E1) as (Hk1 & Hq1 & new1 & Hd1 & Hnew1).
      destruct (IH w1 rs w' Hcalm1 E) as (Hk2 & new & Hd2 & Hnew).
      split; [intros ch x H Hx; apply Hk2; [apply Hk1; assumption | exact Hx]|].
      exists (new1 ++ new). split; [rewrite Hd2, Hd1, app_assoc; reflexivity|].
      intros ch Hin. apply in_app_or in Hin. destruct Hin as [Hin | Hin].
      * destruct (Hnew1 ch Hin) as (Hq & Hcell). split; [left; exact Hq|].
        apply Hk2; [exact Hcell | reflexivity].
      * destruct (Hnew ch Hin) as (Hor & Hcell). split; [|exact Hcell].
        destruct Hor as [Hq | Hr]; [left; apply Hq1, Hq | right; exact Hr].
Qed.

(** X2: the FIFO gate without cancellation or timeout.  In every
    sequence of acquire and release calls, from a state in which every
    queued caller is in its select, the critical section of every
    acquire and every release return: no release blocks on its hand-off
    and nothing panics.  The signals delivered meanwhile went to callers
    that were queued, each of which finds its channel signalled and
    returns from its wait; the callers still queued are suspended in
    their selects.  After the calls [count] is at most [limit], as long
    as the sequence is short enough for [count] not to wrap around. *)
Theorem fifo_calls_without_cancellation :
  forall cs (w : limiter.world),
    limiter.calm w ->
    limiter.count (limiter.gate w) <= limiter.limit (limiter.gate w) ->
    limiter.limit (limiter.gate w) <= Go.int_max ->
    Go.int_min + Z.of_nat (length cs) <= limiter.count (limiter.gate w) ->
    exists rs w' new,
      limiter.run cs w = Returns rs w'
      /\ limiter.calm w'
      /\ limiter.count (limiter.gate w') <= limiter.limit (limiter.gate w')
      /\ limiter.count (limiter.gate w) - Z.of_nat (limiter.releases cs)
         <= limiter.count (limiter.gate w')
      /\ delivered (limiter.heap w') = delivered (limiter.heap w) ++ new
      /\ (forall ch, In ch new ->
            (In ch (limiter.queued w) \/ In (Some ch) rs)
            /\ limiter.Wait_select CaseDone ch w' = Returns tt w')
      /\ (forall ch, In ch (limiter.queued w') ->
            limiter.Wait_select CaseDone ch w' = Blocked w').
Proof.
  intros cs w Hcalm Hle Hmax Hmin.
  destruct (fifo_run_returns cs w Hcalm Hle Hmax Hmin)
    as (rs & w' & E & Hcalm' & Hle' & Hlow').
  destruct (fifo_run_signals cs w rs w' Hcalm E) as (_ & new & Hd & Hnew).
  exists rs, w', new. split; [exact E|]. split; [exact Hcalm'|].
  split; [exact Hle'|]. split; [exact Hlow'|]. split; [exact Hd|]. split.
  - intros ch Hin. destruct (Hnew ch Hin) as (Hor & Hcell).
    split; [exact Hor|]. rewrite Wait_select_done. apply await_received, Hcell.
  - intros ch Hin. rewrite Wait_select_done. apply await_listening.
    destruct Hcalm' as (_ & _ & Hl). apply Hl, Hin.
Qed.

Lemma calm_start l :
  limiter.waitList l = [] -> limiter.mu l = false ->
  limiter.calm (limiter.start l).
Proof.
  intros Hq Hmu. split; [apply wf_start, Hq|]. split; [exact Hmu|].
  unfold limiter.queued, limiter.start; simpl. rewrite Hq. intros ch [].
Qed.

Lemma fifo_calls_without_cancellation_witness :
  limiter.calm (limiter.start (limiter.New 2 []))
  /\ 0 <= 2 /\ 2 <= Go.int_max /\ Go.int_min + 7 <= 0
  /\ exists rs w' new,
       limiter.run
         [limiter.Acquire; limiter.Acquire; limiter.Acquire; limiter.Release;
          limiter.Acquire; limiter.Release; limiter.Release]
         (limiter.start (limiter.New 2 [])) = Returns rs w'
       /\ limiter.calm w'
       /\ limiter.count (limiter.gate w') <= limiter.limit (limiter.gate w')
       /\ 0 - 3 <= limiter.count (limiter.gate w')
       /\ delivered (limiter.heap w') = [] ++ new.
Proof.
  assert (C : limiter.calm (limiter.start (limiter.New 2 [])))
    by (apply calm_start; reflexivity).
  assert (H1 : 0 <= 2) by discriminate.
  assert (H2 : 2 <= Go.int_max) by discriminate.
  assert (H3 : Go.int_min + 7 <= 0) by discriminate.
  split; [exact C|]. split; [exact H1|]. split; [exact H2|]. split; [exact H3|].
  destruct (fifo_calls_without_cancellation
              [limiter.Acquire; limiter.Acquire; limiter.Acquire; limiter.Release;
               limiter.Acquire; limiter.Release; limiter.Release]
              (limiter.start (limiter.New 2 [])) C H1 H2 H3)
    as (rs & w' & new & E & Hc & Hle & Hlow & Hd & _).
  exists rs, w', new. split; [exact E|]. split; [exact Hc|].
  split; [exact Hle|]. split; [exact Hlow | exact Hd].
Defined.

(** ** The FIFO gate: order of admission *)

Lemma acquire_n_full n : forall (w : limiter.world),
  limiter.calm w ->
  limiter.limit (limiter.gate w) <= limiter.count (limiter.gate w) ->
  exists w',
    limiter.acquire_n n w
      = Returns (map Some (seq (length (cells (limiter.heap w))) n)) w'
    /\ limiter.calm w'
    /\ limiter.count (limiter.gate w') = limiter.count (limiter.gate w)
    /\ limiter.limit (limiter.gate w') = limiter.limit (limiter.gate w)
    /\ delivered (limiter.heap w') = delivered (limiter.heap w)
    /\ limiter.queued w'
       = limiter.queued w ++ seq (length (cells (limiter.heap w))) n.
Proof.
  induction n as [|n IH]; intros w Hcalm Hfull.
  - exists w. simpl. unfold ret. rewrite app_nil_r.
    split; [reflexivity|]. split; [exact Hcalm|]. repeat split.
  - cbn [limiter.acquire_n]. unfold bind at 1.
    destruct (calm_proceed w Hcalm) as (r & w1 & -> & Hcalm1 & Hlim1 & Hdel1 & Hif).
    destruct (Z.ltb_spec (limiter.count (limiter.gate w))
                         (limiter.limit (limiter.gate w))) as [Hlt | _]; [lia|].
    destruct Hif as (-> & Hc1 & Hq1 & Hlen1).
    destruct (IH w1 Hcalm1) as (w' & E & Hcalm' & Hc' & Hlim' & Hdel' & Hq');
      [rewrite Hlim1, Hc1; exact Hfull|].
    unfold bind at 1. rewrite E. exists w'. unfold ret.
    rewrite Hlen1. split; [reflexivity|]. split; [exact Hcalm'|].
    split; [congruence|]. split; [congruence|]. split; [congruence|].
    rewrite Hq', Hlen1. unfold limiter.queued. rewrite Hq1, map_app.
    simpl. rewrite <- app_assoc. reflexivity.
Qed.

Lemma release_n_calm n : forall (w : limiter.world),
  limiter.calm w ->
  length (limiter.waitList (limiter.gate w)) = n ->
  exists w',
    limiter.release_n n w = Returns tt w'
    /\ limiter.calm w'
    /\ limiter.waitList (limiter.gate w') = []
    /\ delivered (limiter.heap w') = delivered (limiter.heap w) ++ limiter.queued w.
Proof.
  induction n as [|n IH]; intros w Hcalm Hlen.
  - exists w. split; [reflexivity|]. split; [exact Hcalm|].
    unfold limiter.queued.
    destruct (limiter.waitList (limiter.gate w)); [|discriminate].
    simpl. rewrite app_nil_r. split; reflexivity.
  - cbn [limiter.release_n]. unfold bind at 1.
    destruct (calm_Finish w Hcalm) as (w1 & -> & Hcalm1 & _ & _ & _ & Hq1 & Hdel1).
    destruct (IH w1 Hcalm1) as (w' & E & Hcalm' & Hq' & Hdel').
    { rewrite Hq1. destruct (limiter.waitList (limiter.gate w)); [discriminate|].
      simpl in *. lia. }
    rewrite E. exists w'. split; [reflexivity|]. split; [exact Hcalm'|].
    split; [exact Hq'|]. rewrite Hdel', Hdel1. unfold limiter.queued. rewrite Hq1.
    destruct (limiter.waitList (limiter.gate w)); [discriminate|].
    simpl. rewrite <- app_assoc. reflexivity.
Qed.

(** X3: the FIFO gate admits in arrival order.  At a gate that is full,
    with nobody cancelled or timed out, the callers that arrive are
    queued behind those already waiting, and the releases that follow
    grant first the callers that were waiting, in the order of the wait
    list, then the new ones in their order of arrival; no entry is left
    in the wait list. *)
Theorem fifo_admits_in_arrival_order :
  forall n (w : limiter.world),
    limiter.calm w ->
    limiter.limit (limiter.gate w) <= limiter.count (limiter.gate w) ->
    exists w',
      (limiter.acquire_n n ;;
       limiter.release_n (length (limiter.waitList (limiter.gate w)) + n)) w
        = Returns tt w'
      /\ delivered (limiter.heap w')
         = delivered (limiter.heap w) ++ limiter.queued w
           ++ seq (length (cells (limiter.heap w))) n
      /\ limiter.waitList (limiter.gate w') = [].
Proof.
  intros n w Hcalm Hfull.
  destruct (acquire_n_full n w Hcalm Hfull) as (w1 & E1 & Hcalm1 & _ & _ & Hdel1 & Hq1).
  destruct (release_n_calm (length (limiter.waitList (limiter.gate w)) + n) w1 Hcalm1)
    as (w' & E2 & _ & Hq' & Hdel').
  { transitivity (length (limiter.queued w1));
      [unfold limiter.queued; rewrite length_map; reflexivity|].
    rewrite Hq1, length_app, length_seq. unfold limiter.queued.
    rewrite length_map. reflexivity. }
  exists w'. unfold bind. rewrite E1, E2. split; [reflexivity|].
  split; [|exact Hq']. rewrite Hdel', Hdel1, Hq1. reflexivity.
Qed.

Lemma fifo_admits_in_arrival_order_witness :
  limiter.calm sample.fifo_queued
  /\ limiter.limit (limiter.gate sample.fifo_queued)
     <= limiter.count (limiter.gate sample.fifo_queued)
  /\ exists w',
       (limiter.acquire_n 3 ;; limiter.release_n (1 + 3)) sample.fifo_queued
         = Returns tt w'
       /\ delivered (limiter.heap w') = [] ++ [0%nat] ++ seq 1 3
       /\ limiter.waitList (limiter.gate w') = [].
Proof.
  assert (C : limiter.calm sample.fifo_queued).
  { destruct (calm_proceed _ (calm_start (limiter.New 1 []) eq_refl eq_refl))
      as (r & w1 & E1 & C1 & _).
    destruct (calm_proceed _ C1) as (r2 & w2 & E2 & C2 & _).
    unfold sample.fifo_queued, bind. rewrite E1, E2. exact C2. }
  assert (F : limiter.limit (limiter.gate sample.fifo_queued)
              <= limiter.count (limiter.gate sample.fifo_queued))
    by discriminate.
  split; [exact C|]. split; [exact F|].
  exact (fifo_admits_in_arrival_order 3 sample.fifo_queued C F).
Defined.

(** ** The FIFO gate: giving up *)


(** X4: removing a queued entry of the FIFO gate.  The removal takes
    exactly that entry out of the wait list, the others keep their
    order, [count] goes up by one and the entry's channel is closed; a
    second removal of the same entry changes nothing. *)
Theorem fifo_removeWaiter_removes_once :
  forall (w : limiter.world) ch,
    limiter.wf w ->
    limiter.mu (limiter.gate w) = false ->
    In ch (limiter.queued w) ->
    exists l1 x l2 w1,
      limiter.waitList (limiter.gate w) = l1 ++ x :: l2
      /\ limiter.done x = ch
      /\ limiter.removeWaiter ch w = Returns tt w1
      /\ limiter.waitList (limiter.gate w1) = l1 ++ l2
      /\ limiter.count (limiter.gate w1) = Go.add (limiter.count (limiter.gate w)) 1
      /\ fired (limiter.heap w1) ch = true
      /\ delivered (limiter.heap w1) = delivered (limiter.heap w)
      /\ limiter.removeWaiter ch w1 = Returns tt w1.
Proof.
  intros w ch [Hnd Hiff] Hmu Hin.
  destruct (remove_first_In ch _ Hin) as [q' Hrm].
  destruct (remove_first_Some _ _ _ Hrm) as (l1 & x & l2 & Hq & Hx & -> & Hn1).
  destruct (proj1 (Hiff ch) Hin) as (c0 & Hc0 & Hopen).
  exists l1, x, l2.
  rewrite (limiter_removeWaiter_eq w ch Hmu). cbv zeta. rewrite Hrm.
  unfold close. rewrite Hc0, Hopen.
  eexists. split; [exact Hq|]. split; [exact Hx|]. split; [reflexivity|].
  split; [reflexivity|]. split; [reflexivity|].
  split; [|split; [reflexivity|]].
  - unfold fired. simpl.
    rewrite list_lookup_insert_eq by (eapply lookup_lt_Some; exact Hc0).
    reflexivity.
  - apply limiter_removeWaiter_absent; [reflexivity|]. simpl.
    apply remove_first_absent. intros y Hy Hd.
    unfold limiter.queued in Hnd. rewrite Hq, map_app in Hnd. simpl in Hnd.
    rewrite Hx in Hnd. destruct (NoDup_app_middle _ _ _ Hnd) as [_ Hnot].
    apply Hnot. rewrite <- map_app, <- Hd. apply in_map. exact Hy.
Qed.

Lemma fifo_removeWaiter_removes_once_witness :
  limiter.wf sample.fifo_queued
  /\ limiter.mu (limiter.gate sample.fifo_queued) = false
  /\ In 0%nat (limiter.queued sample.fifo_queued)
  /\ exists l1 x l2 w1,
       limiter.waitList (limiter.gate sample.fifo_queued) = l1 ++ x :: l2
       /\ limiter.done x = 0%nat
       /\ limiter.removeWaiter 0%nat sample.fifo_queued = Returns tt w1
       /\ limiter.waitList (limiter.gate w1) = l1 ++ l2
       /\ limiter.count (limiter.gate w1)
          = Go.add (limiter.count (limiter.gate sample.fifo_queued)) 1
       /\ fired (limiter.heap w1) 0%nat = true
       /\ delivered (limiter.heap w1) = delivered (limiter.heap sample.fifo_queued)
       /\ limiter.removeWaiter 0%nat w1 = Returns tt w1.
Proof.
  assert (C : limiter.wf sample.fifo_queued).
  { destruct (calm_proceed _ (calm_start (limiter.New 1 []) eq_refl eq_refl))
      as (r & w1 & E1 & C1 & _).
    destruct (calm_proceed _ C1) as (r2 & w2 & E2 & C2 & _).
    unfold sample.fifo_queued, bind. rewrite E1, E2. apply C2. }
  assert (I0 : In 0%nat (limiter.queued sample.fifo_queued))
    by (left; reflexivity).
  split; [exact C|]. split; [reflexivity|]. split; [exact I0|].
  exact (fifo_removeWaiter_removes_once sample.fifo_queued 0%nat C eq_refl I0).
Defined.



(** ** The priority gate: aging up to High *)

Lemma set_queue_same (w : priority.world) :
  priority.set_queue (priority.waitList (priority.gate w)) (priority.items w) w = w.
Proof. destruct w as [[c l m q d t] its h]. reflexivity. Qed.

Lemma item_eta (it : queue.Item) :
  queue.mkItem (queue.Priority it) (queue.Done it) (queue.sequence it) = it.
Proof. destruct it; reflexivity. Qed.

(** One turn of an aging loop on the ticker case: out of the select, the
    promotion under the mutex, back to the select. *)
Lemma tick_step (w : priority.world) h it cl :
  priority.mu (priority.gate w) = false ->
  priority.items w !! h = Some it ->
  queue.queued h (priority.waitList (priority.gate w)) = true ->
  priority.Low <= queue.Priority it <= priority.High ->
  cells (priority.heap w) !! queue.Done it = Some (mkCell cl Listening) ->
  (priority.abandon h ;; priority.promote h ;; priority.resume h) w
  = Returns tt
      (priority.set_queue (priority.waitList (priority.gate w))
         (<[h := queue.mkItem (Z.min priority.High (queue.Priority it + 1))
                              (queue.Done it) (queue.sequence it)]>
            (priority.items w)) w).
Proof.
  unfold priority.Low, priority.High. intros Hmu Hit Hq Hp Hc.
  assert (Hlen : (h < length (priority.items w))%nat)
    by (eapply lookup_lt_Some; exact Hit).
  assert (Hclen : (queue.Done it < length (cells (priority.heap w)))%nat)
    by (eapply lookup_lt_Some; exact Hc).
  destruct w as [[n l m q d t] its [cs dl]]; simpl in *. subst m.
  unfold bind at 1, priority.abandon, bind at 1, priority.item. simpl.
  rewrite Hit. simpl. unfold priority.on_heap at 1, leave. simpl. rewrite Hc. simpl.
  unfold bind at 1. rewrite priority_promote_eq by reflexivity. simpl. rewrite Hit.
  unfold priority.High.
  destruct (Z.ltb_spec (queue.Priority it) 4) as [Hlt | Hge].
  - unfold queue.Update. rewrite Hq, Hit.
    rewrite add_one_exact by (unfold Go.int_min, Go.int_max; lia).
    replace (Z.min 4 (queue.Priority it + 1)) with (queue.Priority it + 1) by lia.
    unfold priority.resume, bind, priority.item. simpl.
    rewrite list_lookup_insert_eq by exact Hlen. simpl.
    unfold priority.on_heap, enter. simpl.
    rewrite list_lookup_insert_eq by exact Hclen. simpl.
    rewrite list_insert_insert_eq.
    rewrite (list_insert_id cs (queue.Done it) (mkCell cl Listening) Hc). reflexivity.
  - replace (Z.min 4 (queue.Priority it + 1)) with (queue.Priority it) by lia.
    rewrite item_eta.
    rewrite (list_insert_id its h it Hit : <[h := it]> its = its).
    unfold priority.resume, bind, priority.item. simpl. rewrite Hit. simpl.
    unfold priority.on_heap, enter. simpl.
    rewrite list_lookup_insert_eq by exact Hclen. simpl.
    rewrite list_insert_insert_eq.
    rewrite (list_insert_id cs (queue.Done it) (mkCell cl Listening) Hc). reflexivity.
Qed.

(** [k] ticks with the cancel token not fired, then the cases [rest]. *)
Lemma ticks_then k : forall rest (w : priority.world) h it cl,
  priority.mu (priority.gate w) = false ->
  priority.items w !! h = Some it ->
  queue.queued h (priority.waitList (priority.gate w)) = true ->
  priority.Low <= queue.Priority it <= priority.High ->
  cells (priority.heap w) !! queue.Done it = Some (mkCell cl Listening) ->
  let w' :=
    priority.set_queue (priority.waitList (priority.gate w))
      (<[h := queue.mkItem (Z.min priority.High (queue.Priority it + Z.of_nat k))
                           (queue.Done it) (queue.sequence it)]>
         (priority.items w)) w in
  priority.handleDynamicPriority_loop (repeat (CaseTicker false) k ++ rest) h w
  = priority.handleDynamicPriority_loop rest h w'
  /\ priority.dynamicPriorityAndTimeout_loop (repeat (CaseTicker false) k ++ rest) h w
     = priority.dynamicPriorityAndTimeout_loop rest h w'.
Proof.
  induction k as [|k IH]; intros rest w h it cl Hmu Hit Hq Hp Hc; cbv zeta.
  - replace (Z.min priority.High (queue.Priority it + Z.of_nat 0))
      with (queue.Priority it) by (unfold priority.High in *; lia).
    rewrite item_eta, list_insert_id by exact Hit. rewrite set_queue_same.
    split; reflexivity.
  - pose proof (tick_step w h it cl Hmu Hit Hq Hp Hc) as Hstep.
    set (it1 := queue.mkItem (Z.min priority.High (queue.Priority it + 1))
                             (queue.Done it) (queue.sequence it)) in *.
    set (w1 := priority.set_queue (priority.waitList (priority.gate w))
                 (<[h := it1]> (priority.items w)) w) in *.
    assert (Hlen : (h < length (priority.items w))%nat)
      by (eapply lookup_lt_Some; exact Hit).
    assert (Hw1 : priority.waitList (priority.gate w1)
                  = priority.waitList (priority.gate w)
                  /\ priority.items w1 = <[h := it1]> (priority.items w)
                  /\ priority.mu (priority.gate w1) = false
                  /\ priority.heap w1 = priority.heap w)
      by (destruct w as [[? ? ? ? ? ?] ? ?]; repeat split; exact Hmu).
    destruct Hw1 as (Hq1 & Hi1 & Hmu1 & Hh1).
    assert (Hsq : forall its,
              priority.set_queue (priority.waitList (priority.gate w)) its w1
              = priority.set_queue (priority.waitList (priority.gate w)) its w)
      by (intros; destruct w as [[? ? ? ? ? ?] ? ?]; reflexivity).
    destruct (IH rest w1 h it1 cl) as [E1 E2].
    + exact Hmu1.
    + rewrite Hi1. apply list_lookup_insert_eq. exact Hlen.
    + rewrite Hq1. exact Hq.
    + subst it1. unfold priority.Low, priority.High in *. simpl. lia.
    + rewrite Hh1. exact Hc.
    + cbv zeta in E1, E2.
      rewrite Hq1, Hi1, list_insert_insert_eq, Hsq in E1, E2.
      replace (Z.min priority.High (queue.Priority it1 + Z.of_nat k))
        with (Z.min priority.High (queue.Priority it + Z.of_nat (S k))) in E1, E2
        by (subst it1; unfold priority.High; simpl queue.Priority; lia).
      subst it1. cbn [queue.Done queue.sequence] in E1, E2.
      cbn [repeat app priority.handleDynamicPriority_loop
           priority.dynamicPriorityAndTimeout_loop].
      assert (Hs : forall (k1 : M priority.world unit),
                (priority.abandon h ;; priority.promote h ;; priority.resume h ;; k1) w
                = k1 w1).
      { intros k1. unfold bind in *.
        destruct (priority.abandon h w) as [[] wa|wa|wa]; try discriminate.
        destruct (priority.promote h wa) as [[] wb|wb|wb]; try discriminate.
        destruct (priority.resume h wb) as [[] wc|wc|wc]; try discriminate.
        inversion Hstep; subst. reflexivity. }
      split.
      * rewrite Hs. exact E1.
      * change ((priority.abandon h ;;
                 (priority.promote h ;; priority.resume h ;;
                  priority.dynamicPriorityAndTimeout_loop
                    (repeat (CaseTicker false) k ++ rest) h)) w
                = priority.dynamicPriorityAndTimeout_loop rest h
                    (priority.set_queue (priority.waitList (priority.gate w))
                       (<[h := queue.mkItem
                                 (Z.min priority.High
                                        (queue.Priority it + Z.of_nat (S k)))
                                 (queue.Done it) (queue.sequence it)]>
                          (priority.items w)) w)).
        rewrite Hs. exact E2.
Qed.

(** X7: aging.  At a gate whose aging period is positive, for a queued
    entry at one of the four levels whose caller is in its select, [k]
    ticks of the aging loop (with the cancel token not fired) raise its
    priority by [k] levels but not above High = 4, and change nothing
    else: neither its channel nor its arrival sequence, no other item,
    not the queue and not [count]; the caller is in its select again and
    still waiting.  This holds for the loop with aging only and, at a
    gate with a timeout, for the loop with aging and a timeout; a Low
    entry is at High after three ticks.  With an aging period that is
    not positive both loops panic in [time.NewTicker] before their
    first select. *)
Theorem aging_raises_priority_up_to_High :
  (forall k (w : priority.world) h it d cl,
     priority.mu (priority.gate w) = false ->
     priority.dynamicPeriod (priority.gate w) = Some d ->
     0 < time.milliseconds d ->
     priority.items w !! h = Some it ->
     queue.queued h (priority.waitList (priority.gate w)) = true ->
     priority.Low <= queue.Priority it <= priority.High ->
     cells (priority.heap w) !! queue.Done it = Some (mkCell cl Listening) ->
     let w' :=
       priority.set_queue (priority.waitList (priority.gate w))
         (<[h := queue.mkItem (Z.min priority.High (queue.Priority it + Z.of_nat k))
                              (queue.Done it) (queue.sequence it)]>
            (priority.items w)) w in
     priority.handleDynamicPriority (repeat (CaseTicker false) k) h w = Blocked w'
     /\ (priority.timeout (priority.gate w) <> None ->
         priority.dynamicPriorityAndTimeout (repeat (CaseTicker false) k) h w
         = Blocked w'))
  /\
  (forall cs (w : priority.world) h d,
     priority.dynamicPeriod (priority.gate w) = Some d ->
     time.milliseconds d <= 0 ->
     priority.handleDynamicPriority cs h w = Panic w
     /\ priority.dynamicPriorityAndTimeout cs h w = Panic w).
Proof.
  split.
  - intros k w h it d cl Hmu Hd Hpos Hit Hq Hp Hc w'.
    destruct (ticks_then k [] w h it cl Hmu Hit Hq Hp Hc) as [E1 E2].
    cbv zeta in E1, E2. rewrite app_nil_r in E1, E2. fold w' in E1, E2.
    unfold priority.handleDynamicPriority, priority.dynamicPriorityAndTimeout,
      bind at 1, get, bind at 1, time.NewTicker.
    rewrite Hd. destruct (Z.leb_spec (time.milliseconds d) 0) as [Hle | _]; [lia|].
    split; [exact E1|]. intros Ht.
    unfold bind at 1, get, bind at 1. rewrite Hd.
    destruct (Z.leb_spec (time.milliseconds d) 0) as [Hle | _]; [lia|].
    destruct (priority.timeout (priority.gate w)); [exact E2 | congruence].
  - intros cs w h d Hd Hle.
    unfold priority.handleDynamicPriority, priority.dynamicPriorityAndTimeout,
      bind, get, time.NewTicker.
    rewrite Hd. destruct (Z.leb_spec (time.milliseconds d) 0) as [_ | Hlt]; [|lia].
    split; reflexivity.
Qed.

Lemma aging_raises_priority_up_to_High_witness :
  (priority.mu (priority.gate sample.aging_queued) = false
   /\ priority.dynamicPeriod (priority.gate sample.aging_queued) = Some 3
   /\ 0 < time.milliseconds 3
   /\ priority.items sample.aging_queued !! 0%nat
      = Some (queue.mkItem priority.Low 0%nat 0%nat)
   /\ queue.queued 0%nat (priority.waitList (priority.gate sample.aging_queued))
      = true
   /\ priority.Low <= priority.Low <= priority.High
   /\ cells (priority.heap sample.aging_queued) !! 0%nat
      = Some (mkCell false Listening)
   /\ priority.handleDynamicPriority (repeat (CaseTicker false) 3) 0%nat
        sample.aging_queued
      = Blocked
          (priority.set_queue
             (priority.waitList (priority.gate sample.aging_queued))
             (<[0%nat := queue.mkItem (Z.min priority.High (priority.Low + 3))
                                      0%nat 0%nat]>
                (priority.items sample.aging_queued))
             sample.aging_queued))
  /\
  (priority.dynamicPeriod (priority.gate sample.aging_zero_queued) = Some 0
   /\ time.milliseconds 0 <= 0
   /\ priority.handleDynamicPriority [CaseTicker false] 0%nat
        sample.aging_zero_queued
      = Panic sample.aging_zero_queued).
Proof.
  assert (R : priority.Low <= priority.Low <= priority.High)
    by (split; discriminate).
  assert (P3 : 0 < time.milliseconds 3) by reflexivity.
  assert (P0 : time.milliseconds 0 <= 0) by discriminate.
  split.
  - do 2 (split; [reflexivity|]). split; [exact P3|].
    do 2 (split; [reflexivity|]). split; [exact R|]. split; [reflexivity|].
    exact (proj1 (proj1 aging_raises_priority_up_to_High 3%nat sample.aging_queued
                    0%nat (queue.mkItem priority.Low 0%nat 0%nat) 3 false
                    eq_refl eq_refl P3 eq_refl eq_refl R eq_refl)).
  - split; [reflexivity|]. split; [exact P0|].
    exact (proj1 (proj2 aging_raises_priority_up_to_High [CaseTicker false]
                    sample.aging_zero_queued 0%nat 0 eq_refl P0)).
Defined.

(** ** A release during a tick *)

(** X14: a release that comes while an aging caller is between its
    select and the mutex never returns.  At a gate with aging (limit 1,
    one caller inside, one queued at Low), with or without a timeout,
    the select of the queued caller takes the case of the ticker; before
    that caller gets the mutex the caller inside releases.  The release
    pops the entry and blocks in the send, the mutex held, because the
    receiver is not in its select; the promotion of the tick then blocks
    at the mutex, so the receiver never comes back to its select.  When
    the whole tick comes before the release, the release returns. *)
Theorem release_during_aging_tick_blocks :
  (exists w1 wb w2,
     priority.abandon 0%nat sample.aging_queued = Returns tt w1
     /\ priority.mu (priority.gate w1) = false
     /\ queue.queued 0%nat (priority.waitList (priority.gate w1)) = true
     /\ receiver_of (priority.heap w1) 0%nat = Some Left
     /\ priority.Finish w1 = Blocked wb
     /\ priority.mu (priority.gate wb) = true
     /\ fired (priority.heap wb) 0%nat = false
     /\ priority.promote 0%nat wb = Blocked wb
     /\ (priority.abandon 0%nat ;; priority.promote 0%nat ;; priority.resume 0%nat)
          sample.aging_queued = Returns tt w2
     /\ returned (priority.Finish w2) = true)
  /\
  (exists w1 wb w2,
     priority.abandon 0%nat sample.aging_timeout_queued = Returns tt w1
     /\ priority.mu (priority.gate w1) = false
     /\ queue.queued 0%nat (priority.waitList (priority.gate w1)) = true
     /\ receiver_of (priority.heap w1) 0%nat = Some Left
     /\ priority.Finish w1 = Blocked wb
     /\ priority.mu (priority.gate wb) = true
     /\ fired (priority.heap wb) 0%nat = false
     /\ priority.promote 0%nat wb = Blocked wb
     /\ (priority.abandon 0%nat ;; priority.promote 0%nat ;; priority.resume 0%nat)
          sample.aging_timeout_queued = Returns tt w2
     /\ returned (priority.Finish w2) = true).
Proof.
  split.
  - do 3 eexists. split; [vm_compute; reflexivity|].
    do 3 (split; [reflexivity|]). split; [vm_compute; reflexivity|].
    do 2 (split; [reflexivity|]). split; [vm_compute; reflexivity|].
    split; [vm_compute; reflexivity|]. vm_compute. reflexivity.
  - do 3 eexists. split; [vm_compute; reflexivity|].
    do 3 (split; [reflexivity|]). split; [vm_compute; reflexivity|].
    do 2 (split; [reflexivity|]). split; [vm_compute; reflexivity|].
    split; [vm_compute; reflexivity|]. vm_compute. reflexivity.
Qed.

(** ** The priority gate: giving up *)






(** ** The priority gate: which entry a release grants *)

Lemma best_is_first its es h it :
  In h es -> its !! h = Some it ->
  (forall e, In e es -> e <> h ->
             exists ie, its !! e = Some ie /\ queue.before it ie = true) ->
  queue.best its es = Some h.
Proof.
  intros Hin Hit Hfirst.
  assert (Hv : forall e, In e es -> is_Some (its !! e)).
  { intros e He. destruct (Nat.eq_dec e h) as [-> | Hne]; [eauto|].
    destruct (Hfirst e He Hne) as (ie & E & _). eauto. }
  destruct (queue.best its es) as [b|] eqn:Hb.
  - destruct (Nat.eq_dec b h) as [-> | Hne]; [reflexivity|].
    pose proof (best_max its es b Hv Hb h Hin) as Hm.
    destruct (Hfirst b (best_In _ _ _ Hb) Hne) as (ib & Eb & Hbefore).
    unfold queue.before_at in Hm. rewrite Hit, Eb in Hm. congruence.
  - apply best_None in Hb. subst es. contradiction.
Qed.

(** X8: the release of the priority gate grants the first entry of the
    ordering.  If a queued entry is ordered before every other queued
    entry (higher priority, or equal priority and earlier arrival) and
    its caller is still waiting, a release that gets the mutex returns
    and grants exactly that entry: the signal is delivered on its
    channel, the channel is closed, the entry leaves the queue and the
    other entries stay. *)
Theorem priority_Finish_grants_first_in_order :
  forall (w : priority.world) h it,
    priority.mu (priority.gate w) = false ->
    In h (queue.entries (priority.waitList (priority.gate w))) ->
    priority.items w !! h = Some it ->
    (forall e, In e (queue.entries (priority.waitList (priority.gate w))) ->
               e <> h ->
               exists ie, priority.items w !! e = Some ie
                          /\ queue.before it ie = true) ->
    cells (priority.heap w) !! queue.Done it = Some (mkCell false Listening) ->
    exists w',
      priority.Finish w = Returns tt w'
      /\ delivered (priority.heap w') = delivered (priority.heap w) ++ [queue.Done it]
      /\ fired (priority.heap w') (queue.Done it) = true
      /\ queue.entries (priority.waitList (priority.gate w'))
         = queue.remove_entry h (queue.entries (priority.waitList (priority.gate w)))
      /\ priority.items w' = priority.items w
      /\ priority.count (priority.gate w')
         = Go.sub (priority.count (priority.gate w)) 1.
Proof.
  intros w h it Hmu Hin Hit Hfirst Hc.
  pose proof (best_is_first _ _ _ _ Hin Hit Hfirst) as Hb.
  rewrite (priority_Finish_eq w Hmu). cbv zeta.
  unfold queue.Pop. rewrite Hb, Hit, (fire_listening _ _ Hc).
  eexists. split; [reflexivity|].
  destruct w as [[c l m [es n] d t] its hp]; simpl in *.
  split; [reflexivity|]. split; [|repeat split].
  unfold fired. simpl.
  rewrite list_lookup_insert_eq by (eapply lookup_lt_Some; exact Hc).
  reflexivity.
Qed.

Lemma priority_Finish_grants_first_in_order_witness :
  priority.mu (priority.gate sample.prio_queued) = false
  /\ In 2%nat (queue.entries (priority.waitList (priority.gate sample.prio_queued)))
  /\ priority.items sample.prio_queued !! 2%nat
     = Some (queue.mkItem priority.High 2%nat 2%nat)
  /\ (forall e,
        In e (queue.entries (priority.waitList (priority.gate sample.prio_queued))) ->
        e <> 2%nat ->
        exists ie, priority.items sample.prio_queued !! e = Some ie
                   /\ queue.before (queue.mkItem priority.High 2%nat 2%nat) ie = true)
  /\ cells (priority.heap sample.prio_queued) !! 2%nat
     = Some (mkCell false Listening)
  /\ exists w',
       priority.Finish sample.prio_queued = Returns tt w'
       /\ delivered (priority.heap w') = [] ++ [2%nat]
       /\ queue.entries (priority.waitList (priority.gate w')) = [0%nat; 1%nat].
Proof.
  assert (I2 : In 2%nat (queue.entries
                 (priority.waitList (priority.gate sample.prio_queued))))
    by (right; right; left; reflexivity).
  assert (B : forall e,
        In e (queue.entries (priority.waitList (priority.gate sample.prio_queued))) ->
        e <> 2%nat ->
        exists ie, priority.items sample.prio_queued !! e = Some ie
                   /\ queue.before (queue.mkItem priority.High 2%nat 2%nat) ie = true).
  { intros e He Hne. vm_compute in He.
    destruct He as [<- | [<- | [<- | []]]]; [| |congruence];
      eexists; split; reflexivity. }
  split; [reflexivity|]. split; [exact I2|]. split; [reflexivity|].
  split; [exact B|]. split; [reflexivity|].
  destruct (priority_Finish_grants_first_in_order sample.prio_queued 2%nat
              (queue.mkItem priority.High 2%nat 2%nat) eq_refl I2 eq_refl B eq_refl)
    as (w' & E & Hd & _ & Hes & _).
  exists w'. split; [exact E|]. split; [exact Hd | exact Hes].
Defined.

(** ** The mutex *)

Lemma on_return_bind {S A B} (P : S -> Prop) (m : M S A) (k : A -> M S B) s :
  on_return (fun _ => P) (m s) ->
  (forall a s', P s' -> on_return (fun _ => P) (k a s')) ->
  on_return (fun _ => P) (bind m k s).
Proof.
  unfold bind. destruct (m s) as [a s'|s'|s']; simpl; intros H Hk;
    [apply Hk, H | exact I | exact I].
Qed.

Lemma limiter_on_heap_gate {A} (m : M chans A) (w : limiter.world) :
  limiter.gate (final (limiter.on_heap m w)) = limiter.gate w.
Proof.
  unfold limiter.on_heap. destruct (m (limiter.heap w)); reflexivity.
Qed.

Lemma priority_on_heap_gate {A} (m : M chans A) (w : priority.world) :
  priority.gate (final (priority.on_heap m w)) = priority.gate w.
Proof.
  unfold priority.on_heap. destruct (m (priority.heap w)); reflexivity.
Qed.

Lemma limiter_removeWaiter_unlocks (w : limiter.world) ch :
  limiter.mu (limiter.gate w) = false ->
  on_return (fun _ w' => limiter.mu (limiter.gate w') = false)
            (limiter.removeWaiter ch w).
Proof.
  intros Hmu. rewrite (limiter_removeWaiter_eq w ch Hmu). cbv zeta.
  destruct (limiter.remove_first ch _); [|exact Hmu].
  destruct (close ch (limiter.heap w)) as [[] h|h|h]; simpl; auto.
Qed.

Lemma priority_removeWaiter_unlocks (w : priority.world) h :
  on_return (fun _ w' => priority.mu (priority.gate w') = false)
            (priority.removeWaiter h w).
Proof.
  unfold priority.removeWaiter, priority.Lock, priority.Unlock, bind, get,
    modify, ret, priority.item.
  destruct w as [[c l m q d t] its hp]; simpl.
  destruct m; simpl; [exact I|].
  destruct (its !! h) as [it|]; simpl; [|exact I].
  unfold priority.on_heap; simpl.
  destruct (close (queue.Done it) hp) as [[] h1|h1|h1]; simpl; auto.
Qed.

Lemma priority_promote_unlocks (w : priority.world) h :
  priority.mu (priority.gate w) = false ->
  on_return (fun _ w' => priority.mu (priority.gate w') = false)
            (priority.promote h w).
Proof.
  intros Hmu. rewrite (priority_promote_eq w h Hmu).
  destruct (priority.items w !! h) as [it|]; [|exact I].
  destruct (queue.Priority it <? priority.High); simpl; [|exact Hmu].
  destruct w as [[c l m q d t] its hp]; exact Hmu.
Qed.

Lemma limiter_on_heap_unlocked {A} (m : M chans A) (w : limiter.world) :
  limiter.mu (limiter.gate w) = false ->
  on_return (fun _ w' => limiter.mu (limiter.gate w') = false)
            (limiter.on_heap m w).
Proof.
  intros Hmu. pose proof (limiter_on_heap_gate m w) as H.
  destruct (limiter.on_heap m w); simpl in *; [rewrite H; exact Hmu | exact I..].
Qed.

Lemma priority_on_heap_unlocked {A} (m : M chans A) (w : priority.world) :
  priority.mu (priority.gate w) = false ->
  on_return (fun _ w' => priority.mu (priority.gate w') = false)
            (priority.on_heap m w).
Proof.
  intros Hmu. pose proof (priority_on_heap_gate m w) as H.
  destruct (priority.on_heap m w); simpl in *; [rewrite H; exact Hmu | exact I..].
Qed.

Lemma limiter_leave_remove_unlocks (w : limiter.world) ch :
  limiter.mu (limiter.gate w) = false ->
  on_return (fun _ w' => limiter.mu (limiter.gate w') = false)
            ((limiter.on_heap (leave ch) ;; limiter.removeWaiter ch) w).
Proof.
  intros Hmu. apply on_return_bind.
  - apply limiter_on_heap_unlocked, Hmu.
  - intros _ w' Hw'. apply limiter_removeWaiter_unlocks, Hw'.
Qed.

Lemma priority_signalled_unlocked (w : priority.world) h :
  priority.mu (priority.gate w) = false ->
  on_return (fun _ w' => priority.mu (priority.gate w') = false)
            (priority.signalled h w).
Proof.
  intros Hmu. unfold priority.signalled. apply on_return_bind.
  - unfold priority.item. destruct (priority.items w !! h); simpl; auto.
  - intros it w' Hw'. apply priority_on_heap_unlocked, Hw'.
Qed.

Lemma priority_leave_remove_unlocks (w : priority.world) h :
  priority.mu (priority.gate w) = false ->
  on_return (fun _ w' => priority.mu (priority.gate w') = false)
            ((priority.abandon h ;; priority.removeWaiter h) w).
Proof.
  intros Hmu. apply on_return_bind.
  - unfold priority.abandon. apply on_return_bind.
    + unfold priority.item. destruct (priority.items w !! h); simpl; auto.
    + intros it w' Hw'. apply priority_on_heap_unlocked, Hw'.
  - intros _ w' _. apply priority_removeWaiter_unlocks.
Qed.

Lemma priority_abandon_unlocked (w : priority.world) h :
  priority.mu (priority.gate w) = false ->
  on_return (fun _ w' => priority.mu (priority.gate w') = false)
            (priority.abandon h w).
Proof.
  intros Hmu. unfold priority.abandon. apply on_return_bind.
  - unfold priority.item. destruct (priority.items w !! h); simpl; auto.
  - intros it w' Hw'. apply priority_on_heap_unlocked, Hw'.
Qed.

Lemma priority_resume_unlocked (w : priority.world) h :
  priority.mu (priority.gate w) = false ->
  on_return (fun _ w' => priority.mu (priority.gate w') = false)
            (priority.resume h w).
Proof.
  intros Hmu. unfold priority.resume. apply on_return_bind.
  - unfold priority.item. destruct (priority.items w !! h); simpl; auto.
  - intros it w' Hw'. apply priority_on_heap_unlocked, Hw'.
Qed.

Lemma NewTicker_unlocked (w : priority.world) d :
  priority.mu (priority.gate w) = false ->
  on_return (fun _ w' => priority.mu (priority.gate w') = false)
            (time.NewTicker d w).
Proof.
  intros Hmu. unfold time.NewTicker. destruct (d <=? 0); simpl; auto.
Qed.

Lemma handleDynamicPriority_loop_unlocks cs h : forall (w : priority.world),
  priority.mu (priority.gate w) = false ->
  on_return (fun _ w' => priority.mu (priority.gate w') = false)
            (priority.handleDynamicPriority_loop cs h w).
Proof.
  induction cs as [|c cs IH]; intros w Hmu; simpl; [exact I|].
  destruct c as [| | |b].
  - apply priority_signalled_unlocked, Hmu.
  - exact I.
  - apply priority_leave_remove_unlocks, Hmu.
  - apply on_return_bind; [apply priority_abandon_unlocked, Hmu|].
    intros _ w1 Hw1.
    apply on_return_bind; [apply priority_promote_unlocks, Hw1|].
    intros _ w2 Hw2.
    apply on_return_bind; [apply priority_resume_unlocked, Hw2|].
    intros _ w3 Hw3. apply IH, Hw3.
Qed.

Lemma handleDynamicPriority_unlocks cs h (w : priority.world) :
  priority.mu (priority.gate w) = false ->
  on_return (fun _ w' => priority.mu (priority.gate w') = false)
            (priority.handleDynamicPriority cs h w).
Proof.
  intros Hmu. unfold priority.handleDynamicPriority, bind at 1, get.
  destruct (priority.dynamicPeriod (priority.gate w)) as [d|]; [|exact I].
  apply on_return_bind; [apply NewTicker_unlocked, Hmu|].
  intros _ w1 Hw1. apply handleDynamicPriority_loop_unlocks, Hw1.
Qed.

Lemma dynamicPriorityAndTimeout_loop_unlocks cs h : forall (w : priority.world),
  priority.mu (priority.gate w) = false ->
  on_return (fun _ w' => priority.mu (priority.gate w') = false)
            (priority.dynamicPriorityAndTimeout_loop cs h w).
Proof.
  induction cs as [|c cs IH]; intros w Hmu; simpl; [exact I|].
  destruct c as [| | |b].
  - apply priority_signalled_unlocked, Hmu.
  - apply priority_leave_remove_unlocks, Hmu.
  - apply priority_leave_remove_unlocks, Hmu.
  - apply on_return_bind; [apply priority_abandon_unlocked, Hmu|].
    intros _ w1 Hw1. destruct b; [apply priority_removeWaiter_unlocks|].
    apply on_return_bind; [apply priority_promote_unlocks, Hw1|].
    intros _ w2 Hw2.
    apply on_return_bind; [apply priority_resume_unlocked, Hw2|].
    intros _ w3 Hw3. apply IH, Hw3.
Qed.

Lemma dynamicPriorityAndTimeout_unlocks cs h (w : priority.world) :
  priority.mu (priority.gate w) = false ->
  on_return (fun _ w' => priority.mu (priority.gate w') = false)
            (priority.dynamicPriorityAndTimeout cs h w).
Proof.
  intros Hmu. unfold priority.dynamicPriorityAndTimeout, bind at 1, get.
  destruct (priority.dynamicPeriod (priority.gate w)) as [d|]; [|exact I].
  apply on_return_bind; [apply NewTicker_unlocked, Hmu|].
  intros _ w1 Hw1.
  destruct (priority.timeout (priority.gate w)); [|exact I].
  apply dynamicPriorityAndTimeout_loop_unlocks, Hw1.
Qed.

(** X9: no call returns with the mutex held.  At both gates, when the
    mutex is free: an acquire under the mutex always returns and frees
    it; a release frees it when it returns and also when it panics (the
    unlock is deferred) and keeps it only when it blocks in the send; a
    removal, a promotion, [waitListSize] and a whole [Wait], whatever
    cases its select takes, have freed the mutex when they return. *)
Theorem calls_return_with_mutex_free :
  (forall w : limiter.world,
     limiter.mu (limiter.gate w) = false ->
     (exists r w', limiter.proceed w = Returns r w'
                   /\ limiter.mu (limiter.gate w') = false)
     /\ match limiter.Finish w with
        | Returns _ w' => limiter.mu (limiter.gate w') = false
        | Panic w' => limiter.mu (limiter.gate w') = false
        | Blocked w' => limiter.mu (limiter.gate w') = true
        end
     /\ (forall ch,
           on_return (fun _ w' => limiter.mu (limiter.gate w') = false)
                     (limiter.removeWaiter ch w))
     /\ (forall c,
           on_return (fun _ w' => limiter.mu (limiter.gate w') = false)
                     (limiter.Wait c w))
     /\ limiter.waitListSize w
        = Returns (length (limiter.waitList (limiter.gate w))) w)
  /\
  (forall w : priority.world,
     priority.mu (priority.gate w) = false ->
     (forall p, exists r w', priority.proceed p w = Returns r w'
                             /\ priority.mu (priority.gate w') = false)
     /\ match priority.Finish w with
        | Returns _ w' => priority.mu (priority.gate w') = false
        | Panic w' => priority.mu (priority.gate w') = false
        | Blocked w' => priority.mu (priority.gate w') = true
        end
     /\ (forall h,
           on_return (fun _ w' => priority.mu (priority.gate w') = false)
                     (priority.removeWaiter h w))
     /\ (forall h,
           on_return (fun _ w' => priority.mu (priority.gate w') = false)
                     (priority.promote h w))
     /\ (forall cs p,
           on_return (fun _ w' => priority.mu (priority.gate w') = false)
                     (priority.Wait cs p w))
     /\ priority.waitListSize w
        = Returns (queue.Len (priority.waitList (priority.gate w))) w).
Proof.
  split.
  - intros w Hmu.
    assert (Hp : exists r w', limiter.proceed w = Returns r w'
                              /\ limiter.mu (limiter.gate w') = false).
    { rewrite (limiter_proceed_eq w Hmu). cbv zeta.
      destruct (_ <? _); do 2 eexists; (split; [reflexivity|]);
        [destruct w as [[? ? ? ? ?] ?]; exact Hmu | reflexivity]. }
    split; [exact Hp|]. split; [|split; [|split]].
    + rewrite (limiter_Finish_eq w Hmu). cbv zeta.
      destruct w as [[c l m q t] h]; simpl in *.
      destruct q as [|first rest]; [exact Hmu|].
      destruct (fire (limiter.done first) h) as [[] h1|h1|h1]; simpl;
        [exact Hmu | reflexivity | exact Hmu].
    + intros ch. apply limiter_removeWaiter_unlocks, Hmu.
    + intros c. unfold limiter.Wait. apply on_return_bind.
      * destruct Hp as (r & w' & -> & Hw'). exact Hw'.
      * intros [ch|] w1 Hw1; [|exact Hw1].
        unfold limiter.Wait_select, bind at 1, get.
        destruct (limiter.timeout (limiter.gate w1)); destruct c;
          try exact I;
          try (apply limiter_on_heap_unlocked, Hw1);
          apply limiter_leave_remove_unlocks, Hw1.
    + destruct w as [[c l m q t] h]; simpl in *. subst m. reflexivity.
  - intros w Hmu.
    assert (Hp : forall p, exists r w', priority.proceed p w = Returns r w'
                              /\ priority.mu (priority.gate w') = false).
    { intros p. rewrite (priority_proceed_eq w p Hmu). cbv zeta.
      destruct (_ <? _); do 2 eexists; (split; [reflexivity|]);
        [destruct w as [[? ? ? ? ? ?] ? ?]; exact Hmu | reflexivity]. }
    split; [exact Hp|]. split; [|split; [|split; [|split]]].
    + rewrite (priority_Finish_eq w Hmu). cbv zeta.
      destruct w as [[c l m q d t] its h]; simpl in *.
      destruct (queue.Pop q its) as [[b q']|].
      * simpl. destruct (its !! b) as [it|]; [|exact Hmu].
        destruct (fire (queue.Done it) h) as [[] h1|h1|h1]; simpl;
          [exact Hmu | reflexivity | exact Hmu].
      * destruct (Nat.eqb (queue.Len q) 0); exact Hmu.
    + intros h. apply priority_removeWaiter_unlocks.
    + intros h. apply priority_promote_unlocks, Hmu.
    + intros cs p. unfold priority.Wait. apply on_return_bind.
      * destruct (Hp p) as (r & w' & -> & Hw'). exact Hw'.
      * intros [h|] w1 Hw1; [|exact Hw1].
        unfold bind at 1, get.
        destruct (priority.dynamicPeriod (priority.gate w1)),
                 (priority.timeout (priority.gate w1)).
        -- apply dynamicPriorityAndTimeout_unlocks, Hw1.
        -- apply handleDynamicPriority_unlocks, Hw1.
        -- unfold priority.handleTimeout.
           destruct cs as [|[| | |b] cs]; try exact I;
             try (apply priority_signalled_unlocked, Hw1);
             apply priority_leave_remove_unlocks, Hw1.
        -- destruct cs as [|[| | |b] cs]; try exact I;
             try (apply priority_signalled_unlocked, Hw1);
             apply priority_leave_remove_unlocks, Hw1.
    + destruct w as [[c l m q d t] its h]; simpl in *. subst m. reflexivity.
Qed.

Lemma calls_return_with_mutex_free_witness :
  (limiter.mu (limiter.gate sample.fifo_abandoned) = false
   /\ match limiter.Finish sample.fifo_abandoned with
      | Returns _ w' => limiter.mu (limiter.gate w') = false
      | Panic w' => limiter.mu (limiter.gate w') = false
      | Blocked w' => limiter.mu (limiter.gate w') = true
      end)
  /\ (priority.mu (priority.gate sample.aging_timeout_full) = false
      /\ on_return (fun _ w' => priority.mu (priority.gate w') = false)
           (priority.Wait [CaseTicker false; CaseTicker false; CaseTimer]
              priority.Low sample.aging_timeout_full)).
Proof.
  split.
  - split; [reflexivity|].
    exact (proj1 (proj2 (proj1 calls_return_with_mutex_free
                           sample.fifo_abandoned eq_refl))).
  - split; [reflexivity|].
    exact (proj1 (proj2 (proj2 (proj2 (proj2 (proj2 calls_return_with_mutex_free
             sample.aging_timeout_full eq_refl)))))
             [CaseTicker false; CaseTicker false; CaseTimer] priority.Low).
Defined.

(** ** The priority gate without cancellation *)

Lemma priority_calm_proceed (w : priority.world) p :
  priority.calm w ->
  exists r w',
    priority.proceed p w = Returns r w' /\ priority.calm w'
    /\ priority.limit (priority.gate w') = priority.limit (priority.gate w)
    /\ priority.count (priority.gate w')
       = (if priority.count (priority.gate w) <? priority.limit (priority.gate w)
          then Go.add (priority.count (priority.gate w)) 1
          else priority.count (priority.gate w)).
Proof.
  intros (Hmu & Hnd & Hl & Hinj).
  rewrite (priority_proceed_eq w p Hmu). cbv zeta.
  destruct w as [[n l m [es k] d t] its [cs dl]]; unfold priority.calm in *;
    cbn [priority.gate priority.count priority.limit priority.mu priority.items
         priority.heap priority.waitList priority.dynamicPeriod priority.timeout
         queue.entries queue.arrivals cells delivered] in *.
  destruct (n <? l).
  - do 2 eexists. split; [reflexivity|]. cbn.
    split; [|split; reflexivity].
    split; [exact Hmu|]. split; [exact Hnd|]. split; [exact Hl | exact Hinj].
  - do 2 eexists. split; [reflexivity|].
    unfold queue.Push. cbn [queue.entries queue.arrivals fst snd].
    rewrite list_lookup_middle by reflexivity. cbn [queue.Priority queue.Done].
    rewrite insert_app_r_alt by apply Nat.le_refl.
    rewrite Nat.sub_diag. cbn [list_insert insert].
    cbn [priority.gate priority.count priority.limit priority.mu priority.items
         priority.heap priority.waitList queue.entries cells].
    split; [|split; reflexivity].
    assert (Hlt : forall e, In e es -> (e < length its)%nat).
    { intros e He. destruct (Hl e He) as (it & E & _).
      eapply lookup_lt_Some. exact E. }
    assert (Hold : forall e it, In e es ->
              (its ++ [queue.mkItem p (length cs) k]) !! e = Some it ->
              its !! e = Some it).
    { intros e it He E. rewrite lookup_app_l in E by (apply Hlt, He). exact E. }
    assert (Hnew : forall it,
              (its ++ [queue.mkItem p (length cs) k]) !! length its = Some it ->
              it = queue.mkItem p (length cs) k).
    { intros it E. rewrite list_lookup_middle in E by reflexivity. congruence. }
    split; [reflexivity|]. split; [|split].
    + apply NoDup_app. split; [exact Hnd|]. split; [|apply NoDup_singleton].
      intros x Hx Hx'. apply list_elem_of_In in Hx. apply Hlt in Hx.
      apply list_elem_of_In in Hx'. destruct Hx' as [<- | []]. lia.
    + intros e He. apply in_app_or in He. destruct He as [He | [<- | []]].
      * destruct (Hl e He) as (it & E & Hc). exists it.
        rewrite lookup_app_l by (apply Hlt, He). split; [exact E|].
        rewrite lookup_app_l by (eapply lookup_lt_Some; exact Hc). exact Hc.
      * eexists. split; [apply list_lookup_middle; reflexivity|].
        simpl. apply list_lookup_middle. reflexivity.
    + intros e e' it it' He He' E E' Hd.
      apply in_app_or in He. apply in_app_or in He'.
      destruct He as [He | [<- | []]]; destruct He' as [He' | [<- | []]].
      * eapply Hinj; eauto.
      * exfalso. apply Hnew in E'. subst it'. simpl in Hd.
        destruct (Hl e He) as (it0 & E0 & Hc).
        rewrite (Hold e it He E) in E0. inversion E0; subst it0.
        apply lookup_lt_Some in Hc. lia.
      * exfalso. apply Hnew in E. subst it. simpl in Hd.
        destruct (Hl e' He') as (it0 & E0 & Hc).
        rewrite (Hold e' it' He' E') in E0. inversion E0; subst it0.
        apply lookup_lt_Some in Hc. lia.
      * reflexivity.
Qed.

Lemma priority_calm_Finish (w : priority.world) :
  priority.calm w ->
  exists w',
    priority.Finish w = Returns tt w' /\ priority.calm w'
    /\ priority.limit (priority.gate w') = priority.limit (priority.gate w)
    /\ priority.count (priority.gate w')
       = Go.sub (priority.count (priority.gate w)) 1.
Proof.
  intros (Hmu & Hnd & Hl & Hinj).
  rewrite (priority_Finish_eq w Hmu). cbv zeta.
  destruct w as [[n l m [es k] d t] its [cs dl]]; unfold priority.calm in *;
    cbn [priority.gate priority.count priority.limit priority.mu priority.items
         priority.heap priority.waitList priority.dynamicPeriod priority.timeout
         queue.entries queue.arrivals cells delivered] in *.
  unfold queue.Pop, queue.Len. cbn [queue.entries queue.arrivals].
  destruct (queue.best its es) as [b|] eqn:Hb.
  - pose proof (best_In _ _ _ Hb) as Hin.
    destruct (Hl b Hin) as (it & Hit & Hc). rewrite Hit.
    rewrite (fire_listening (mkChans cs dl) _ Hc).
    eexists. split; [reflexivity|]. cbn.
    split; [|split; reflexivity].
    split; [exact Hmu|]. split; [apply NoDup_remove_entry, Hnd|]. split.
    + intros e He. apply (In_remove_entry b e es Hnd) in He.
      destruct He as [He Hne]. destruct (Hl e He) as (ie & Hie & Hce).
      exists ie. split; [exact Hie|].
      rewrite list_lookup_insert_ne; [exact Hce|].
      intros Hd. apply Hne. symmetry. eapply (Hinj b e it ie); eauto.
    + intros e e' ie ie' He He' E E' Hd.
      apply (In_remove_entry b e es Hnd) in He.
      apply (In_remove_entry b e' es Hnd) in He'.
      eapply Hinj; [apply He | apply He' | eassumption..].
  - apply best_None in Hb. subst es. eexists. split; [reflexivity|]. cbn.
    split; [|split; reflexivity].
    split; [exact Hmu|]. split; [exact Hnd|]. split; [exact Hl | exact Hinj].
Qed.

Lemma signalled_listening (w : priority.world) e it :
  priority.items w !! e = Some it ->
  cells (priority.heap w) !! queue.Done it = Some (mkCell false Listening) ->
  priority.signalled e w = Blocked w.
Proof.
  intros Hit Hc. destruct w as [g its [cs dl]].
  unfold priority.signalled, priority.item, bind, priority.on_heap, await.
  simpl in *. rewrite Hit. simpl. rewrite Hc. reflexivity.
Qed.

Lemma signalled_received (w : priority.world) e it :
  priority.items w !! e = Some it ->
  cells (priority.heap w) !! queue.Done it = Some (mkCell true Received) ->
  priority.signalled e w = Returns tt w.
Proof.
  intros Hit Hc. destruct w as [g its [cs dl]].
  unfold priority.signalled, priority.item, bind, priority.on_heap, await.
  simpl in *. rewrite Hit. simpl. rewrite Hc. reflexivity.
Qed.

(** [Wait] is [proceed] and then, for a queued caller, [waits]. *)
Lemma Wait_waits cs p (w : priority.world) :
  priority.Wait cs p w
  = (r <- priority.proceed p ;;
     match r with
     | None => ret tt
     | Some h => priority.waits cs h
     end) w.
Proof. reflexivity. Qed.

(** Without aging a queued caller waits in a select with the case
    [<-w.Done], with or without a timeout. *)
Lemma waits_done_without_aging cs e (w : priority.world) :
  priority.dynamicPeriod (priority.gate w) = None ->
  priority.waits (CaseDone :: cs) e w = priority.signalled e w.
Proof.
  intros Hd. unfold priority.waits, bind at 1, get. rewrite Hd.
  destruct (priority.timeout (priority.gate w)); reflexivity.
Qed.

Lemma priority_proceed_step (w : priority.world) p r w' :
  priority.mu (priority.gate w) = false ->
  priority.proceed p w = Returns r w' ->
  priority.dynamicPeriod (priority.gate w')
  = priority.dynamicPeriod (priority.gate w)
  /\ delivered (priority.heap w') = delivered (priority.heap w)
  /\ (forall e it, priority.items w !! e = Some it ->
                   priority.items w' !! e = Some it)
  /\ (forall ch c, cells (priority.heap w) !! ch = Some c ->
                   cells (priority.heap w') !! ch = Some c)
  /\ (forall e, In e (queue.entries (priority.waitList (priority.gate w'))) ->
                In e (queue.entries (priority.waitList (priority.gate w)))
                \/ r = Some e).
Proof.
  intros Hmu E. rewrite (priority_proceed_eq w p Hmu) in E. cbv zeta in E.
  destruct w as [[n l m [es k] d t] its [cs dl]];
    cbn [priority.gate priority.count priority.limit priority.mu priority.items
         priority.heap priority.waitList priority.dynamicPeriod priority.timeout
         queue.entries queue.arrivals cells delivered] in *.
  destruct (n <? l).
  - inversion E; subst; clear E. cbn.
    split; [reflexivity|]. split; [reflexivity|].
    split; [intros e it H; exact H|]. split; [intros ch c H; exact H|].
    intros e H. left. exact H.
  - unfold queue.Push in E. cbn [queue.entries queue.arrivals fst snd] in E.
    rewrite list_lookup_middle in E by reflexivity.
    cbn [queue.Priority queue.Done] in E.
    rewrite insert_app_r_alt in E by apply Nat.le_refl.
    rewrite Nat.sub_diag in E. cbn [list_insert insert] in E.
    inversion E; subst; clear E.
    cbn [priority.gate priority.items priority.heap priority.waitList
         priority.dynamicPeriod queue.entries cells delivered].
    split; [reflexivity|]. split; [reflexivity|]. split; [|split].
    + intros e it H. rewrite lookup_app_l by (eapply lookup_lt_Some; exact H).
      exact H.
    + intros ch c H. rewrite lookup_app_l by (eapply lookup_lt_Some; exact H).
      exact H.
    + intros e H. apply in_app_or in H.
      destruct H as [H | [<- | []]]; [left; exact H | right; reflexivity].
Qed.

Lemma priority_Finish_step (w : priority.world) w' :
  priority.calm w ->
  priority.Finish w = Returns tt w' ->
  priority.dynamicPeriod (priority.gate w')
  = priority.dynamicPeriod (priority.gate w)
  /\ priority.items w' = priority.items w
  /\ (forall ch c, cells (priority.heap w) !! ch = Some c -> closed c = true ->
                   cells (priority.heap w') !! ch = Some c)
  /\ (forall e, In e (queue.entries (priority.waitList (priority.gate w'))) ->
                In e (queue.entries (priority.waitList (priority.gate w))))
  /\ exists new,
       delivered (priority.heap w') = delivered (priority.heap w) ++ new
       /\ forall ch, In ch new ->
            exists e it,
              In e (queue.entries (priority.waitList (priority.gate w)))
              /\ priority.items w !! e = Some it
              /\ queue.Done it = ch
              /\ cells (priority.heap w') !! ch = Some (mkCell true Received).
Proof.
  intros (Hmu & Hnd & Hl & Hinj) E.
  rewrite (priority_Finish_eq w Hmu) in E. cbv zeta in E.
  destruct w as [[n l m [es k] d t] its [cs dl]];
    cbn [priority.gate priority.count priority.limit priority.mu priority.items
         priority.heap priority.waitList priority.dynamicPeriod priority.timeout
         queue.entries queue.arrivals cells delivered] in *.
  unfold queue.Pop, queue.Len in E. cbn [queue.entries queue.arrivals] in E.
  destruct (queue.best its es) as [b|] eqn:Hb.
  - pose proof (best_In _ _ _ Hb) as Hin.
    destruct (Hl b Hin) as (it & Hit & Hc). rewrite Hit in E.
    rewrite (fire_listening (mkChans cs dl) _ Hc) in E.
    inversion E; subst; clear E. cbn.
    split; [reflexivity|]. split; [reflexivity|]. split; [|split].
    + intros ch c H Hx. rewrite list_lookup_insert_ne; [exact H|].
      intros Heq. subst ch. pose proof (eq_trans (eq_sym H) Hc) as Hx0.
      inversion Hx0; subst c. discriminate Hx.
    + intros e He. apply (In_remove_entry b e es Hnd) in He. apply He.
    + exists [queue.Done it]. split; [reflexivity|].
      intros ch [<- | []]. exists b, it. split; [exact Hin|].
      split; [exact Hit|]. split; [reflexivity|].
      apply list_lookup_insert_eq. eapply lookup_lt_Some. exact Hc.
  - apply best_None in Hb. subst es. simpl in E.
    inversion E; subst; clear E. cbn.
    split; [reflexivity|]. split; [reflexivity|].
    split; [intros ch c H _; exact H|]. split; [intros e []|].
    exists []. split; [symmetry; apply app_nil_r | intros ch []].
Qed.

(** The calls [cs] return from a calm state, in a calm state. *)
Lemma priority_run_returns :
  forall cs (w : priority.world),
    priority.calm w ->
    priority.count (priority.gate w) <= priority.limit (priority.gate w) ->
    priority.limit (priority.gate w) <= Go.int_max ->
    Go.int_min + Z.of_nat (length cs) <= priority.count (priority.gate w) ->
    exists rs w',
      priority.run cs w = Returns rs w'
      /\ priority.calm w'
      /\ priority.count (priority.gate w') <= priority.limit (priority.gate w')
      /\ priority.count (priority.gate w) - Z.of_nat (priority.releases cs)
         <= priority.count (priority.gate w').
Proof.
  induction cs as [|c cs IH]; intros w Hcalm Hle Hmax Hmin.
  - exists [], w. split; [reflexivity|]. split; [exact Hcalm|].
    split; [exact Hle|]. unfold priority.releases. simpl. lia.
  - assert (Hlen : Z.of_nat (length (c :: cs)) = Z.of_nat (length cs) + 1)
      by (simpl length; lia).
    rewrite Hlen in Hmin. destruct c as [p|]; cbn [priority.run]; unfold bind at 1.
    + destruct (priority_calm_proceed w p Hcalm) as (r & w1 & -> & Hcalm1 & Hlim1 & Hc1).
      assert (Hb : priority.count (priority.gate w1) <= priority.limit (priority.gate w1)
                   /\ priority.count (priority.gate w)
                      <= priority.count (priority.gate w1)).
      { rewrite Hlim1, Hc1.
        destruct (Z.ltb_spec (priority.count (priority.gate w))
                             (priority.limit (priority.gate w))) as [Hlt | Hge].
        - rewrite add_one_exact by lia. lia.
        - lia. }
      destruct (IH w1 Hcalm1) as (rs & w' & E & Hcalm' & Hle' & Hlow');
        [lia | lia | lia |].
      unfold bind at 1. rewrite E. exists (r :: rs), w'.
      split; [reflexivity|]. split; [exact Hcalm'|]. split; [exact Hle'|].
      unfold priority.releases in *. simpl. lia.
    + destruct (priority_calm_Finish w Hcalm) as (w1 & -> & Hcalm1 & Hlim1 & Hc1).
      rewrite sub_one_exact in Hc1 by lia.
      destruct (IH w1 Hcalm1) as (rs & w' & E & Hcalm' & Hle' & Hlow');
        [lia | lia | lia |].
      rewrite E. exists rs, w'.
      split; [reflexivity|]. split; [exact Hcalm'|]. split; [exact Hle'|].
      unfold priority.releases in *. simpl length.
      rewrite Nat2Z.inj_succ. lia.
Qed.

(** The signals the calls [cs] deliver go to callers that were queued
    or that the calls queue; the items stay where they are and a channel
    that is closed stays as it is. *)
Lemma priority_run_signals :
  forall cs (w : priority.world) rs w',
    priority.calm w ->
    priority.run cs w = Returns rs w' ->
    priority.dynamicPeriod (priority.gate w')
    = priority.dynamicPeriod (priority.gate w)
    /\ (forall e it, priority.items w !! e = Some it ->
                     priority.items w' !! e = Some it)
    /\ (forall ch c, cells (priority.heap w) !! ch = Some c -> closed c = true ->
                     cells (priority.heap w') !! ch = Some c)
    /\ exists new,
         delivered (priority.heap w') = delivered (priority.heap w) ++ new
         /\ forall ch, In ch new ->
              exists e it,
                (In e (queue.entries (priority.waitList (priority.gate w)))
                 \/ In (Some e) rs)
                /\ priority.items w' !! e = Some it
                /\ queue.Done it = ch
                /\ cells (priority.heap w') !! ch = Some (mkCell true Received).
Proof.
  induction cs as [|c cs IH]; intros w rs w' Hcalm E.
  - inversion E; subst; clear E. split; [reflexivity|].
    split; [intros e it H; exact H|]. split; [intros ch x H _; exact H|].
    exists []. split; [symmetry; apply app_nil_r | intros ch []].
  - destruct c as [p|]; cbn [priority.run] in E; unfold bind at 1 in E.
    + destruct (priority_calm_proceed w p Hcalm) as (r & w1 & E1 & Hcalm1 & _).
      rewrite E1 in E. unfold bind at 1 in E.
      destruct (priority.run cs w1) as [rs1 w2|w2|w2] eqn:E2; try discriminate E.
      unfold ret in E. inversion E; subst; clear E.
      destruct (priority_proceed_step w p r w1 (proj1 Hcalm) E1)
        as (Hdp1 & Hd1 & Hi1 & Hk1 & Hq1).
      destruct (IH w1 rs1 w' Hcalm1 E2) as (Hdp2 & Hi2 & Hk2 & new & Hd2 & Hnew).
      split; [rewrite Hdp2; exact Hdp1|].
      split; [intros e it H; apply Hi2, Hi1, H|].
      split; [intros ch x H Hx; apply Hk2; [apply Hk1, H | exact Hx]|].
      exists new. split; [rewrite Hd2, Hd1; reflexivity|].
      intros ch Hin. destruct (Hnew ch Hin) as (e & it & Hor & Hit & Hdone & Hcell).
      exists e, it. split; [|split; [exact Hit|split; [exact Hdone | exact Hcell]]].
      destruct Hor as [Hq | Hr]; [|right; right; exact Hr].
      destruct (Hq1 e Hq) as [Hq0 | ->]; [left; exact Hq0 | right; left; reflexivity].
    + destruct (priority_calm_Finish w Hcalm) as (w1 & E1 & Hcalm1 & _).
      rewrite E1 in E.
      destruct (priority_Finish_step w w1 Hcalm E1)
        as (Hdp1 & Hi1 & Hk1 & Hq1 & new1 & Hd1 & Hnew1).
      destruct (IH w1 rs w' Hcalm1 E) as (Hdp2 & Hi2 & Hk2 & new & Hd2 & Hnew).
      split; [rewrite Hdp2; exact Hdp1|].
      split; [intros e it H; apply Hi2; rewrite Hi1; exact H|].
      split; [intros ch x H Hx; apply Hk2; [apply Hk1; assumption | exact Hx]|].
      exists (new1 ++ new). split; [rewrite Hd2, Hd1, app_assoc; reflexivity|].
      intros ch Hin. apply in_app_or in Hin. destruct Hin as [Hin | Hin].
      * destruct (Hnew1 ch Hin) as (e & it & Hq & Hit & Hdone & Hcell).
        exists e, it. split; [left; exact Hq|].
        split; [apply Hi2; rewrite Hi1; exact Hit|]. split; [exact Hdone|].
        apply Hk2; [exact Hcell | reflexivity].
      * destruct (Hnew ch Hin) as (e & it & Hor & Hit & Hdone & Hcell).
        exists e, it. split; [|split; [exact Hit|split; [exact Hdone | exact Hcell]]].
        destruct Hor as [Hq | Hr]; [left; apply Hq1, Hq | right; exact Hr].
Qed.

(** X10: the priority gate without aging, cancellation or timeout.  At
    a gate made without [WithDynamicPriority], in every sequence of
    acquire and release calls, from a state in which every queued caller
    is in its select, the critical section of every acquire and every
    release return: no release blocks on its hand-off and nothing
    panics.  The signals delivered meanwhile went to callers that were
    queued, each of which finds its channel signalled and returns from
    its wait; the callers still queued are suspended in their selects.
    After the calls [count] is at most [limit], as long as the sequence
    is short enough for [count] not to wrap around. *)
Theorem priority_calls_without_cancellation :
  forall cs (w : priority.world),
    priority.calm w ->
    priority.dynamicPeriod (priority.gate w) = None ->
    priority.count (priority.gate w) <= priority.limit (priority.gate w) ->
    priority.limit (priority.gate w) <= Go.int_max ->
    Go.int_min + Z.of_nat (length cs) <= priority.count (priority.gate w) ->
    exists rs w' new,
      priority.run cs w = Returns rs w'
      /\ priority.calm w'
      /\ priority.count (priority.gate w') <= priority.limit (priority.gate w')
      /\ priority.count (priority.gate w) - Z.of_nat (priority.releases cs)
         <= priority.count (priority.gate w')
      /\ delivered (priority.heap w') = delivered (priority.heap w) ++ new
      /\ (forall ch, In ch new ->
            exists e it,
              (In e (queue.entries (priority.waitList (priority.gate w)))
               \/ In (Some e) rs)
              /\ priority.items w' !! e = Some it
              /\ queue.Done it = ch
              /\ forall cs0, priority.waits (CaseDone :: cs0) e w' = Returns tt w')
      /\ (forall e cs0,
            In e (queue.entries (priority.waitList (priority.gate w'))) ->
            priority.waits (CaseDone :: cs0) e w' = Blocked w').
Proof.
  intros cs w Hcalm Hnone Hle Hmax Hmin.
  destruct (priority_run_returns cs w Hcalm Hle Hmax Hmin)
    as (rs & w' & E & Hcalm' & Hle' & Hlow').
  destruct (priority_run_signals cs w rs w' Hcalm E)
    as (Hdp & _ & _ & new & Hd & Hnew).
  rewrite Hnone in Hdp.
  exists rs, w', new. split; [exact E|]. split; [exact Hcalm'|].
  split; [exact Hle'|]. split; [exact Hlow'|]. split; [exact Hd|]. split.
  - intros ch Hin. destruct (Hnew ch Hin) as (e & it & Hor & Hit & Hdone & Hcell).
    exists e, it. split; [exact Hor|]. split; [exact Hit|]. split; [exact Hdone|].
    intros cs0. rewrite (waits_done_without_aging cs0 e w' Hdp).
    apply (signalled_received w' e it Hit). rewrite Hdone. exact Hcell.
  - intros e cs0 Hin. rewrite (waits_done_without_aging cs0 e w' Hdp).
    destruct Hcalm' as (_ & _ & Hl & _). destruct (Hl e Hin) as (it & Hit & Hc).
    exact (signalled_listening w' e it Hit Hc).
Qed.

Lemma priority_calm_start p :
  priority.waitList p = queue.empty -> priority.mu p = false ->
  priority.calm (priority.start p).
Proof.
  intros Hq Hmu. unfold priority.calm, priority.start; simpl. rewrite Hq. simpl.
  split; [exact Hmu|]. split; [constructor|]. split; [intros e []|].
  intros e e' it it' [].
Qed.

Lemma priority_calls_without_cancellation_witness :
  priority.calm (priority.start (priority.NewLimiter 2 []))
  /\ priority.dynamicPeriod (priority.gate (priority.start (priority.NewLimiter 2 [])))
     = None
  /\ 0 <= 2 /\ 2 <= Go.int_max /\ Go.int_min + 7 <= 0
  /\ exists rs w' new,
       priority.run
         [priority.Acquire priority.Low; priority.Acquire priority.High;
          priority.Acquire priority.Medium; priority.Release;
          priority.Acquire priority.High; priority.Release; priority.Release]
         (priority.start (priority.NewLimiter 2 [])) = Returns rs w'
       /\ priority.calm w'
       /\ priority.count (priority.gate w') <= priority.limit (priority.gate w')
       /\ 0 - 3 <= priority.count (priority.gate w')
       /\ delivered (priority.heap w') = [] ++ new.
Proof.
  assert (C : priority.calm (priority.start (priority.NewLimiter 2 [])))
    by (apply priority_calm_start; reflexivity).
  assert (H1 : 0 <= 2) by discriminate.
  assert (H2 : 2 <= Go.int_max) by discriminate.
  assert (H3 : Go.int_min + 7 <= 0) by discriminate.
  split; [exact C|]. split; [reflexivity|].
  split; [exact H1|]. split; [exact H2|]. split; [exact H3|].
  destruct (priority_calls_without_cancellation
              [priority.Acquire priority.Low; priority.Acquire priority.High;
               priority.Acquire priority.Medium; priority.Release;
               priority.Acquire priority.High; priority.Release; priority.Release]
              (priority.start (priority.NewLimiter 2 [])) C eq_refl H1 H2 H3)
    as (rs & w' & new & E & Hc & Hle & Hlow & Hd & _).
  exists rs, w', new. split; [exact E|]. split; [exact Hc|].
  split; [exact Hle|]. split; [exact Hlow | exact Hd].
Defined.

(** ** Waking the waiter *)

(** X11: a release of the FIFO gate wakes the front waiter and nobody
    else.  With nobody cancelled or timed out, every queued caller is
    suspended in [Wait] before the release; the release returns, and
    after it the select of the caller at the front of the wait list
    takes the case of its channel and that caller returns from [Wait],
    while every other queued caller is still suspended. *)
Theorem fifo_release_wakes_front_waiter :
  forall (w : limiter.world) first rest,
    limiter.calm w ->
    limiter.waitList (limiter.gate w) = first :: rest ->
    (forall x, In x (first :: rest) ->
               limiter.Wait_select CaseDone (limiter.done x) w = Blocked w)
    /\ exists w',
         limiter.Finish w = Returns tt w'
         /\ limiter.Wait_select CaseDone (limiter.done first) w' = Returns tt w'
         /\ forall x, In x rest ->
              limiter.Wait_select CaseDone (limiter.done x) w' = Blocked w'.
Proof.
  intros w first rest Hcalm Hq.
  pose proof Hcalm as ((Hnd & _) & Hmu & Hl).
  unfold limiter.queued in *. rewrite Hq in *. simpl in Hnd, Hl.
  split.
  - intros x Hx. rewrite Wait_select_done. apply await_listening, Hl.
    apply (in_map limiter.done) in Hx. exact Hx.
  - pose proof (Hl _ (or_introl eq_refl)) as Hc0.
    rewrite (limiter_Finish_eq w Hmu). cbv zeta. rewrite Hq.
    rewrite (fire_listening _ _ Hc0).
    eexists. split; [reflexivity|]. split.
    + rewrite Wait_select_done. unfold limiter.on_heap, await. simpl.
      rewrite list_lookup_insert_eq by (eapply lookup_lt_Some; exact Hc0).
      reflexivity.
    + intros x Hx. rewrite Wait_select_done. apply await_listening. simpl.
      apply NoDup_cons in Hnd. destruct Hnd as [Hfirst _].
      rewrite list_lookup_insert_ne.
      * apply Hl. right. apply in_map, Hx.
      * intros E. apply Hfirst, list_elem_of_In. rewrite E. apply in_map, Hx.
Qed.

Lemma fifo_release_wakes_front_waiter_witness :
  limiter.calm sample.fifo_queued
  /\ limiter.waitList (limiter.gate sample.fifo_queued) = [limiter.mkWaiter 0%nat]
  /\ limiter.Wait_select CaseDone 0%nat sample.fifo_queued
     = Blocked sample.fifo_queued
  /\ exists w',
       limiter.Finish sample.fifo_queued = Returns tt w'
       /\ limiter.Wait_select CaseDone 0%nat w' = Returns tt w'.
Proof.
  assert (C : limiter.calm sample.fifo_queued).
  { destruct (calm_proceed _ (calm_start (limiter.New 1 []) eq_refl eq_refl))
      as (r & w1 & E1 & C1 & _).
    destruct (calm_proceed _ C1) as (r2 & w2 & E2 & C2 & _).
    unfold sample.fifo_queued, bind. rewrite E1, E2. exact C2. }
  destruct (fifo_release_wakes_front_waiter sample.fifo_queued
              (limiter.mkWaiter 0%nat) [] C eq_refl) as (Hb & w' & E & Hw & _).
  split; [exact C|]. split; [reflexivity|].
  split; [exact (Hb (limiter.mkWaiter 0%nat) (or_introl eq_refl))|].
  exists w'. split; [exact E | exact Hw].
Defined.

(** ** Acquire and release on a gate that is not full *)

Lemma sub_add_one c : Go.is_int c -> c < Go.int_max -> Go.sub (Go.add c 1) 1 = c.
Proof.
  unfold Go.is_int. intros H Hlt. rewrite add_one_exact by lia.
  rewrite sub_one_exact by lia. lia.
Qed.

(** X12: acquire then release is a round trip on a gate with room.  At
    both gates, when the mutex is free, [count < limit] and nobody is
    queued, an acquire takes the fast path and a release that follows
    puts the gate back in exactly the state it was in. *)
Theorem acquire_release_round_trip :
  (forall w : limiter.world,
     limiter.mu (limiter.gate w) = false ->
     limiter.waitList (limiter.gate w) = [] ->
     Go.is_int (limiter.count (limiter.gate w)) ->
     Go.is_int (limiter.limit (limiter.gate w)) ->
     limiter.count (limiter.gate w) < limiter.limit (limiter.gate w) ->
     limiter.proceed w
       = Returns None
           (limiter.set_count (limiter.count (limiter.gate w) + 1) w)
     /\ (limiter.proceed ;; limiter.Finish) w = Returns tt w)
  /\
  (forall (w : priority.world) p,
     priority.mu (priority.gate w) = false ->
     queue.entries (priority.waitList (priority.gate w)) = [] ->
     Go.is_int (priority.count (priority.gate w)) ->
     Go.is_int (priority.limit (priority.gate w)) ->
     priority.count (priority.gate w) < priority.limit (priority.gate w) ->
     priority.proceed p w
       = Returns None
           (priority.set_count (priority.count (priority.gate w) + 1) w)
     /\ (priority.proceed p ;; priority.Finish) w = Returns tt w).
Proof.
  split.
  - intros w Hmu Hq Hc Hl Hlt.
    assert (Hlt' : limiter.count (limiter.gate w) < Go.int_max)
      by (unfold Go.is_int in Hl; lia).
    assert (Hp : limiter.proceed w
                 = Returns None
                     (limiter.set_count (Go.add (limiter.count (limiter.gate w)) 1) w)).
    { rewrite (limiter_proceed_eq w Hmu). cbv zeta.
      destruct (Z.ltb_spec (limiter.count (limiter.gate w))
                           (limiter.limit (limiter.gate w))); [reflexivity | lia]. }
    split.
    + rewrite Hp, add_one_exact by (unfold Go.is_int in Hc; lia). reflexivity.
    + unfold bind. rewrite Hp. rewrite limiter_Finish_eq.
      * cbv zeta. destruct w as [[c l m q t] h]; simpl in *. subst q m.
        rewrite sub_add_one by assumption. reflexivity.
      * destruct w as [[c l m q t] h]; exact Hmu.
  - intros w p Hmu Hq Hc Hl Hlt.
    assert (Hlt' : priority.count (priority.gate w) < Go.int_max)
      by (unfold Go.is_int in Hl; lia).
    assert (Hp : priority.proceed p w
                 = Returns None
                     (priority.set_count
                        (Go.add (priority.count (priority.gate w)) 1) w)).
    { rewrite (priority_proceed_eq w p Hmu). cbv zeta.
      destruct (Z.ltb_spec (priority.count (priority.gate w))
                           (priority.limit (priority.gate w))); [reflexivity | lia]. }
    split.
    + rewrite Hp, add_one_exact by (unfold Go.is_int in Hc; lia). reflexivity.
    + unfold bind. rewrite Hp. rewrite priority_Finish_eq.
      * cbv zeta. destruct w as [[c l m [es k] d t] its h]; simpl in *. subst es m.
        unfold queue.Pop, queue.Len. simpl.
        rewrite sub_add_one by assumption. reflexivity.
      * destruct w as [[c l m q d t] its h]; exact Hmu.
Qed.

Lemma acquire_release_round_trip_witness :
  (limiter.mu (limiter.gate sample.fifo_fresh) = false
   /\ limiter.waitList (limiter.gate sample.fifo_fresh) = []
   /\ Go.is_int (limiter.count (limiter.gate sample.fifo_fresh))
   /\ Go.is_int (limiter.limit (limiter.gate sample.fifo_fresh))
   /\ limiter.count (limiter.gate sample.fifo_fresh)
      < limiter.limit (limiter.gate sample.fifo_fresh)
   /\ (limiter.proceed ;; limiter.Finish) sample.fifo_fresh
      = Returns tt sample.fifo_fresh)
  /\ (priority.mu (priority.gate sample.prio_underflow) = false
      /\ queue.entries (priority.waitList (priority.gate sample.prio_underflow)) = []
      /\ Go.is_int (priority.count (priority.gate sample.prio_underflow))
      /\ Go.is_int (priority.limit (priority.gate sample.prio_underflow))
      /\ priority.count (priority.gate sample.prio_underflow)
         < priority.limit (priority.gate sample.prio_underflow)
      /\ (priority.proceed priority.Medium ;; priority.Finish) sample.prio_underflow
         = Returns tt sample.prio_underflow).
Proof.
  assert (I0 : Go.is_int 0) by (split; discriminate).
  assert (I2 : Go.is_int 2) by (split; discriminate).
  assert (I1 : Go.is_int (-1)) by (split; discriminate).
  assert (L1 : 0 < 2) by reflexivity.
  assert (L2 : -1 < 2) by reflexivity.
  split.
  - do 2 (split; [reflexivity|]). split; [exact I0|]. split; [exact I2|].
    split; [exact L1|].
    exact (proj2 (proj1 acquire_release_round_trip sample.fifo_fresh
                    eq_refl eq_refl I0 I2 L1)).
  - do 2 (split; [reflexivity|]). split; [exact I1|]. split; [exact I2|].
    split; [exact L2|].
    exact (proj2 (proj2 acquire_release_round_trip sample.prio_underflow
                    priority.Medium eq_refl eq_refl I1 I2 L2)).
Defined.

(** X13: a release of the priority gate wakes one waiter.  With nobody
    cancelled or timed out and a queue that is not empty, every queued
    caller is suspended before the release; the release returns, and
    after it exactly the caller of the popped entry (one that no queued
    entry is ordered before) finds its channel signalled and returns
    from its wait, while every other queued caller is still suspended
    and still queued. *)
Theorem priority_release_wakes_one_waiter :
  forall (w : priority.world),
    priority.calm w ->
    queue.entries (priority.waitList (priority.gate w)) <> [] ->
    (forall e, In e (queue.entries (priority.waitList (priority.gate w))) ->
               priority.signalled e w = Blocked w)
    /\ exists b w',
         In b (queue.entries (priority.waitList (priority.gate w)))
         /\ (forall e, In e (queue.entries (priority.waitList (priority.gate w))) ->
                       queue.before_at (priority.items w) e b = false)
         /\ priority.Finish w = Returns tt w'
         /\ priority.signalled b w' = Returns tt w'
         /\ forall e, In e (queue.entries (priority.waitList (priority.gate w))) ->
                      e <> b ->
                      priority.signalled e w' = Blocked w'
                      /\ In e (queue.entries (priority.waitList (priority.gate w'))).
Proof.
  intros w (Hmu & Hnd & Hl & Hinj) Hne. split.
  - intros e He. destruct (Hl e He) as (it & Hit & Hc).
    eapply signalled_listening; eassumption.
  - destruct (queue.best (priority.items w)
                (queue.entries (priority.waitList (priority.gate w))))
      as [b|] eqn:Hb; [|apply best_None in Hb; contradiction].
    pose proof (best_In _ _ _ Hb) as Hin.
    assert (Hv : forall e,
              In e (queue.entries (priority.waitList (priority.gate w))) ->
              is_Some (priority.items w !! e)).
    { intros e He. destruct (Hl e He) as (it & Hit & _). eauto. }
    destruct (Hl b Hin) as (it & Hit & Hc).
    exists b. rewrite (priority_Finish_eq w Hmu). cbv zeta.
    unfold queue.Pop. rewrite Hb, Hit, (fire_listening _ _ Hc).
    eexists. split; [exact Hin|]. split; [exact (best_max _ _ _ Hv Hb)|].
    split; [reflexivity|].
    destruct w as [[n l m [es k] d t] its [cs dl]]; simpl in *. split.
    + unfold priority.signalled, priority.item, bind, priority.on_heap, await.
      simpl. rewrite Hit. simpl.
      rewrite list_lookup_insert_eq by (eapply lookup_lt_Some; exact Hc).
      reflexivity.
    + intros e He Hneq. destruct (Hl e He) as (ie & Hie & Hce). split.
      * apply (signalled_listening _ e ie); simpl; [exact Hie|].
        rewrite list_lookup_insert_ne; [exact Hce|].
        intros Hd. apply Hneq. symmetry. eapply (Hinj b e it ie); eauto.
      * apply (In_remove_entry b e es Hnd). split; assumption.
Qed.

Lemma priority_release_wakes_one_waiter_witness :
  priority.calm sample.prio_queued
  /\ queue.entries (priority.waitList (priority.gate sample.prio_queued)) <> []
  /\ exists b w',
       In b (queue.entries (priority.waitList (priority.gate sample.prio_queued)))
       /\ priority.Finish sample.prio_queued = Returns tt w'
       /\ priority.signalled b w' = Returns tt w'.
Proof.
  assert (C : priority.calm sample.prio_queued).
  { pose proof (priority_calm_start (priority.NewLimiter 1 []) eq_refl eq_refl) as C0.
    destruct (priority_calm_proceed _ priority.High C0) as (r1 & w1 & E1 & C1 & _).
    destruct (priority_calm_proceed _ priority.Low C1) as (r2 & w2 & E2 & C2 & _).
    destruct (priority_calm_proceed _ priority.Medium C2) as (r3 & w3 & E3 & C3 & _).
    destruct (priority_calm_proceed _ priority.High C3) as (r4 & w4 & E4 & C4 & _).
    unfold sample.prio_queued. cbn [priority.enqueue]. unfold bind, ret.
    rewrite E1, E2, E3, E4. exact C4. }
  assert (N : queue.entries (priority.waitList (priority.gate sample.prio_queued))
              <> []) by discriminate.
  destruct (priority_release_wakes_one_waiter sample.prio_queued C N)
    as (_ & b & w' & Hin & _ & E & Hs & _).
  split; [exact C|]. split; [exact N|].
  exists b, w'. split; [exact Hin|]. split; [exact E | exact Hs].
Defined.
